(** * Mood playlist recommender: a shallow embedding and its properties

    The development follows the four source files of the repository:

    - [Py]            the fragment of Python's value model the code relies on
                      (truthiness, [dict.get], [isinstance], hashing, exceptions,
                      the length and slices of strings, the difference of
                      two floats);
    - [Config]        [config.py], the static mood-to-keywords table;
    - [MoodDetector]  [mood_detector.py], feature counting, the three-rule
                      emotion logic and the timer-driven demo rotation;
    - [SpotifyClient] [spotify_client.py], validation, projection,
                      de-duplication, search and recommendation;
    - [Main]          [main.py], keyword lookup and the stability loop.

    Definitions come first, the theorems about them afterwards. *)

From stdpp Require Import gmap strings list fin_maps.
From Stdlib Require Import ZArith QArith Qround Qabs Qpower Lia Lqa.
From Stdlib Require Import Floats.SpecFloat.

Local Open Scope Z_scope.

#[local] Set Warnings "-register-all".

(* ===================================================================== *)
(** ** Python values *)
(* ===================================================================== *)

Module Py.

(** The exceptions the modelled code can meet.  Every handler in the source
    is [except Exception], so the handlers never tell them apart; the names
    are kept for the reader. *)
Inductive exn : Type :=
| AttributeError
| TypeError
| IndexError
| KeyError
| ExternalError.

(** A computation that returns or raises. *)
Inductive res (A : Type) : Type :=
| Ok (a : A)
| Raise (e : exn).

Arguments Ok {A} a.
Arguments Raise {A} e.

#[global] Instance res_ret : MRet res := fun A a => Ok a.

#[global] Instance res_bind : MBind res :=
  fun A B f m => match m with Ok a => f a | Raise e => Raise e end.

Definition is_ok {A} (m : res A) : bool :=
  match m with Ok _ => true | Raise _ => false end.

(** JSON-shaped Python values: what [spotipy] hands back from a decoded
    response, and what the client builds from it.  Dictionaries have string
    keys and are only ever read through [get], so their order is immaterial
    and they are finite maps.  Numbers are the integers (a count, an index);
    floating-point numbers do not occur in the fields the client reads. *)
Inductive pyval : Type :=
| PyNone
| PyBool (b : bool)
| PyInt (n : Z)
| PyStr (s : string)
| PyList (l : list pyval)
| PyDict (d : gmap string pyval).

(** [bool(v)]: the test behind [if v], [not v], [a or b]. *)
Definition truthy (v : pyval) : bool :=
  match v with
  | PyNone => false
  | PyBool b => b
  | PyInt n => negb (n =? 0)
  | PyStr s => negb (String.eqb s "")
  | PyList l => match l with [] => false | _ :: _ => true end
  | PyDict d => negb (Nat.eqb (size d) 0)
  end.

(** [bool(s)] for a string. *)
Definition str_truthy (s : string) : bool := negb (String.eqb s "").

Definition is_dict (v : pyval) : bool :=
  match v with PyDict _ => true | _ => false end.

Definition is_list (v : pyval) : bool :=
  match v with PyList _ => true | _ => false end.

Definition is_str (v : pyval) : bool :=
  match v with PyStr _ => true | _ => false end.

(** [v.get(k, dflt)]: only dictionaries have the method. *)
Definition get (v : pyval) (k : string) (dflt : pyval) : res pyval :=
  match v with
  | PyDict d => Ok (default dflt (d !! k))
  | _ => Raise AttributeError
  end.

(** [a or b] on values. *)
Definition py_or (a b : pyval) : pyval := if truthy a then a else b.

(** [v == 0]: [False == 0] holds in Python, no other non-number does. *)
Definition eq_zero (v : pyval) : bool :=
  match v with
  | PyInt n => n =? 0
  | PyBool b => negb b
  | _ => false
  end.

(** [v >= n] for an integer [n]: numbers compare, anything else raises. *)
Definition ge_int (v : pyval) (n : Z) : res bool :=
  match v with
  | PyInt m => Ok (n <=? m)
  | PyBool b => Ok (n <=? Z.b2z b)
  | _ => Raise TypeError
  end.

(** A Python string is a sequence of code points.  A string without
    unpaired surrogates, which is every string that can be printed or sent,
    is embedded as its UTF-8 encoding, which is what a string literal of
    this file denotes.  A character then takes one to four bytes: a leading
    byte, followed by continuation bytes of the form [10xxxxxx].  Equality
    and [startswith] are the same on the bytes as on the code points. *)
Definition is_continuation (c : Ascii.ascii) : bool :=
  match c with
  | Ascii.Ascii _ _ _ _ _ _ b6 b7 => b7 && negb b6
  end.

(** [len(s)] for a string: the number of its code points, one for every
    byte that is not a continuation byte. *)
Fixpoint str_len (s : string) : nat :=
  match s with
  | EmptyString => 0%nat
  | String c rest =>
      if is_continuation c then str_len rest else S (str_len rest)
  end.

(** [s[:n]] for a string: its first [n] code points, each with the
    continuation bytes that belong to it. *)
Fixpoint str_take (n : nat) (s : string) : string :=
  match s with
  | EmptyString => EmptyString
  | String c rest =>
      if is_continuation c then String c (str_take n rest)
      else match n with
           | O => EmptyString
           | S m => String c (str_take m rest)
           end
  end.

(** [len(v)]. *)
Definition len (v : pyval) : res Z :=
  match v with
  | PyStr s => Ok (Z.of_nat (str_len s))
  | PyList l => Ok (Z.of_nat (length l))
  | PyDict d => Ok (Z.of_nat (size d))
  | _ => Raise TypeError
  end.

(** What [hash] and [==] see of a hashable value: [True] and [1] are the
    same set element.  Lists and dictionaries are unhashable. *)
Inductive pykey : Type :=
| KNone
| KNum (n : Z)
| KStr (s : string).

#[global] Instance pykey_eq_dec : EqDecision pykey.
Proof. solve_decision. Defined.

Definition pykey_code (k : pykey) : unit + (Z + string) :=
  match k with
  | KNone => inl tt
  | KNum n => inr (inl n)
  | KStr s => inr (inr s)
  end.

Definition pykey_decode (c : unit + (Z + string)) : pykey :=
  match c with
  | inl _ => KNone
  | inr (inl n) => KNum n
  | inr (inr s) => KStr s
  end.

#[global] Instance pykey_countable : Countable pykey.
Proof.
  refine (inj_countable' pykey_code pykey_decode _).
  intros [ | n | s]; reflexivity.
Defined.

Definition hash_key (v : pyval) : res pykey :=
  match v with
  | PyNone => Ok KNone
  | PyBool b => Ok (KNum (Z.b2z b))
  | PyInt n => Ok (KNum n)
  | PyStr s => Ok (KStr s)
  | PyList _ | PyDict _ => Raise TypeError
  end.

(** [l[i]] on a Python list: negative indices count from the end. *)
Definition index {A} (l : list A) (i : Z) : res A :=
  let n := Z.of_nat (length l) in
  let j := if i <? 0 then i + n else i in
  if (0 <=? j) && (j <? n)
  then match l !! Z.to_nat j with Some a => Ok a | None => Raise IndexError end
  else Raise IndexError.

(** *** Floating-point subtraction

    A Python float is an IEEE 754 double.  A finite double is taken as the
    rational it denotes; [a - b] on doubles is the exact difference rounded
    to the nearest double, ties to the even one. *)

(** The integer nearest to [t], the even one of two equally near. *)
Definition rne (t : Q) : Z :=
  let f := Qfloor t in
  match (t - inject_Z f ?= 1 # 2)%Q with
  | Lt => f
  | Gt => f + 1
  | Eq => if Z.even f then f else f + 1
  end.

(** For a positive [x], the exponent [e] with [2 ^ e <= x < 2 ^ (e + 1)]:
    the difference of the binary logarithms of numerator and denominator,
    or one less. *)
Definition binade (x : Q) : Z :=
  let e0 := Z.log2 (Qnum x) - Z.log2 (Zpos (Qden x)) in
  if Qle_bool (2 ^ e0) x then e0 else e0 - 1.

(** The double nearest to [x].  A double has 53 significant bits, so in the
    binade of exponent [e] the doubles are [2 ^ (e - 52)] apart; below
    [2 ^ -1022] the spacing stays that of the last normal binade.  Beyond
    the largest double the IEEE result is an infinity, which compares with
    a finite number as the value given here does. *)
Definition round64 (x : Q) : Q :=
  if Qeq_bool x 0 then 0%Q
  else let k := Z.max (binade (Qabs x)) (-1022) - 52 in
       (inject_Z (rne (x / 2 ^ k)) * 2 ^ k)%Q.

(** [a - b] on floats. *)
Definition float_sub (a b : Q) : Q := round64 (a - b).

End Py.

Import Py.

(* ===================================================================== *)
(** ** config.py *)
(* ===================================================================== *)

Module Config.

Definition MOOD_MAPPING : gmap string (list string) :=
  <["happy" := ["happy"; "party"; "upbeat"; "energetic"; "dance"]]>
  (<["sad" := ["sad"; "melancholy"; "blues"; "emotional"; "heartbreak"]]>
  (<["angry" := ["rock"; "metal"; "aggressive"; "intense"; "hardcore"]]>
  (<["fear" := ["ambient"; "calm"; "peaceful"; "meditation"; "relaxing"]]>
  (<["surprise" := ["pop"; "hits"; "trending"; "viral"; "popular"]]>
  (<["disgust" := ["alternative"; "indie"; "experimental"; "underground"]]>
  (<["neutral" := ["chill"; "lofi"; "background"; "study"; "focus"]]> ∅)))))).

Definition FRAME_SKIP : Z := 30.

Definition PLACEHOLDER_CLIENT_ID : string := "your_client_id_here".

Definition PLACEHOLDER_CLIENT_SECRET : string := "your_client_secret_here".

End Config.

(* ===================================================================== *)
(** ** mood_detector.py *)
(* ===================================================================== *)

Module MoodDetector.

(** A bounding box [(x, y, w, h)]. *)
Definition rect : Type := Z * Z * Z * Z.

(** What the cascade classifiers answer on one frame.  They are external:
    the model takes their answers as data.  For each face box the smile and
    the eye classifier are run on that face's region; each call may raise. *)
Record face_hit : Type := {
  face_box : rect;
  smile_rects : res (list rect);
  eye_rects : res (list rect)
}.

Record observation : Type := {
  gray_ok : bool;                      (* cv2.cvtColor did not raise *)
  face_rects : res (list face_hit)     (* face_cascade.detectMultiScale *)
}.

(** Which classifiers [__init__] managed to load ([None] otherwise). *)
Record cascades : Type := {
  face_cascade : bool;
  smile_cascade : bool;
  eye_cascade : bool
}.

(** The dictionary [{'faces': .., 'smiles': .., 'eyes': ..}]. *)
Record features : Type := {
  faces : Z;
  smiles : Z;
  eyes : Z
}.

Definition no_features : features := {| faces := 0; smiles := 0; eyes := 0 |}.

(** The body of [for (x, y, w, h) in faces]: the running totals
    [(smiles, eyes)], or the exception that left the loop. *)
Fixpoint count_in_faces (c : cascades) (hits : list face_hit)
    (acc : Z * Z) : res (Z * Z) :=
  match hits with
  | [] => Ok acc
  | h :: rest =>
      s ← (if smile_cascade c
           then r ← smile_rects h; mret (fst acc + Z.of_nat (length r))
           else mret (fst acc));
      e ← (if eye_cascade c
           then r ← eye_rects h; mret (snd acc + Z.of_nat (length r))
           else mret (snd acc));
      count_in_faces c rest (s, e)
  end.

Definition detect_faces_and_features (c : cascades) (o : observation)
    : features :=
  if negb (face_cascade c) then no_features
  else if negb (gray_ok o) then no_features
  else match face_rects o with
       | Raise _ => no_features
       | Ok hits =>
           match count_in_faces c hits (0, 0) with
           | Raise _ => no_features
           | Ok (s, e) =>
               {| faces := Z.of_nat (length hits); smiles := s; eyes := e |}
           end
       end.

Definition simple_emotion_logic (f : features) : option string :=
  if faces f =? 0 then None
  else if smiles f >? 0 then Some "happy"
  else if eyes f >=? 2 then Some "neutral"
  else Some "sad".

(** The demo rotation's state: [current_emotion_index], [last_emotion_time].
    Wall-clock readings are floating-point seconds, doubles; they are taken
    as the rationals they denote, and their difference is the rounded one
    the interpreter computes, [float_sub]. *)
Record rotation : Type := {
  current_emotion_index : Z;
  last_emotion_time : Q
}.

Definition emotions : list string :=
  ["happy"; "sad"; "neutral"; "angry"; "surprise"].

Definition emotion_duration : Q := 10.

(** [current_time - last > emotion_duration]. *)
Definition elapsed_over (current_time last : Q) : bool :=
  negb (Qle_bool (float_sub current_time last) emotion_duration).

Definition demo_emotion_rotation (st : rotation) (current_time : Q)
    : res string * rotation :=
  let st' :=
    if elapsed_over current_time (last_emotion_time st)
    then {| current_emotion_index :=
              (current_emotion_index st + 1) mod Z.of_nat (length emotions);
            last_emotion_time := current_time |}
    else st in
  (index emotions (current_emotion_index st'), st').

(** [detect_mood_from_frame]: the label (or [None]) and the rotation state
    the call leaves behind. *)
Definition detect_mood_from_frame (c : cascades) (o : observation)
    (st : rotation) (current_time : Q) : option string * rotation :=
  let feats := detect_faces_and_features c o in
  let direct :=
    if faces feats >? 0
    then match simple_emotion_logic feats with
         | Some e => if str_truthy e then Some e else None
         | None => None
         end
    else None in
  match direct with
  | Some e => (Some e, st)
  | None =>
      match demo_emotion_rotation st current_time with
      | (Ok e, st') => (Some e, st')
      | (Raise _, st') => (None, st')
      end
  end.

(** The rotation as [__init__] leaves it at time [t0]. *)
Definition initial_rotation (t0 : Q) : rotation :=
  {| current_emotion_index := 0; last_emotion_time := t0 |}.

(** A run of calls of [demo_emotion_rotation] at the given times: the
    answers in order and the state left. *)
Fixpoint demo_rotation_run (st : rotation) (times : list Q)
    : list (res string) * rotation :=
  match times with
  | [] => ([], st)
  | t :: rest =>
      let '(r, st') := demo_emotion_rotation st t in
      let '(rs, st'') := demo_rotation_run st' rest in
      (r :: rs, st'')
  end.

(** [a % b] on integers: the sign follows the divisor; [None] stands for
    the [ZeroDivisionError] of a zero divisor. *)
Definition py_mod (a b : Z) : option Z :=
  if b =? 0 then None else Some (a mod b).

(** What the camera answers on one call of [capture_and_detect]: whether
    the handle is there and open, and what [cap.read()] followed by
    [cv2.flip] gives: the flag and the frame, seen through what the
    classifiers find on it. *)
Record capture : Type := {
  cap_opened : bool;
  cap_read : res (bool * observation)
}.

(** The mutable fields of the detector the capture path touches. *)
Record detector : Type := {
  frame_count : Z;
  rot : rotation
}.

(** [capture_and_detect]: the pair [(mood, frame)] and the detector after
    the call. *)
Definition capture_and_detect (c : cascades) (frame_skip : Z)
    (cam : capture) (d : detector) (current_time : Q)
    : (option string * option observation) * detector :=
  if negb (cap_opened cam) then ((None, None), d)
  else match cap_read cam with
       | Raise _ => ((None, None), d)
       | Ok (ret, frame) =>
           if negb ret then ((None, None), d)
           else
             let d1 := {| frame_count := frame_count d + 1; rot := rot d |} in
             match py_mod (frame_count d1) frame_skip with
             | None => ((None, None), d1)
             | Some m =>
                 if negb (m =? 0) then ((None, Some frame), d1)
                 else
                   let '(mood, rot') :=
                     detect_mood_from_frame c frame (rot d1) current_time in
                   ((mood, Some frame),
                    {| frame_count := frame_count d1; rot := rot' |})
             end
       end.

(** A run of [capture_and_detect] over the camera's answers, each with the
    clock reading of its call: the results in order and the detector left. *)
Fixpoint capture_run (c : cascades) (frame_skip : Z)
    (calls : list (capture * Q)) (d : detector)
    : list (option string * option observation) * detector :=
  match calls with
  | [] => ([], d)
  | (cam, t) :: rest =>
      let '(r, d') := capture_and_detect c frame_skip cam d t in
      let '(rs, d'') := capture_run c frame_skip rest d' in
      (r :: rs, d'')
  end.

(** [initialize_camera]: [camera] is what opening the capture device gives,
    the answer of [isOpened()] or an exception; a device that is not open
    fails like one that raises. *)
Definition initialize_camera (camera : res bool) : bool :=
  match camera with
  | Ok opened => opened
  | Raise _ => false
  end.

End MoodDetector.

(* ===================================================================== *)
(** ** main.py *)
(* ===================================================================== *)

Module Main.

(** [d[k]] on the mapping: a missing key raises. *)
Definition subscript (m : gmap string (list string)) (k : string)
    : res (list string) :=
  match m !! k with Some v => Ok v | None => Raise KeyError end.

(** [MOOD_MAPPING.get(detected_mood, MOOD_MAPPING['neutral'])]: the default
    is evaluated before the call. *)
Definition get_mood_keywords (detected_mood : string) : res (list string) :=
  dflt ← subscript Config.MOOD_MAPPING "neutral";
  mret (default dflt (Config.MOOD_MAPPING !! detected_mood)).

(** The locals of [detect_mood_single_cycle]. *)
Record gate : Type := {
  last_mood : option string;
  mood_stability_count : Z
}.

Definition required_stability : Z := 3.

Definition gate_init : gate :=
  {| last_mood := None; mood_stability_count := 0 |}.

(** One turn of the capture loop as the gate sees it: what
    [capture_and_detect] returned as mood, and what [cv2.waitKey] returned. *)
Record tick : Type := {
  detected_mood : option string;
  key : Z
}.

(** The block under [# Handle mood stability]. *)
Definition handle_mood (g : gate) (detected : option string) : gate :=
  match detected with
  | Some m =>
      if str_truthy m
      then if decide (Some m = last_mood g)
           then {| last_mood := last_mood g;
                   mood_stability_count := mood_stability_count g + 1 |}
           else {| last_mood := Some m; mood_stability_count := 1 |}
      else g
  | None => g
  end.

Definition ord_q : Z := 113.

Definition quit_pressed (t : tick) : bool := Z.land (key t) 255 =? ord_q.

(** How a run of the loop over the ticks supplied ends: the loop left with
    the count at the threshold, returning [last_mood], after [attempts]
    turns; the quit key; or the ticks used up with the loop still running. *)
Inductive cycle_result : Type :=
| Confirmed (mood : option string) (attempts : nat)
| Cancelled (attempts : nat)
| Running (g : gate).

(** [while mood_stability_count < required_stability: ...] from the state
    [g], [n] turns having been taken already. *)
Fixpoint cycle_loop (g : gate) (n : nat) (ticks : list tick) : cycle_result :=
  if mood_stability_count g <? required_stability
  then match ticks with
       | [] => Running g
       | t :: rest =>
           let g' := handle_mood g (detected_mood t) in
           if quit_pressed t then Cancelled (S n)
           else cycle_loop g' (S n) rest
       end
  else Confirmed (last_mood g) n.

Definition detect_mood_single_cycle (ticks : list tick) : cycle_result :=
  cycle_loop gate_init 0 ticks.

(** A sequence of per-attempt labels with no key pressed
    ([cv2.waitKey] answers -1). *)
Definition attempts_of (labels : list (option string)) : list tick :=
  map (fun m => {| detected_mood := m; key := -1 |}) labels.

End Main.

(* ===================================================================== *)
(** ** spotify_client.py *)
(* ===================================================================== *)

Module SpotifyClient.

Definition required_fields : list string :=
  ["name"; "external_urls"; "tracks"; "owner"].

(** [for field in required_fields: if not playlist.get(field): return False] *)
Fixpoint has_required (playlist : pyval) (fields : list string) : res bool :=
  match fields with
  | [] => Ok true
  | field :: rest =>
      v ← get playlist field PyNone;
      if truthy v then has_required playlist rest else Ok false
  end.

Definition _is_valid_playlist (playlist : pyval) : res bool :=
  if negb (truthy playlist) then Ok false
  else
    present ← has_required playlist required_fields;
    if negb present then Ok false
    else
      tracks ← get playlist "tracks" (PyDict ∅);
      no_tracks ← (if negb (is_dict tracks) then Ok true
                   else total ← get tracks "total" (PyInt 0);
                        Ok (eq_zero total));
      if (no_tracks : bool) then Ok false
      else
        external_urls ← get playlist "external_urls" (PyDict ∅);
        no_url ← (if negb (is_dict external_urls) then Ok true
                  else u ← get external_urls "spotify" PyNone;
                       Ok (negb (truthy u)));
        if (no_url : bool) then Ok false
        else
          owner ← get playlist "owner" (PyDict ∅);
          if negb (is_dict owner) then Ok false else Ok true.

(** [description[:200] + '...' if len(description) > 200 else description].
    The length of a string is the number of its code points, and the slice
    keeps the first 200 of them.  A list longer than 200 cannot be added to
    a string, a dictionary cannot be sliced. *)
Definition shorten (description : pyval) : res pyval :=
  n ← len description;
  if n >? 200
  then match description with
       | PyStr s => Ok (PyStr (str_take 200 s +:+ "..."))
       | _ => Raise TypeError
       end
  else Ok description.

Definition playlist_info (name url description tracks_count owner image
    : pyval) : pyval :=
  PyDict (<["name" := name]>
         (<["url" := url]>
         (<["description" := description]>
         (<["tracks_count" := tracks_count]>
         (<["owner" := owner]>
         (<["image" := image]> ∅)))))).

(** The [try] block of [_extract_playlist_info]. *)
Definition extract_fields (playlist : pyval) : res pyval :=
  name ← get playlist "name" (PyStr "Unknown Playlist");
  external_urls ← get playlist "external_urls" (PyDict ∅);
  url ← get external_urls "spotify" (PyStr "");
  d ← get playlist "description" PyNone;
  let description := py_or d (PyStr "No description available") in
  tracks ← get playlist "tracks" (PyDict ∅);
  tracks_count ← (if is_dict tracks then get tracks "total" (PyInt 0)
                  else Ok (PyInt 0));
  owner ← get playlist "owner" (PyDict ∅);
  owner_name ← (if is_dict owner
                then display_name ← get owner "display_name" PyNone;
                     if truthy display_name then Ok display_name
                     else get owner "id" (PyStr "Unknown User")
                else Ok (PyStr "Unknown User"));
  images ← get playlist "images" (PyList []);
  image_url ← (match images with
               | PyList (first_image :: _) =>
                   if is_dict first_image
                   then get first_image "url" (PyStr "")
                   else Ok (PyStr "")
               | _ => Ok (PyStr "")
               end);
  short ← shorten description;
  Ok (playlist_info name url short tracks_count owner_name image_url).

(** [None] stands for the [None] the handler returns. *)
Definition _extract_playlist_info (playlist : pyval) : option pyval :=
  match extract_fields playlist with
  | Ok info => Some info
  | Raise _ => None
  end.

(** The loop of [_remove_duplicates] from the state
    [(unique_playlists, seen_urls)]. *)
Fixpoint remove_duplicates_loop (unique_playlists : list pyval)
    (seen_urls : gset pykey) (playlists : list pyval) : res (list pyval) :=
  match playlists with
  | [] => Ok unique_playlists
  | playlist :: rest =>
      if negb (truthy playlist) || negb (is_dict playlist)
      then remove_duplicates_loop unique_playlists seen_urls rest
      else
        url ← get playlist "url" (PyStr "");
        if truthy url
        then
          k ← hash_key url;
          if decide (k ∈ seen_urls)
          then remove_duplicates_loop unique_playlists seen_urls rest
          else remove_duplicates_loop (unique_playlists ++ [playlist])
                 ({[k]} ∪ seen_urls) rest
        else remove_duplicates_loop unique_playlists seen_urls rest
  end.

Definition _remove_duplicates (playlists : list pyval) : res (list pyval) :=
  remove_duplicates_loop [] ∅ playlists.

(** [for playlist in playlists:] inside the per-keyword [try]: an exception
    from the validation leaves the block, what was appended stays. *)
Fixpoint collect_items (all_playlists : list pyval) (items : list pyval)
    : list pyval :=
  match items with
  | [] => all_playlists
  | playlist :: rest =>
      match _is_valid_playlist playlist with
      | Raise _ => all_playlists
      | Ok false => collect_items all_playlists rest
      | Ok true =>
          match _extract_playlist_info playlist with
          | Some info =>
              if truthy info
              then match get info "url" PyNone with
                   | Raise _ => all_playlists
                   | Ok u =>
                       if truthy u
                       then collect_items (all_playlists ++ [info]) rest
                       else collect_items all_playlists rest
                   end
              else collect_items all_playlists rest
          | None => collect_items all_playlists rest
          end
      end
  end.

Definition dquote : string := String (Ascii.ascii_of_nat 34) EmptyString.

(** [f'"{keyword}"'] *)
Definition quoted (keyword : string) : string := dquote +:+ keyword +:+ dquote.

Definition broader_keywords : pyval :=
  PyList [PyStr "music"; PyStr "playlist"; PyStr "songs"].

Definition is_nil {A} (l : list A) : bool :=
  match l with [] => true | _ :: _ => false end.

(** [[p for p in playlists if p.get('tracks_count', 0) >= 10]] *)
Fixpoint quality_playlists (playlists : list pyval) : res (list pyval) :=
  match playlists with
  | [] => Ok []
  | p :: rest =>
      c ← get p "tracks_count" (PyInt 0);
      keep ← ge_int c 10;
      quality ← quality_playlists rest;
      Ok (if (keep : bool) then p :: quality else quality)
  end.

(** The list handed to [random.choice]. *)
Definition selection_pool (playlists : list pyval) : res (list pyval) :=
  quality ← quality_playlists playlists;
  Ok (if is_nil quality then playlists else quality).

(** [random.choice(seq)]: the element at a random index below [len(seq)],
    [rnd] being the generator's draw. *)
Definition random_choice {A} (rnd : nat) (seq : list A) : res A :=
  match seq with
  | [] => Raise IndexError
  | _ :: _ =>
      match seq !! (rnd `mod` length seq)%nat with
      | Some a => Ok a
      | None => Raise IndexError
      end
  end.

(** Lines 278-286 of [get_mood_playlist_recommendation], under its handler. *)
Definition recommend_from (playlists : list pyval) (rnd : nat)
    : option pyval :=
  match (pool ← selection_pool playlists;
         recommended_playlist ← random_choice rnd pool;
         _ ← get recommended_playlist "name" (PyStr "Unknown");
         Ok recommended_playlist) with
  | Ok p => Some p
  | Raise _ => None
  end.

(** What [webbrowser.open] does with a URL: it raises, or it returns its
    flag, which the client does not look at. *)
Definition browser : Type := string → res bool.

Definition url_prefix : string := "https://open.spotify.com/".

(** The result, and the URLs handed to [webbrowser.open]. *)
Definition open_playlist_in_browser (web : browser) (playlist_url : pyval)
    : bool * list string :=
  if negb (truthy playlist_url) || negb (is_str playlist_url)
  then (false, [])
  else match playlist_url with
       | PyStr u =>
           if negb (String.prefix url_prefix u) then (false, [])
           else match web u with
                | Ok _ => (true, [u])
                | Raise _ => (false, [u])
                end
       | _ => (false, [])
       end.

Section Client.

(** The catalog is external and may answer the same query differently from
    one call to the next: its state is threaded through the calls. *)
Context {St : Type}.

(** [sp.search(q=.., type='playlist', limit=.., market='US')] *)
Definition catalog : Type := string → Z → St → res pyval * St.

(** One turn of [for keyword in mood_keywords] with [all_playlists] and the
    catalog state. *)
Definition search_keyword (search : catalog) (limit : Z)
    (acc : list pyval * St) (keyword : pyval) : list pyval * St :=
  let '(all_playlists, s) := acc in
  if negb (truthy keyword) || negb (is_str keyword) then acc
  else match keyword with
       | PyStr kw =>
           let '(r, s') := search (quoted kw) (Z.min limit 50) s in
           match r with
           | Raise _ => (all_playlists, s')
           | Ok results =>
               if negb (truthy results) || negb (is_dict results)
               then (all_playlists, s')
               else
                 match get results "playlists" (PyDict ∅) with
                 | Ok (PyDict playlists_data) =>
                     match default (PyList []) (playlists_data !! "items") with
                     | PyList playlists =>
                         (collect_items all_playlists playlists, s')
                     | _ => (all_playlists, s')
                     end
                 | _ => (all_playlists, s')
                 end
           end
       | _ => acc
       end.

(** [sp] is [None] until [authenticate] has succeeded. *)
Definition search_mood_playlists (sp : option catalog) (mood_keywords : pyval)
    (limit : Z) (s : St) : list pyval * St :=
  match sp with
  | None => ([], s)
  | Some search =>
      if negb (truthy mood_keywords) || negb (is_list mood_keywords)
      then ([], s)
      else match mood_keywords with
           | PyList keywords =>
               let '(all_playlists, s') :=
                 foldl (search_keyword search limit) ([], s) keywords in
               match _remove_duplicates all_playlists with
               | Ok unique_playlists => (unique_playlists, s')
               | Raise _ => ([], s')
               end
           | _ => ([], s)
           end
  end.

Definition get_mood_playlist_recommendation (sp : option catalog)
    (mood_keywords : pyval) (rnd : nat) (s : St) : option pyval * St :=
  if negb (truthy mood_keywords) then (None, s)
  else
    let '(playlists, s1) := search_mood_playlists sp mood_keywords 20 s in
    let '(playlists, s2) :=
      if is_nil playlists
      then search_mood_playlists sp broader_keywords 10 s1
      else (playlists, s1) in
    if is_nil playlists then (None, s2)
    else (recommend_from playlists rnd, s2).

End Client.

(** The three credentials the client is built with. *)
Record credentials : Type := {
  client_id : string;
  client_secret : string;
  redirect_uri : string
}.

(** What the start-up touches outside the program, in order. *)
Inductive startup_step : Type :=
| OpenCamera
| BuildClient.

#[global] Instance startup_step_eq_dec : EqDecision startup_step.
Proof. solve_decision. Defined.

Definition placeholder_credentials (cr : credentials) : bool :=
  String.eqb (client_id cr) Config.PLACEHOLDER_CLIENT_ID
  || String.eqb (client_secret cr) Config.PLACEHOLDER_CLIENT_SECRET.

(** [all([client_id, client_secret, redirect_uri])] *)
Definition all_credentials (cr : credentials) : bool :=
  str_truthy (client_id cr) && str_truthy (client_secret cr)
  && str_truthy (redirect_uri cr).

(** [authenticate]: [build] is what constructing [SpotifyOAuth] and
    [spotipy.Spotify] gives, the client or an exception.  The call of
    [current_user] that follows only feeds the log, its exceptions are
    caught on the spot.  The result, the value of [self.sp] afterwards, and
    the steps taken. *)
Definition authenticate {C} (cr : credentials) (build : res C)
    (sp : option C) : bool * option C * list startup_step :=
  if negb (all_credentials cr) then (false, sp, [])
  else if placeholder_credentials cr then (false, sp, [])
  else match build with
       | Ok client => (true, Some client, [BuildClient])
       | Raise _ => (false, sp, [BuildClient])
       end.

(** The loop of [get_featured_playlists]; an exception leaves the function
    through its handler. *)
Fixpoint collect_featured (featured_playlists : list pyval)
    (items : list pyval) : res (list pyval) :=
  match items with
  | [] => Ok featured_playlists
  | playlist :: rest =>
      valid ← _is_valid_playlist playlist;
      if (valid : bool)
      then match _extract_playlist_info playlist with
           | Some info =>
               if truthy info
               then collect_featured (featured_playlists ++ [info]) rest
               else collect_featured featured_playlists rest
           | None => collect_featured featured_playlists rest
           end
      else collect_featured featured_playlists rest
  end.

Section Featured.

Context {St : Type}.

(** [sp.featured_playlists(limit=limit)] *)
Definition featured_catalog : Type := Z → St → res pyval * St.

Definition get_featured_playlists (sp : option featured_catalog) (limit : Z)
    (s : St) : list pyval * St :=
  match sp with
  | None => ([], s)
  | Some featured =>
      let '(r, s') := featured limit s in
      match r with
      | Raise _ => ([], s')
      | Ok results =>
          if negb (truthy results) || negb (is_dict results) then ([], s')
          else
            match get results "playlists" (PyDict ∅) with
            | Ok (PyDict playlists_data) =>
                match default (PyList []) (playlists_data !! "items") with
                | PyList playlists =>
                    match collect_featured [] playlists with
                    | Ok featured_playlists => (featured_playlists, s')
                    | Raise _ => ([], s')
                    end
                | _ => ([], s')
                end
            | _ => ([], s')
            end
      end
  end.

End Featured.

End SpotifyClient.

(* ===================================================================== *)
(** ** main.py: the recommender *)
(* ===================================================================== *)

Module MoodPlaylistRecommender.

Import SpotifyClient.

(** [initialize]: the placeholder check, then the camera, then the
    client. *)
Definition initialize {C} (cr : credentials) (camera : res bool)
    (build : res C) (sp : option C) : bool * option C * list startup_step :=
  if placeholder_credentials cr then (false, sp, [])
  else if negb (MoodDetector.initialize_camera camera)
       then (false, sp, [OpenCamera])
       else let '(ok, sp', steps) := authenticate cr build sp in
            (ok, sp', OpenCamera :: steps).

(** [v[k]] on a record. *)
Definition getitem (v : pyval) (k : string) : res pyval :=
  match v with
  | PyDict d => match d !! k with Some x => Ok x | None => Raise KeyError end
  | _ => Raise TypeError
  end.

(** [v[:n]]: strings and lists can be sliced. *)
Definition slice_to (v : pyval) (n : nat) : res pyval :=
  match v with
  | PyStr s => Ok (PyStr (str_take n s))
  | PyList l => Ok (PyList (take n l))
  | _ => Raise TypeError
  end.

Section Recommend.

Context {St : Type}.

(** [recommend_playlist]: the result or the exception that leaves it, the
    URLs handed to the browser, and the catalog state. *)
Definition recommend_playlist (sp : option (@catalog St)) (web : browser)
    (mood : string) (rnd : nat) (s : St) : res bool * list string * St :=
  match Main.get_mood_keywords mood with
  | Raise e => (Raise e, [], s)
  | Ok keywords =>
      let '(playlist, s') :=
        get_mood_playlist_recommendation sp (PyList (PyStr <$> keywords))
          rnd s in
      match playlist with
      | None => (Ok false, [], s')
      | Some p =>
          if truthy p
          then
            match (_ ← getitem p "name";
                   _ ← getitem p "owner";
                   _ ← getitem p "tracks_count";
                   description ← getitem p "description";
                   _ ← slice_to description 100;
                   getitem p "url") with
            | Raise e => (Raise e, [], s')
            | Ok url =>
                (Ok true, (open_playlist_in_browser web url).2, s')
            end
          else (Ok false, [], s')
      end
  end.

End Recommend.

End MoodPlaylistRecommender.

(* ===================================================================== *)
(** ** Acceptance of a raw search result, in words *)
(* ===================================================================== *)

(** The validation step as the specification words it: a non-empty name, a
    non-empty external playlist URL, a track collection with total > 0, and
    an owner object. *)
Definition valid_by_spec (p : pyval) : Prop :=
  ∃ d name eu url tracks total owner,
    p = PyDict d
    ∧ d !! "name" = Some (PyStr name) ∧ name ≠ ""
    ∧ d !! "external_urls" = Some (PyDict eu)
    ∧ eu !! "spotify" = Some (PyStr url) ∧ url ≠ ""
    ∧ d !! "tracks" = Some (PyDict tracks)
    ∧ tracks !! "total" = Some (PyInt total) ∧ total > 0
    ∧ d !! "owner" = Some (PyDict owner).

(** The same, as the code decides it: the name and the URL are any value
    that counts as true, the total is present and does not equal 0, and the
    owner object is not empty. *)
Definition accepted (p : pyval) : Prop :=
  ∃ d name eu url tracks total owner,
    p = PyDict d
    ∧ d !! "name" = Some name ∧ truthy name = true
    ∧ d !! "external_urls" = Some (PyDict eu)
    ∧ eu !! "spotify" = Some url ∧ truthy url = true
    ∧ d !! "tracks" = Some (PyDict tracks)
    ∧ tracks !! "total" = Some total ∧ eq_zero total = false
    ∧ d !! "owner" = Some (PyDict owner) ∧ owner ≠ ∅.

(* ===================================================================== *)
(** ** Candidates and the URLs they bear *)
(* ===================================================================== *)

(** The URL value a list entry bears for [_remove_duplicates]: the ['url']
    of a dictionary, when it counts as true. *)
Definition url_value (p : pyval) : option pyval :=
  match p with
  | PyDict d =>
      match d !! "url" with
      | Some u => if truthy u then Some u else None
      | None => None
      end
  | _ => None
  end.

(** That value as the set of seen URLs holds it.  For a string this is the
    string itself. *)
Definition url_key (p : pyval) : option pykey :=
  match url_value p with
  | Some u => match hash_key u with Ok k => Some k | Raise _ => None end
  | None => None
  end.

(** A playlist candidate: a record that bears a URL. *)
Definition candidate (p : pyval) : Prop := is_Some (url_key p).

(** First occurrence wins, written without the loop's accumulator: the
    entries of [ps] whose URL is neither in [seen] nor borne by an earlier
    entry. *)
Fixpoint first_bearers (seen : gset pykey) (ps : list pyval) : list pyval :=
  match ps with
  | [] => []
  | p :: rest =>
      match url_key p with
      | Some k =>
          if decide (k ∈ seen) then first_bearers seen rest
          else p :: first_bearers ({[k]} ∪ seen) rest
      | None => first_bearers seen rest
      end
  end.

(** The URL field as the specification words it: a non-empty string. *)
Definition url_nonempty_string (p : pyval) : Prop :=
  ∃ d s, p = PyDict d ∧ d !! "url" = Some (PyStr s) ∧ s ≠ "".

(** The track count of a candidate as [>= 10] reads it: an integer, a
    Boolean counting as 0 or 1, the default 0 when the entry is missing. *)
Definition track_count (p : pyval) : option Z :=
  match p with
  | PyDict d =>
      match default (PyInt 0) (d !! "tracks_count") with
      | PyInt n => Some n
      | PyBool b => Some (Z.b2z b)
      | _ => None
      end
  | _ => None
  end.

(** Track count at least 10. *)
Definition has_quality (p : pyval) : bool :=
  match track_count p with
  | Some n => 10 <=? n
  | None => false
  end.

(** The input of [open_playlist_in_browser] is a string that starts with
    the playlist URL prefix. *)
Definition openable (v : pyval) (u : string) : Prop :=
  v = PyStr u ∧ String.prefix SpotifyClient.url_prefix u = true.

(** An open is attempted successfully, as the specification words it: the
    input is handed to [webbrowser.open], and that call reports that a
    browser was launched, which is what its [True] means. *)
Definition open_succeeds (web : SpotifyClient.browser) (v : pyval) : Prop :=
  ∃ u, openable v u ∧ web u = Ok true.

(** A record is the projection of an accepted item of some answer the
    catalog gives. *)
Definition from_catalog {St} (search : @SpotifyClient.catalog St)
    (p : pyval) : Prop :=
  ∃ q limit s rd pd items raw,
    (search q limit s).1 = Ok (PyDict rd)
    ∧ rd !! "playlists" = Some (PyDict pd)
    ∧ pd !! "items" = Some (PyList items)
    ∧ raw ∈ items
    ∧ accepted raw
    ∧ SpotifyClient._extract_playlist_info raw = Some p.

(** The catalog keeps to strings for the URLs of the items it returns. *)
Definition string_urls {St} (search : @SpotifyClient.catalog St) : Prop :=
  ∀ q limit s rd pd items d eu u,
    (search q limit s).1 = Ok (PyDict rd) →
    rd !! "playlists" = Some (PyDict pd) →
    pd !! "items" = Some (PyList items) →
    PyDict d ∈ items →
    d !! "external_urls" = Some (PyDict eu) →
    eu !! "spotify" = Some u →
    is_str u = true.

(* ===================================================================== *)
(** ** Counting and labelling, for the statements *)
(* ===================================================================== *)

(** The number of boxes a classifier call found, 0 for a call that raised. *)
Definition rects_found (r : res (list MoodDetector.rect)) : nat :=
  match r with Ok l => length l | Raise _ => 0%nat end.

(** A run of clock readings each more than ten seconds after the one
    before, the first more than ten seconds after [last]; the seconds are
    the difference of two readings as the interpreter computes it. *)
Fixpoint spaced (last : Q) (times : list Q) : Prop :=
  match times with
  | [] => True
  | t :: rest => (10 < float_sub t last)%Q ∧ spaced t rest
  end.

(** The camera hands over a frame. *)
Definition good_capture (cam : MoodDetector.capture) : Prop :=
  MoodDetector.cap_opened cam = true
  ∧ ∃ frame, MoodDetector.cap_read cam = Ok (true, frame).

(** The label an attempt carries for the stability loop, if it carries
    one. *)
Definition label_of (t : Main.tick) : option string :=
  match Main.detected_mood t with
  | Some m => if str_truthy m then Some m else None
  | None => None
  end.

(** The labels of a run of attempts, in order. *)
Definition labels_of (ticks : list Main.tick) : list string :=
  omap label_of ticks.

(** The camera hands over nothing: the handle is missing or closed, the
    read raises, or it returns with its flag down. *)
Definition capture_and_detect_fails (cam : MoodDetector.capture) : Prop :=
  MoodDetector.cap_opened cam = false
  ∨ (∃ x, MoodDetector.cap_read cam = Raise x)
  ∨ (∃ frame, MoodDetector.cap_read cam = Ok (false, frame)).

(** What the stability loop knows of the labels seen so far: nothing yet,
    or a held label with a count of at least one, the labels ending in that
    many copies of it. *)
Definition gate_tracks (g : Main.gate) (seen : list string) : Prop :=
  (Main.mood_stability_count g = 0 ∧ Main.last_mood g = None ∧ seen = [])
  ∨ ∃ l pre,
      l ≠ "" ∧ Main.last_mood g = Some l
      ∧ 1 <= Main.mood_stability_count g
      ∧ seen = pre ++ replicate (Z.to_nat (Main.mood_stability_count g)) l.

(** The description the projection works on: the entry of the playlist, or
    the stock text when there is none or it counts as false. *)
Definition description_of (d : gmap string pyval) : pyval :=
  py_or (default PyNone (d !! "description"))
    (PyStr "No description available").

(** The descriptions the projection can shorten: a string, or a list or a
    dictionary of at most 200 entries. *)
Definition describable (v : pyval) : bool :=
  match v with
  | PyStr _ => true
  | PyList l => Nat.leb (length l) 200
  | PyDict d => Nat.leb (size d) 200
  | _ => false
  end.

(** A catalog together with the record of the requests made to it: the
    query and the limit of each, in order. *)
Definition logged {St} (search : @SpotifyClient.catalog St)
    : @SpotifyClient.catalog (St * list (string * Z)) :=
  fun q limit sl =>
    ((search q limit sl.1).1, ((search q limit sl.1).2, sl.2 ++ [(q, limit)])).

(** The keywords a search acts on: the strings that are not empty. *)
Definition usable_keywords (keywords : list pyval) : list string :=
  omap (λ k, match k with
             | PyStr kw => if str_truthy kw then Some kw else None
             | _ => None
             end) keywords.

(** What the loop of [get_featured_playlists] adds for one item. *)
Definition featured_record (p : pyval) : option pyval :=
  match SpotifyClient._is_valid_playlist p with
  | Ok true => SpotifyClient._extract_playlist_info p
  | _ => None
  end.

(** An item on which the validation raises: it counts as true and has no
    [get]. *)
Definition malformed (p : pyval) : Prop :=
  truthy p = true ∧ is_dict p = false.

(* ===================================================================== *)
(** ** Sample data *)
(* ===================================================================== *)

(** Concrete inputs on which the theorems below are exercised. *)

(** A frame with one face in which the smile classifier finds one box. *)
Definition smiling_frame : MoodDetector.observation :=
  {| MoodDetector.gray_ok := true;
     MoodDetector.face_rects :=
       Ok [ {| MoodDetector.face_box := (10, 10, 80, 80);
               MoodDetector.smile_rects := Ok [(20, 50, 30, 10)];
               MoodDetector.eye_rects := Ok [] |} ] |}.

Definition all_cascades : MoodDetector.cascades :=
  {| MoodDetector.face_cascade := true;
     MoodDetector.smile_cascade := true;
     MoodDetector.eye_cascade := true |}.

Definition rotation_init (t0 : Q) : MoodDetector.rotation :=
  {| MoodDetector.current_emotion_index := 0;
     MoodDetector.last_emotion_time := t0 |}.

(** A search result with every field in place and an empty owner object. *)
Definition ownerless_playlist : pyval :=
  PyDict (<["name" := PyStr "Rainy Day"]>
         (<["external_urls" :=
              PyDict (<["spotify" :=
                          PyStr "https://open.spotify.com/playlist/1"]> ∅)]>
         (<["tracks" := PyDict (<["total" := PyInt 25]> ∅)]>
         (<["owner" := PyDict ∅]> ∅)))).

(** The same with an owner. *)
Definition owned_playlist : pyval :=
  PyDict (<["name" := PyStr "Rainy Day"]>
         (<["external_urls" :=
              PyDict (<["spotify" :=
                          PyStr "https://open.spotify.com/playlist/1"]> ∅)]>
         (<["tracks" := PyDict (<["total" := PyInt 25]> ∅)]>
         (<["owner" := PyDict (<["id" := PyStr "ana"]> ∅)]> ∅)))).

(** A candidate as the projection builds it. *)
Definition sample_candidate (name url : string) (tracks : Z) : pyval :=
  SpotifyClient.playlist_info (PyStr name) (PyStr url)
    (PyStr "No description available") (PyInt tracks) (PyStr "ana")
    (PyStr "").

(** Two candidates under one URL and a third under another. *)
Definition duplicated_candidates : list pyval :=
  [ sample_candidate "Morning" "https://open.spotify.com/playlist/a" 12;
    sample_candidate "Evening" "https://open.spotify.com/playlist/a" 40;
    sample_candidate "Night" "https://open.spotify.com/playlist/b" 7 ].

(** Candidates with track counts 5, 8 and 3. *)
Definition short_candidates : list pyval :=
  [ sample_candidate "Five" "https://open.spotify.com/playlist/5" 5;
    sample_candidate "Eight" "https://open.spotify.com/playlist/8" 8;
    sample_candidate "Three" "https://open.spotify.com/playlist/3" 3 ].

(** A catalog that finds nothing and keeps the log of the queries it was
    asked. *)
Definition empty_response : pyval :=
  PyDict (<["playlists" := PyDict (<["items" := PyList []]> ∅)]> ∅).

Definition silent_catalog : @SpotifyClient.catalog (list string) :=
  fun q _ log => (Ok empty_response, log ++ [q]).

(** A catalog whose one playlist carries a number where the URL belongs. *)
Definition numeric_url_item : pyval :=
  PyDict (<["name" := PyStr "Odd"]>
         (<["external_urls" := PyDict (<["spotify" := PyInt 7]> ∅)]>
         (<["tracks" := PyDict (<["total" := PyInt 12]> ∅)]>
         (<["owner" := PyDict (<["id" := PyStr "ana"]> ∅)]> ∅)))).

Definition numeric_url_catalog : @SpotifyClient.catalog unit :=
  fun _ _ s =>
    (Ok (PyDict (<["playlists" :=
                     PyDict (<["items" := PyList [numeric_url_item]]> ∅)]> ∅)),
     s).

(** A catalog that answers every query with the same two playlists, one of
    them accepted. *)
Definition fixed_catalog : @SpotifyClient.catalog unit :=
  fun _ _ s =>
    (Ok (PyDict (<["playlists" :=
                     PyDict (<["items" :=
                                 PyList [owned_playlist;
                                         ownerless_playlist]]> ∅)]> ∅)),
     s).

(** Browsers: one that opens, one whose call raises, and one that finds
    nothing to launch and reports it. *)
Definition willing_browser : SpotifyClient.browser := fun _ => Ok true.

Definition idle_browser : SpotifyClient.browser := fun _ => Ok false.

Definition broken_browser : SpotifyClient.browser :=
  fun _ => Raise ExternalError.

(** A frame on which the eye classifier fails inside the one face found. *)
Definition failing_eye_frame : MoodDetector.observation :=
  {| MoodDetector.gray_ok := true;
     MoodDetector.face_rects :=
       Ok [ {| MoodDetector.face_box := (10, 10, 80, 80);
               MoodDetector.smile_rects := Ok [(20, 50, 30, 10)];
               MoodDetector.eye_rects := Raise ExternalError |} ] |}.

(** A camera that hands over the smiling frame. *)
Definition smiling_camera : MoodDetector.capture :=
  {| MoodDetector.cap_opened := true;
     MoodDetector.cap_read := Ok (true, smiling_frame) |}.

(** Two attempts with 'happy', then a third with the quit key pressed. *)
Definition happy_then_quit : list Main.tick :=
  [ {| Main.detected_mood := Some "happy"; Main.key := -1 |};
    {| Main.detected_mood := Some "happy"; Main.key := -1 |};
    {| Main.detected_mood := Some "happy"; Main.key := 113 |} ].

(** An accepted search result whose description is a number. *)
Definition numbered_description : pyval :=
  PyDict (<["name" := PyStr "Rainy Day"]>
         (<["description" := PyInt 7]>
         (<["external_urls" :=
              PyDict (<["spotify" :=
                          PyStr "https://open.spotify.com/playlist/1"]> ∅)]>
         (<["tracks" := PyDict (<["total" := PyInt 25]> ∅)]>
         (<["owner" := PyDict (<["id" := PyStr "ana"]> ∅)]> ∅))))).

(** Credentials with an empty secret, and a camera that opens. *)
Definition empty_secret : SpotifyClient.credentials :=
  {| SpotifyClient.client_id := "abc";
     SpotifyClient.client_secret := "";
     SpotifyClient.redirect_uri := "http://127.0.0.1:8080/callback" |}.

(** A featured answer with an accepted playlist followed by a string where
    a playlist belongs. *)
Definition featured_with_stray : @SpotifyClient.featured_catalog unit :=
  fun _ s =>
    (Ok (PyDict (<["playlists" :=
                     PyDict (<["items" :=
                                 PyList [owned_playlist;
                                         PyStr "stray"]]> ∅)]> ∅)),
     s).

(** Four calls on a camera that hands over the smiling frame, and a
    detector that has seen no frame yet. *)
Definition four_captures : list (MoodDetector.capture * Q) :=
  replicate 4 (smiling_camera, 1%Q).

Definition fresh_detector : MoodDetector.detector :=
  {| MoodDetector.frame_count := 0; MoodDetector.rot := rotation_init 0 |}.

(** Doubles as sign, mantissa and exponent, and the rational a finite
    one denotes. *)
Definition double_value (f : spec_float) : option Q :=
  match f with
  | S754_zero _ => Some 0%Q
  | S754_finite sign m e =>
      Some ((if sign then - inject_Z (Z.pos m) else inject_Z (Z.pos m))
            * 2 ^ e)%Q
  | _ => None
  end.

(** [float_sub] and the library's [SFsub] in the double format agree on a
    pair of doubles. *)
Definition agrees_with_ieee (a b : spec_float) : bool :=
  match double_value a, double_value b,
        double_value (SFsub 53 1024 a b) with
  | Some x, Some y, Some d => Qeq_bool (float_sub x y) d
  | _, _, _ => false
  end.

(** 0.3 and 10.3 *)
Definition double_0_3 : spec_float :=
  S754_finite false 5404319552844595 (-54).

Definition double_10_3 : spec_float :=
  S754_finite false 5798384520239514 (-49).

Definition reading_0_3 : Q := 5404319552844595 # 18014398509481984.

Definition reading_10_3 : Q := 5798384520239514 # 562949953421312.

(** Pairs of doubles: 0.3 and 10.3; 1700000000.123456 with
    1700000010.123456 and 1700000010.123457; a reading and a small number;
    two subnormal numbers; two large numbers far apart. *)
Definition sample_doubles : list (spec_float * spec_float) :=
  [(double_10_3, double_0_3);
   (double_0_3, double_10_3);
   (double_10_3, double_10_3);
   (S754_finite false 7130316842460852 (-22),
    S754_finite false 7130316800517812 (-22));
   (S754_finite false 7130316842460856 (-22),
    S754_finite false 7130316800517812 (-22));
   (S754_finite false 7130316800517812 (-22), double_0_3);
   (double_0_3, S754_finite true 7130316800517812 (-22));
   (S754_finite false 3 (-1074), S754_finite false 1 (-1074));
   (S754_finite false 4503599627370497 (-1074), S754_finite false 3 (-1074));
   (S754_finite false 9007199254740991 900,
    S754_finite false 4503599627370497 848)].

(** A description of [n] musical notes, a character of three bytes. *)
Fixpoint notes (n : nat) : string :=
  match n with
  | O => EmptyString
  | S m => "♪" +:+ notes m
  end.

(* ===================================================================== *)
(** * Properties *)
(* ===================================================================== *)

(** ** The detector *)

Section DetectorFacts.

Import MoodDetector.

Lemma count_in_faces_nil c acc : count_in_faces c [] acc = Ok acc.
Proof. reflexivity. Qed.

(** The smile and eye totals are sums over the face boxes: a frame without
    a face has neither. *)
Lemma features_without_face c o :
  faces (detect_faces_and_features c o) = 0 →
  smiles (detect_faces_and_features c o) = 0
  ∧ eyes (detect_faces_and_features c o) = 0.
Proof.
  unfold detect_faces_and_features.
  destruct (face_cascade c); simpl; [ | done].
  destruct (gray_ok o); simpl; [ | done].
  destruct (face_rects o) as [hits | e]; simpl; [ | done].
  destruct hits as [ | h hits].
  - by rewrite count_in_faces_nil.
  - destruct (count_in_faces c (h :: hits) (0, 0)) as [[s e] | ?];
      simpl; [ | done].
    intros Hlen. lia.
Qed.

Lemma features_faces_nonneg c o : 0 <= faces (detect_faces_and_features c o).
Proof.
  unfold detect_faces_and_features.
  repeat (case_match; simpl; try lia).
Qed.

Lemma features_face_present c o :
  smiles (detect_faces_and_features c o) ≠ 0
  ∨ eyes (detect_faces_and_features c o) ≠ 0 →
  faces (detect_faces_and_features c o) > 0.
Proof.
  intros Hne.
  pose proof (features_faces_nonneg c o) as Hge.
  destruct (decide (faces (detect_faces_and_features c o) = 0)) as [H0 | H0];
    [ | lia].
  destruct (features_without_face c o H0) as [Hs He].
  destruct Hne; congruence.
Qed.

(** The guard of [simple_emotion_logic] is what makes the counts' origin
    matter: on a dictionary that claims a smile without a face, which the
    detector never builds, it answers [None]. *)
Example simple_emotion_logic_faceless_smile :
  simple_emotion_logic {| faces := 0; smiles := 1; eyes := 0 |} = None.
Proof. reflexivity. Qed.

Lemma detect_with_face c o st now e :
  faces (detect_faces_and_features c o) > 0 →
  simple_emotion_logic (detect_faces_and_features c o) = Some e →
  str_truthy e = true →
  detect_mood_from_frame c o st now = (Some e, st).
Proof.
  intros Hf He Ht. unfold detect_mood_from_frame.
  replace (faces (detect_faces_and_features c o) >? 0) with true
    by (symmetry; apply Z.gtb_lt; lia).
  by rewrite He, Ht.
Qed.

Lemma detect_without_face c o st now :
  faces (detect_faces_and_features c o) = 0 →
  detect_mood_from_frame c o st now =
    (match (demo_emotion_rotation st now).1 with
     | Ok e => Some e
     | Raise _ => None
     end, (demo_emotion_rotation st now).2).
Proof.
  intros Hf. unfold detect_mood_from_frame. rewrite Hf.
  change (0 >? 0) with false. cbv iota.
  by destruct (demo_emotion_rotation st now) as [[e | x] st'].
Qed.

(** C1.  For the counts the detector produces on any frame: a smile gives
    "happy"; no smile and at least two eyes give "neutral"; no smile, fewer
    than two eyes and a face give "sad"; and no face gives no direct label,
    the value of the demo rotation being returned instead. *)
Theorem mood_inference_rules (c : cascades) (o : observation)
    (st : rotation) (now : Q) :
  let f := detect_faces_and_features c o in
  (smiles f > 0 →
     simple_emotion_logic f = Some "happy"
     ∧ detect_mood_from_frame c o st now = (Some "happy", st))
  ∧ (smiles f = 0 → eyes f >= 2 →
     simple_emotion_logic f = Some "neutral"
     ∧ detect_mood_from_frame c o st now = (Some "neutral", st))
  ∧ (smiles f = 0 → eyes f < 2 → faces f > 0 →
     simple_emotion_logic f = Some "sad"
     ∧ detect_mood_from_frame c o st now = (Some "sad", st))
  ∧ (faces f = 0 →
     simple_emotion_logic f = None
     ∧ detect_mood_from_frame c o st now =
         (match (demo_emotion_rotation st now).1 with
          | Ok e => Some e
          | Raise _ => None
          end, (demo_emotion_rotation st now).2)).
Proof.
  intros f. subst f.
  set (f := detect_faces_and_features c o).
  assert (Hlogic : ∀ e, faces f > 0 → simple_emotion_logic f = Some e →
            str_truthy e = true →
            simple_emotion_logic f = Some e
            ∧ detect_mood_from_frame c o st now = (Some e, st)).
  { intros e Hf He Ht. split; [done | ]. by apply detect_with_face. }
  split; [ | split; [ | split]].
  - intros Hs.
    assert (Hf : faces f > 0)
      by (apply features_face_present; left; fold f; lia).
    apply Hlogic; [done | | done].
    unfold simple_emotion_logic.
    destruct (Z.eqb_spec (faces f) 0); [lia | ].
    destruct (Z.gtb_spec (smiles f) 0); [done | lia].
  - intros Hs He.
    assert (Hf : faces f > 0)
      by (apply features_face_present; right; fold f; lia).
    apply Hlogic; [done | | done].
    unfold simple_emotion_logic.
    destruct (Z.eqb_spec (faces f) 0); [lia | ].
    destruct (Z.gtb_spec (smiles f) 0); [lia | ].
    destruct (Z.geb_spec (eyes f) 2); [done | lia].
  - intros Hs He Hf.
    apply Hlogic; [done | | done].
    unfold simple_emotion_logic.
    destruct (Z.eqb_spec (faces f) 0); [lia | ].
    destruct (Z.gtb_spec (smiles f) 0); [lia | ].
    destruct (Z.geb_spec (eyes f) 2); [lia | done].
  - intros Hf. split.
    + unfold simple_emotion_logic. by rewrite Hf.
    + by apply detect_without_face.
Qed.

End DetectorFacts.

Lemma mood_inference_rules_witness :
  MoodDetector.smiles
    (MoodDetector.detect_faces_and_features all_cascades smiling_frame) > 0
  ∧ MoodDetector.detect_mood_from_frame all_cascades smiling_frame
      (rotation_init 0) 3 = (Some "happy", rotation_init 0).
Proof.
  split; [reflexivity | ].
  apply (proj1 (mood_inference_rules all_cascades smiling_frame
                  (rotation_init 0) 3)).
  reflexivity.
Defined.

(** ** Double-precision subtraction *)

Section FloatFacts.

Lemma rne_floor (t : Q) : Qfloor t <= rne t <= Qfloor t + 1.
Proof.
  unfold rne. destruct (t - inject_Z (Qfloor t) ?= 1 # 2)%Q; [ | lia | lia].
  destruct (Z.even (Qfloor t)); lia.
Qed.

Lemma rne_int_ge (t : Q) (n : Z) : (inject_Z n <= t)%Q → n <= rne t.
Proof.
  intros Hn. pose proof (rne_floor t) as Hf.
  apply Qfloor_resp_le in Hn. rewrite Qfloor_Z in Hn. lia.
Qed.

Lemma rne_int_le (t : Q) (n : Z) : (t <= inject_Z n)%Q → rne t <= n.
Proof.
  intros Hn. pose proof (rne_floor t) as Hf.
  pose proof (Qfloor_resp_le _ _ Hn) as Hfl. rewrite Qfloor_Z in Hfl.
  destruct (Z.eq_dec (Qfloor t) n) as [Heq | Hne]; [ | lia].
  unfold rne. rewrite Heq.
  assert (t - inject_Z n < 1 # 2)%Q as Hlt.
  { pose proof (Qfloor_le t) as Hle. rewrite Heq in Hle. lra. }
  destruct (Qcompare_spec (t - inject_Z n) (1 # 2)); [lra | lia | lra].
Qed.

Lemma rne_half_gt (t : Q) (n : Z) :
  (inject_Z n + (1 # 2) < t)%Q → n + 1 <= rne t.
Proof.
  intros Hn. pose proof (rne_floor t) as Hf.
  assert (n <= Qfloor t) as Hfl.
  { assert (inject_Z n <= t)%Q as Hle by lra.
    apply Qfloor_resp_le in Hle. by rewrite Qfloor_Z in Hle. }
  destruct (Z.eq_dec (Qfloor t) n) as [Heq | Hne]; [ | lia].
  unfold rne. rewrite Heq.
  destruct (Qcompare_spec (t - inject_Z n) (1 # 2)); [lra | lra | lia].
Qed.

Lemma rne_half_le (t : Q) (n : Z) :
  Z.even n = true → (t <= inject_Z n + (1 # 2))%Q → rne t <= n.
Proof.
  intros Hev Hn. pose proof (rne_floor t) as Hf.
  assert (Qfloor t <= n) as Hfl.
  { destruct (Z_lt_le_dec n (Qfloor t)) as [Hlt | Hle]; [ | done].
    exfalso. pose proof (Qfloor_le t) as Hle.
    assert (inject_Z (n + 1) <= inject_Z (Qfloor t))%Q as Hz
      by (rewrite <- Zle_Qle; lia).
    rewrite inject_Z_plus in Hz. change (inject_Z 1) with 1%Q in Hz. lra. }
  destruct (Z.eq_dec (Qfloor t) n) as [Heq | Hne]; [ | lia].
  unfold rne. rewrite Heq, Hev.
  destruct (Qcompare_spec (t - inject_Z n) (1 # 2)); [lia | lia | lra].
Qed.

Lemma pow2_pos (k : Z) : (0 < 2 ^ k)%Q.
Proof. by apply Qpower_0_lt. Qed.

Lemma pow2_plus (n m : Z) : (2 ^ (n + m) == 2 ^ n * 2 ^ m)%Q.
Proof. by apply Qpower_plus. Qed.

Lemma pow2_mono (n m : Z) : n <= m → (2 ^ n <= 2 ^ m)%Q.
Proof. intros Hnm. apply Qpower_le_compat_l; [done | lra]. Qed.

Lemma pow2_inject (n : Z) : 0 <= n → (2 ^ n == inject_Z (2 ^ n))%Q.
Proof. intros Hn. by rewrite Zpower_Qpower. Qed.

Lemma pow2_minus (a b : Z) :
  0 <= a → 0 <= b → (2 ^ (a - b) == inject_Z (2 ^ a) / inject_Z (2 ^ b))%Q.
Proof.
  intros Ha Hb. rewrite Qpower_minus by done.
  by rewrite !Zpower_Qpower.
Qed.

Lemma div_lt_cross (n d p l : Z) :
  0 < d → 0 < l → n * l < p * d →
  (inject_Z n / inject_Z d < inject_Z p / inject_Z l)%Q.
Proof.
  intros Hd Hl Hc.
  assert (0 < inject_Z d)%Q as Hd' by (by rewrite (Zlt_Qlt 0 d) in Hd).
  assert (0 < inject_Z l)%Q as Hl' by (by rewrite (Zlt_Qlt 0 l) in Hl).
  apply Qlt_shift_div_l; [done | ].
  assert (inject_Z n / inject_Z d * inject_Z l
          == inject_Z n * inject_Z l / inject_Z d)%Q as -> by (field; lra).
  apply Qlt_shift_div_r; [done | ].
  rewrite <- !inject_Z_mult. by rewrite <- Zlt_Qlt.
Qed.

Lemma div_le_cross (n d p l : Z) :
  0 < d → 0 < l → n * l <= p * d →
  (inject_Z n / inject_Z d <= inject_Z p / inject_Z l)%Q.
Proof.
  intros Hd Hl Hc.
  assert (0 < inject_Z d)%Q as Hd' by (by rewrite (Zlt_Qlt 0 d) in Hd).
  assert (0 < inject_Z l)%Q as Hl' by (by rewrite (Zlt_Qlt 0 l) in Hl).
  apply Qle_shift_div_l; [done | ].
  assert (inject_Z n / inject_Z d * inject_Z l
          == inject_Z n * inject_Z l / inject_Z d)%Q as -> by (field; lra).
  apply Qle_shift_div_r; [done | ].
  rewrite <- !inject_Z_mult. by rewrite <- Zle_Qle.
Qed.

(** [binade x] is the exponent of the power of two at or below [x]. *)
Lemma binade_spec (x : Q) :
  (0 < x)%Q → (2 ^ binade x <= x)%Q ∧ (x < 2 ^ (binade x + 1))%Q.
Proof.
  intros Hx. destruct x as [n d].
  assert (0 < n) as Hn.
  { unfold Qlt in Hx. simpl in Hx. lia. }
  pose proof (Z.log2_spec n Hn) as [Hn1 Hn2].
  pose proof (Z.log2_spec (Z.pos d) (Pos2Z.is_pos d)) as [Hd1 Hd2].
  pose proof (Z.log2_nonneg n) as Ha.
  pose proof (Z.log2_nonneg (Z.pos d)) as Hb.
  set (a := Z.log2 n) in *. set (b := Z.log2 (Z.pos d)) in *.
  assert (0 < 2 ^ a) as Hpa by (apply Z.pow_pos_nonneg; lia).
  assert (0 < 2 ^ b) as Hpb by (apply Z.pow_pos_nonneg; lia).
  assert (0 < 2 ^ Z.succ a) as Hpa' by (apply Z.pow_pos_nonneg; lia).
  assert (0 < 2 ^ Z.succ b) as Hpb' by (apply Z.pow_pos_nonneg; lia).
  assert (n # d == inject_Z n / inject_Z (Z.pos d))%Q as Hnd
    by apply Qmake_Qdiv.
  assert (n # d < 2 ^ (a - b + 1))%Q as Hup.
  { replace (a - b + 1) with (Z.succ a - b) by lia.
    rewrite pow2_minus by lia. rewrite Hnd.
    apply div_lt_cross; [lia | lia | nia]. }
  assert (2 ^ (a - b - 1) <= n # d)%Q as Hlow.
  { replace (a - b - 1) with (a - Z.succ b) by lia.
    rewrite pow2_minus by lia. rewrite Hnd.
    apply div_le_cross; [lia | lia | nia]. }
  unfold binade. simpl Qnum. simpl Qden. fold a b.
  destruct (Qle_bool (2 ^ (a - b)) (n # d)) eqn:Ht.
  - apply Qle_bool_iff in Ht. done.
  - split; [done | ].
    replace (a - b - 1 + 1) with (a - b) by lia.
    apply Qnot_le_lt. intros Hle. apply Qle_bool_iff in Hle. congruence.
Qed.

Lemma Qabs_of_pos (x : Q) : (0 < x)%Q → Qabs x = x.
Proof.
  destruct x as [n d]. unfold Qlt, Qabs. simpl. intros Hn.
  f_equal. lia.
Qed.

Lemma round64_nonpos (x : Q) : (x <= 0)%Q → (round64 x <= 0)%Q.
Proof.
  intros Hx. unfold round64. destruct (Qeq_bool x 0); [lra | ].
  set (k := Z.max (binade (Qabs x)) (-1022) - 52).
  pose proof (pow2_pos k) as Hp.
  assert (rne (x / 2 ^ k) <= 0) as Hr.
  { apply rne_int_le. apply Qle_shift_div_r; [done | ].
    change (inject_Z 0) with 0%Q. lra. }
  rewrite Zle_Qle in Hr. change (inject_Z 0) with 0%Q in Hr.
  assert (inject_Z (rne (x / 2 ^ k)) * 2 ^ k <= 0 * 2 ^ k)%Q as Hle
    by (apply Qmult_le_compat_r; [done | lra]).
  lra.
Qed.

(** In the binade of 10 the doubles are [2 ^ -49] apart and 10 is an even
    multiple: a difference becomes more than 10 exactly when it is more
    than half a step above 10. *)
Lemma round64_over_ten (x : Q) :
  (10 < round64 x ↔ 10 + (1 # 1125899906842624) < x)%Q.
Proof.
  destruct (Qlt_le_dec 0 x) as [Hpos | Hneg].
  2: { pose proof (round64_nonpos x Hneg). split; intros; lra. }
  unfold round64.
  destruct (Qeq_bool x 0) eqn:H0.
  { apply Qeq_bool_iff in H0. lra. }
  rewrite (Qabs_of_pos x Hpos).
  destruct (binade_spec x Hpos) as [Hlo Hhi].
  set (e := binade x) in *.
  set (k := Z.max e (-1022) - 52).
  pose proof (pow2_pos k) as Hp.
  destruct (Z_lt_le_dec e 3) as [He | He].
  - (* below 8 *)
    assert (x < 8)%Q as Hx8.
    { eapply Qlt_le_trans; [exact Hhi | ].
      change 8%Q with (2 ^ 3)%Q. apply pow2_mono. lia. }
    assert (8 == inject_Z (2 ^ (3 - k)) * 2 ^ k)%Q as H8.
    { rewrite <- pow2_inject by lia. rewrite <- pow2_plus.
      replace (3 - k + k) with 3 by lia. reflexivity. }
    assert (rne (x / 2 ^ k) <= 2 ^ (3 - k)) as Hr.
    { apply rne_int_le. apply Qle_shift_div_r; [done | ]. lra. }
    rewrite Zle_Qle in Hr.
    assert (inject_Z (rne (x / 2 ^ k)) * 2 ^ k <= 8)%Q as Hle.
    { rewrite H8. apply Qmult_le_compat_r; [done | lra]. }
    split; intros; lra.
  - destruct (Z.eq_dec e 3) as [He3 | Hne].
    + (* the binade of 10 *)
      assert (k = -49) as -> by lia.
      change (2 ^ (-49))%Q with (1 # 562949953421312)%Q.
      assert (x / (1 # 562949953421312) == x * 562949953421312)%Q as Ht
        by (field; done).
      split.
      * intros Hlt.
        apply Qnot_le_lt. intros Hle.
        assert (rne (x / (1 # 562949953421312)) <= 5629499534213120) as Hr.
        { apply rne_half_le; [done | ]. rewrite Ht.
          change (inject_Z 5629499534213120) with 5629499534213120%Q. lra. }
        rewrite Zle_Qle in Hr.
        change (inject_Z 5629499534213120) with 5629499534213120%Q in Hr.
        lra.
      * intros Hlt.
        assert (5629499534213120 + 1 <= rne (x / (1 # 562949953421312)))
          as Hr.
        { apply rne_half_gt. rewrite Ht.
          change (inject_Z 5629499534213120) with 5629499534213120%Q. lra. }
        rewrite Zle_Qle in Hr.
        change (inject_Z (5629499534213120 + 1))
          with 5629499534213121%Q in Hr.
        lra.
    + (* 16 and above *)
      assert (16 <= 2 ^ e)%Q as H16.
      { change 16%Q with (2 ^ 4)%Q. apply pow2_mono. lia. }
      assert (2 ^ e == inject_Z (2 ^ 52) * 2 ^ k)%Q as He'.
      { rewrite <- pow2_inject by lia. rewrite <- pow2_plus.
        replace (52 + k) with e by lia. reflexivity. }
      assert (2 ^ 52 <= rne (x / 2 ^ k)) as Hr.
      { apply rne_int_ge. apply Qle_shift_div_l; [done | ]. lra. }
      rewrite Zle_Qle in Hr.
      assert (2 ^ e <= inject_Z (rne (x / 2 ^ k)) * 2 ^ k)%Q as Hge.
      { rewrite He'. apply Qmult_le_compat_r; [done | lra]. }
      split; intros; lra.
Qed.

Lemma float_sub_same (a : Q) : float_sub a a = 0%Q.
Proof.
  unfold float_sub, round64.
  assert (Qeq_bool (a - a) 0 = true) as ->; [ | done].
  apply Qeq_bool_iff. ring.
Qed.

End FloatFacts.

(** ** The demo rotation *)

Section RotationFacts.

Import MoodDetector.

Lemma elapsed_over_true now last :
  elapsed_over now last = true ↔ (10 < float_sub now last)%Q.
Proof.
  unfold elapsed_over, emotion_duration. rewrite negb_true_iff.
  split.
  - intros Hb. apply Qnot_le_lt. intros Hle.
    apply Qle_bool_iff in Hle. congruence.
  - intros Hlt. destruct (Qle_bool (float_sub now last) 10) eqn:Hb; [ | done].
    apply Qle_bool_iff in Hb. exfalso. by apply (Qlt_not_le _ _ Hlt).
Qed.

(** The rotation never advances early: an advance means that more than ten
    seconds lie between the two readings. *)
Lemma elapsed_over_exact now last :
  elapsed_over now last = true → (10 < now - last)%Q.
Proof.
  intros He. apply elapsed_over_true in He.
  unfold float_sub in He. apply round64_over_ten in He. lra.
Qed.

Lemma elapsed_over_same now : elapsed_over now now = false.
Proof.
  unfold elapsed_over. by rewrite float_sub_same.
Qed.

Lemma index_emotions i :
  0 <= i < 5 →
  ∃ l, index emotions i = Ok l ∧ emotions !! Z.to_nat i = Some l.
Proof.
  intros Hi.
  assert (i = 0 ∨ i = 1 ∨ i = 2 ∨ i = 3 ∨ i = 4) as Hcases by lia.
  destruct Hcases as [-> | [-> | [-> | [-> | ->]]]];
    eexists; split; reflexivity.
Qed.

(** C7.  With the index inside the five-label list, the rotation advances
    the index by one modulo five and stamps the current time exactly when
    more than ten seconds have elapsed since the last advance, leaves the
    state alone otherwise, and in both cases returns the label at the index
    the state then holds.  The seconds elapsed are the difference of the two
    clock readings as the interpreter computes it, in double precision: it
    is more than 10 exactly when the exact difference is more than 10 by
    more than [2 ^ -50], hence exactly when the exact difference is more
    than 10 whenever the subtraction is exact. *)
Theorem demo_rotation_step (st : rotation) (now : Q) :
  0 <= current_emotion_index st < 5 →
  let elapsed := float_sub now (last_emotion_time st) in
  ((10 < elapsed)%Q →
     (demo_emotion_rotation st now).2 =
       {| current_emotion_index := (current_emotion_index st + 1) mod 5;
          last_emotion_time := now |})
  ∧ (¬ (10 < elapsed)%Q →
     (demo_emotion_rotation st now).2 = st)
  ∧ ((10 < elapsed)%Q
     ↔ (10 + (1 # 1125899906842624) < now - last_emotion_time st)%Q)
  ∧ ((elapsed == now - last_emotion_time st)%Q →
     ((10 < elapsed)%Q ↔ (10 < now - last_emotion_time st)%Q))
  ∧ (∃ l, (demo_emotion_rotation st now).1 = Ok l
          ∧ emotions !! Z.to_nat
              (current_emotion_index (demo_emotion_rotation st now).2)
            = Some l)
  ∧ emotions = ["happy"; "sad"; "neutral"; "angry"; "surprise"].
Proof.
  intros Hi elapsed. subst elapsed.
  assert ((10 < float_sub now (last_emotion_time st))%Q
          ↔ (10 + (1 # 1125899906842624) < now - last_emotion_time st)%Q)
    as Hwindow by apply round64_over_ten.
  assert ((float_sub now (last_emotion_time st)
           == now - last_emotion_time st)%Q →
          ((10 < float_sub now (last_emotion_time st))%Q
           ↔ (10 < now - last_emotion_time st)%Q)) as Hexact.
  { intros Heq. by rewrite Heq. }
  unfold demo_emotion_rotation.
  destruct (elapsed_over now (last_emotion_time st)) eqn:He; simpl.
  - apply elapsed_over_true in He.
    split_and!; [done | done | done | done | | done].
    apply index_emotions.
    change (Z.of_nat (length emotions)) with 5.
    apply Z.mod_pos_bound. lia.
  - assert (¬ (10 < float_sub now (last_emotion_time st))%Q) as Hn.
    { intros Hlt. apply elapsed_over_true in Hlt. congruence. }
    split_and!; [done | done | done | done | | done].
    by apply index_emotions.
Qed.

End RotationFacts.

Lemma demo_rotation_step_witness :
  (10 < float_sub 25 12)%Q
  ∧ (float_sub 25 12 == 25 - 12)%Q
  ∧ (MoodDetector.demo_emotion_rotation
       {| MoodDetector.current_emotion_index := 4;
          MoodDetector.last_emotion_time := 12 |} 25).2 =
      {| MoodDetector.current_emotion_index := 0;
         MoodDetector.last_emotion_time := 25 |}.
Proof.
  assert (10 < float_sub 25 12)%Q as Hlt by (vm_compute; reflexivity).
  split; [exact Hlt | ]. split; [by vm_compute | ].
  exact (proj1 (demo_rotation_step
                  {| MoodDetector.current_emotion_index := 4;
                     MoodDetector.last_emotion_time := 12 |} 25
                  ltac:(simpl; lia)) Hlt).
Defined.

(** The readings 0.3 and 10.3, as the doubles they are: more than ten
    seconds lie between them, their computed difference is 10, and the
    rotation stays where it is. *)
Example rotation_within_rounding :
  (10 < reading_10_3 - reading_0_3)%Q
  ∧ (float_sub reading_10_3 reading_0_3 == 10)%Q
  ∧ (MoodDetector.demo_emotion_rotation (rotation_init reading_0_3)
       reading_10_3).2 = rotation_init reading_0_3.
Proof.
  split; [reflexivity | ]. split; [ | ]; by vm_compute.
Qed.

(** [float_sub] against the library's specification of IEEE 754
    subtraction in the double format, on readings of the size of a
    wall-clock time and on small ones. *)
Example float_sub_meets_ieee :
  Forall (λ ab, agrees_with_ieee ab.1 ab.2 = true) sample_doubles.
Proof.
  repeat constructor; by vm_compute.
Qed.

(** ** The keyword table *)

Section KeywordFacts.

Import Main.

Lemma neutral_keywords :
  subscript Config.MOOD_MAPPING "neutral" =
    Ok ["chill"; "lofi"; "background"; "study"; "focus"].
Proof. reflexivity. Qed.

Lemma mood_mapping_nonempty :
  map_Forall (λ _ kws, kws ≠ []) Config.MOOD_MAPPING.
Proof.
  unfold Config.MOOD_MAPPING.
  repeat (apply map_Forall_insert_2; [done | ]).
  apply map_Forall_empty.
Qed.

(** C9.  [get_mood_keywords] answers for every string: a label of the
    mapping gets its own keyword list, any other string gets the list of
    'neutral', and the answer is never a failure nor an empty list. *)
Theorem get_mood_keywords_total (m : string) :
  (∀ kws, Config.MOOD_MAPPING !! m = Some kws →
     get_mood_keywords m = Ok kws)
  ∧ (Config.MOOD_MAPPING !! m = None →
     get_mood_keywords m =
       Ok ["chill"; "lofi"; "background"; "study"; "focus"])
  ∧ (∃ kws, get_mood_keywords m = Ok kws ∧ kws ≠ []).
Proof.
  unfold get_mood_keywords. rewrite neutral_keywords. simpl.
  split; [ | split].
  - intros kws Hm. by rewrite Hm.
  - intros Hm. by rewrite Hm.
  - destruct (Config.MOOD_MAPPING !! m) as [kws | ] eqn:Hm; simpl.
    + exists kws. split; [done | ].
      by apply (mood_mapping_nonempty m kws).
    + eexists. split; [done | done].
Qed.

End KeywordFacts.

Lemma get_mood_keywords_total_witness :
  Config.MOOD_MAPPING !! "disgust"
    = Some ["alternative"; "indie"; "experimental"; "underground"]
  ∧ Main.get_mood_keywords "disgust"
    = Ok ["alternative"; "indie"; "experimental"; "underground"].
Proof.
  split; [reflexivity | ].
  apply (proj1 (get_mood_keywords_total "disgust")).
  reflexivity.
Defined.

(** ** The stability gate *)

Section GateFacts.

Import Main.

Lemma str_truthy_true s : str_truthy s = true ↔ s ≠ "".
Proof.
  unfold str_truthy. rewrite negb_true_iff.
  destruct (String.eqb_spec s ""); split; congruence.
Qed.

Lemma handle_mood_none g : handle_mood g None = g.
Proof. reflexivity. Qed.

Lemma handle_mood_same g l :
  l ≠ "" → last_mood g = Some l →
  handle_mood g (Some l) =
    {| last_mood := Some l;
       mood_stability_count := mood_stability_count g + 1 |}.
Proof.
  intros Hl Hg. unfold handle_mood.
  apply str_truthy_true in Hl. rewrite Hl.
  destruct (decide (Some l = last_mood g)) as [_ | Hne]; [ | congruence].
  by rewrite Hg.
Qed.

Lemma handle_mood_other g l :
  l ≠ "" → last_mood g ≠ Some l →
  handle_mood g (Some l) =
    {| last_mood := Some l; mood_stability_count := 1 |}.
Proof.
  intros Hl Hg. unfold handle_mood.
  apply str_truthy_true in Hl. rewrite Hl.
  destruct (decide (Some l = last_mood g)) as [Heq | _]; [congruence | done].
Qed.

(** A turn that changes the counter was a turn with a label, and the gate
    then holds that label. *)
Lemma handle_mood_changed g d :
  mood_stability_count (handle_mood g d) ≠ mood_stability_count g →
  last_mood (handle_mood g d) = d ∧ ∃ l, d = Some l ∧ l ≠ "".
Proof.
  unfold handle_mood. destruct d as [l | ]; [ | done].
  destruct (str_truthy l) eqn:Hl; [ | done].
  apply str_truthy_true in Hl.
  destruct (decide (Some l = last_mood g)) as [Heq | Hne]; simpl;
    intros _; split; eauto.
Qed.

Lemma cycle_loop_done g n ticks :
  ¬ mood_stability_count g < required_stability →
  cycle_loop g n ticks = Confirmed (last_mood g) n.
Proof.
  intros Hc.
  destruct ticks; simpl;
    destruct (Z.ltb_spec (mood_stability_count g) required_stability);
    done.
Qed.

Lemma cycle_loop_turn g n t rest :
  mood_stability_count g < required_stability →
  quit_pressed t = false →
  cycle_loop g n (t :: rest) =
    cycle_loop (handle_mood g (detected_mood t)) (S n) rest.
Proof.
  intros Hc Hq. simpl.
  destruct (Z.ltb_spec (mood_stability_count g) required_stability);
    [ | lia].
  by rewrite Hq.
Qed.

Lemma cycle_loop_confirms g n t rest :
  mood_stability_count g < required_stability →
  quit_pressed t = false →
  mood_stability_count (handle_mood g (detected_mood t))
    = required_stability →
  cycle_loop g n (t :: rest) = Confirmed (detected_mood t) (S n).
Proof.
  intros Hc Hq H3.
  rewrite cycle_loop_turn by done.
  rewrite cycle_loop_done by lia.
  f_equal. apply handle_mood_changed. lia.
Qed.

(** On any sequence of attempts the loop ends at the first one that takes
    the counter to the threshold, with the label of that attempt, whatever
    follows it. *)
Lemma cycle_loop_first_reach pre l post g n :
  (∀ k, (k ≤ length pre)%nat →
        mood_stability_count (foldl handle_mood g (take k pre))
          < required_stability) →
  mood_stability_count (handle_mood (foldl handle_mood g pre) (Some l))
    = required_stability →
  cycle_loop g n (attempts_of (pre ++ Some l :: post))
    = Confirmed (Some l) (n + length pre + 1).
Proof.
  revert g n. induction pre as [ | a pre IH]; intros g n Hlow Hreach.
  - specialize (Hlow 0%nat ltac:(simpl; lia)). simpl in Hlow, Hreach.
    unfold attempts_of. rewrite app_nil_l, fmap_cons.
    rewrite cycle_loop_confirms; [ | done | done | done].
    simpl. f_equal. lia.
  - pose proof (Hlow 0%nat ltac:(simpl; lia)) as Hg. simpl in Hg.
    unfold attempts_of. rewrite <- app_comm_cons, fmap_cons.
    rewrite cycle_loop_turn; [ | done | done].
    simpl detected_mood. fold (attempts_of (pre ++ Some l :: post)).
    rewrite IH; [simpl; f_equal; lia | | done].
    intros k Hk. apply (Hlow (S k)). simpl. lia.
Qed.

Lemma attempts_never_quit labels :
  Forall (λ t, quit_pressed t = false) (attempts_of labels).
Proof.
  unfold attempts_of. apply Forall_fmap, Forall_forall.
  intros m _. reflexivity.
Qed.

(** C2.  The transition rule of the stability gate and its confirmation.
    A 'none' attempt leaves label and counter as they are; a label equal to
    the held one adds one to the counter; a different label takes its place
    with the counter at 1; and, no quit key intervening, the turn on which
    the counter reaches 3 ends the loop with the label of that turn, while a
    turn that leaves it below 3 goes on to the next; so on every sequence
    of attempts the loop ends at the first attempt that takes the counter to
    3.  The two traces of the specification confirm 'sad' at the fifth and
    'happy' at the fourth attempt, and on no shorter prefix. *)
Theorem stability_gate_rule :
  required_stability = 3
  ∧ (∀ g, handle_mood g None = g)
  ∧ (∀ g l, l ≠ "" → last_mood g = Some l →
       handle_mood g (Some l) =
         {| last_mood := Some l;
            mood_stability_count := mood_stability_count g + 1 |})
  ∧ (∀ g l, l ≠ "" → last_mood g ≠ Some l →
       handle_mood g (Some l) =
         {| last_mood := Some l; mood_stability_count := 1 |})
  ∧ (∀ g n t rest,
       mood_stability_count g < 3 → quit_pressed t = false →
       mood_stability_count (handle_mood g (detected_mood t)) = 3 →
       cycle_loop g n (t :: rest) = Confirmed (detected_mood t) (S n))
  ∧ (∀ g n t rest,
       mood_stability_count g < 3 → quit_pressed t = false →
       mood_stability_count (handle_mood g (detected_mood t)) < 3 →
       cycle_loop g n (t :: rest) =
         cycle_loop (handle_mood g (detected_mood t)) (S n) rest
       ∧ ∃ g', cycle_loop g n [t] = Running g')
  ∧ (∀ pre l post g n,
       (∀ k, (k ≤ length pre)%nat →
             mood_stability_count (foldl handle_mood g (take k pre)) < 3) →
       mood_stability_count (handle_mood (foldl handle_mood g pre) (Some l))
         = 3 →
       cycle_loop g n (attempts_of (pre ++ Some l :: post))
         = Confirmed (Some l) (n + length pre + 1))
  ∧ detect_mood_single_cycle
      (attempts_of [Some "happy"; Some "happy"; Some "sad"; Some "sad";
                    Some "sad"]) = Confirmed (Some "sad") 5
  ∧ (∀ k, (k < 5)%nat →
       ∃ g, detect_mood_single_cycle
              (attempts_of (take k [Some "happy"; Some "happy"; Some "sad";
                                    Some "sad"; Some "sad"])) = Running g)
  ∧ detect_mood_single_cycle
      (attempts_of [Some "happy"; None; Some "happy"; Some "happy"])
    = Confirmed (Some "happy") 4
  ∧ (∀ k, (k < 4)%nat →
       ∃ g, detect_mood_single_cycle
              (attempts_of (take k [Some "happy"; None; Some "happy";
                                    Some "happy"])) = Running g).
Proof.
  split; [done | ].
  split; [apply handle_mood_none | ].
  split; [apply handle_mood_same | ].
  split; [apply handle_mood_other | ].
  split; [apply cycle_loop_confirms | ].
  split.
  { intros g n t rest Hc Hq Hlt. split.
    - by apply cycle_loop_turn.
    - rewrite cycle_loop_turn by done. simpl.
      destruct (Z.ltb_spec
                  (mood_stability_count (handle_mood g (detected_mood t)))
                  required_stability) as [_ | Hge];
        [eauto | unfold required_stability in Hge; lia]. }
  split; [apply cycle_loop_first_reach | ].
  split; [reflexivity | ].
  split.
  { intros k Hk.
    do 5 (destruct k as [ | k]; [eexists; reflexivity | ]). lia. }
  split; [reflexivity | ].
  intros k Hk.
  do 4 (destruct k as [ | k]; [eexists; reflexivity | ]). lia.
Qed.

End GateFacts.

Lemma stability_gate_rule_witness :
  Main.handle_mood
    {| Main.last_mood := Some "sad"; Main.mood_stability_count := 2 |}
    (Some "sad")
  = {| Main.last_mood := Some "sad"; Main.mood_stability_count := 3 |}
  ∧ Main.cycle_loop
      {| Main.last_mood := Some "sad"; Main.mood_stability_count := 2 |} 4
      [ {| Main.detected_mood := Some "sad"; Main.key := -1 |} ]
    = Main.Confirmed (Some "sad") 5.
Proof.
  destruct stability_gate_rule as (_ & _ & Hsame & _ & Hconf & _).
  split.
  - apply (Hsame
             {| Main.last_mood := Some "sad"; Main.mood_stability_count := 2 |}
             "sad"); [discriminate | reflexivity].
  - apply (Hconf
             {| Main.last_mood := Some "sad"; Main.mood_stability_count := 2 |}
             4%nat {| Main.detected_mood := Some "sad"; Main.key := -1 |} []);
      [reflexivity | reflexivity | reflexivity].
Defined.

(** ** Validation of raw search results *)

Section ValidationFacts.

Import SpotifyClient.

#[local] Arguments truthy : simpl never.
#[local] Arguments eq_zero : simpl never.

Lemma truthy_dict (d : gmap string pyval) :
  truthy (PyDict d) = true ↔ d ≠ ∅.
Proof.
  unfold truthy. rewrite negb_true_iff, Nat.eqb_neq.
  by rewrite map_size_empty_iff.
Qed.

Lemma truthy_dict_lookup (d : gmap string pyval) k v :
  d !! k = Some v → truthy (PyDict d) = true.
Proof.
  intros Hk. apply truthy_dict. intros ->. by rewrite lookup_empty in Hk.
Qed.

Lemma valid_only_dict p :
  _is_valid_playlist p = Ok true → ∃ d, p = PyDict d.
Proof.
  unfold _is_valid_playlist.
  destruct p; try (destruct (truthy _); simpl; discriminate).
  eauto.
Qed.

Lemma accepted_valid p : accepted p → _is_valid_playlist p = Ok true.
Proof.
  intros (d & name & eu & url & tracks & total & owner & -> & Hn & Hnt
          & He & Hu & Hut & Ht & Htot & Hz & Ho & Hne).
  unfold _is_valid_playlist.
  rewrite (truthy_dict_lookup d _ _ Hn). simpl.
  rewrite Hn, He, Ht, Ho. simpl.
  rewrite Hnt, (truthy_dict_lookup eu _ _ Hu),
    (truthy_dict_lookup tracks _ _ Htot). simpl.
  rewrite (proj2 (truthy_dict owner) Hne). simpl.
  rewrite Htot, Hu. simpl. by rewrite Hz, Hut.
Qed.

Lemma valid_accepted p : _is_valid_playlist p = Ok true → accepted p.
Proof.
  intros Hv. destruct (valid_only_dict p Hv) as [d ->].
  revert Hv. unfold _is_valid_playlist.
  destruct (truthy (PyDict d)); simpl; [ | done].
  destruct (d !! "name") as [name | ] eqn:Hn; simpl; [ | done].
  destruct (truthy name) eqn:Hnt; simpl; [ | done].
  destruct (d !! "external_urls") as [eu | ] eqn:He; simpl; [ | done].
  destruct (truthy eu) eqn:Het; simpl; [ | done].
  destruct (d !! "tracks") as [tracks | ] eqn:Ht; simpl; [ | done].
  destruct (truthy tracks) eqn:Htt; simpl; [ | done].
  destruct (d !! "owner") as [owner | ] eqn:Ho; simpl; [ | done].
  destruct (truthy owner) eqn:Hot; simpl; [ | done].
  destruct tracks as [ | | | | | tracks]; simpl; try done.
  destruct (tracks !! "total") as [total | ] eqn:Htot; simpl; [ | done].
  destruct (eq_zero total) eqn:Hz; simpl; [done | ].
  destruct eu as [ | | | | | eu]; simpl; try done.
  destruct (eu !! "spotify") as [url | ] eqn:Hu; simpl; [ | done].
  destruct (truthy url) eqn:Hut; simpl; [ | done].
  destruct owner as [ | | | | | owner]; simpl; try done.
  intros _. exists d, name, eu, url, tracks, total, owner.
  apply truthy_dict in Hot. done.
Qed.

End ValidationFacts.

Section ValidationClaim.

Import SpotifyClient.

Lemma collect_items_rejected all p rest :
  _is_valid_playlist p ≠ Ok true →
  collect_items all (p :: rest) = collect_items all rest
  ∨ collect_items all (p :: rest) = all.
Proof.
  intros Hv. simpl.
  destruct (_is_valid_playlist p) as [[ | ] | e]; [done | by left | by right].
Qed.

(** The wording of the specification and the code agree on results whose
    fields have the types the catalog documents, the owner object apart. *)
Lemma valid_by_spec_accepted p :
  valid_by_spec p →
  (∀ d, p = PyDict d → d !! "owner" ≠ Some (PyDict ∅)) →
  accepted p.
Proof.
  intros (d & name & eu & url & tracks & total & owner & -> & Hn & Hnn
          & He & Hu & Hun & Ht & Htot & Hpos & Ho) Howner.
  exists d, (PyStr name), eu, (PyStr url), tracks, (PyInt total), owner.
  repeat split; try done.
  - by apply str_truthy_true.
  - by apply str_truthy_true.
  - unfold eq_zero. apply Z.eqb_neq. lia.
  - intros ->. by apply (Howner d).
Qed.

(** C3, as the code has it.  A raw search result is accepted if and only if
    it is a dictionary with a name that counts as true (for a string: not
    empty), an 'external_urls' dictionary whose 'spotify' entry counts as
    true, a 'tracks' dictionary whose 'total' is present and does not equal
    0 (for a count: total > 0), and an owner dictionary that is not empty;
    a result that fails one of these adds no record to the candidates. *)
Theorem validation_accepts_exactly (p : pyval) :
  (_is_valid_playlist p = Ok true ↔ accepted p)
  ∧ (¬ accepted p →
     ∀ all rest,
       collect_items all (p :: rest) = collect_items all rest
       ∨ collect_items all (p :: rest) = all).
Proof.
  split.
  - split; [apply valid_accepted | apply accepted_valid].
  - intros Hna all rest. apply collect_items_rejected.
    intros Hv. by apply Hna, valid_accepted.
Qed.

End ValidationClaim.

Lemma validation_accepts_exactly_witness :
  SpotifyClient._is_valid_playlist owned_playlist = Ok true
  ∧ accepted owned_playlist.
Proof.
  split; [reflexivity | ].
  apply (proj1 (proj1 (validation_accepts_exactly owned_playlist))).
  reflexivity.
Defined.

(** C3 as worded fails on a result whose owner object is empty: it has the
    name, the URL, a positive total and an owner object, and is rejected. *)
Lemma validation_rejects_empty_owner :
  valid_by_spec ownerless_playlist
  ∧ SpotifyClient._is_valid_playlist ownerless_playlist = Ok false.
Proof.
  split; [ | reflexivity].
  unfold valid_by_spec, ownerless_playlist.
  do 7 eexists.
  split; [reflexivity | ].
  split; [reflexivity | ]. split; [discriminate | ].
  split; [reflexivity | ].
  split; [reflexivity | ]. split; [discriminate | ].
  split; [reflexivity | ].
  split; [reflexivity | ]. split; [reflexivity | ].
  reflexivity.
Qed.

(** ** De-duplication *)

Section DedupFacts.

Import SpotifyClient.

#[local] Arguments truthy : simpl never.

Lemma url_value_spec p u :
  url_value p = Some u ↔
  ∃ d, p = PyDict d ∧ d !! "url" = Some u ∧ truthy u = true.
Proof.
  unfold url_value. split.
  - destruct p as [ | | | | | d]; try done.
    destruct (d !! "url") as [u' | ] eqn:Hu; [ | done].
    destruct (truthy u') eqn:Ht; [ | done].
    intros [= <-]. eauto.
  - intros (d & -> & Hu & Ht). by rewrite Hu, Ht.
Qed.

(** One turn of the loop, read off the URL the entry bears. *)
Lemma remove_duplicates_loop_cons acc seen p rest :
  remove_duplicates_loop acc seen (p :: rest) =
    match url_value p with
    | None => remove_duplicates_loop acc seen rest
    | Some u =>
        match hash_key u with
        | Raise e => Raise e
        | Ok k =>
            if decide (k ∈ seen)
            then remove_duplicates_loop acc seen rest
            else remove_duplicates_loop (acc ++ [p]) ({[k]} ∪ seen) rest
        end
    end.
Proof.
  simpl. unfold url_value.
  destruct p as [ | | | | | d]; simpl; rewrite ?orb_true_r; try done.
  rewrite orb_false_r.
  destruct (d !! "url") as [u | ] eqn:Hu; simpl.
  - rewrite (truthy_dict_lookup d _ _ Hu). simpl.
    destruct (truthy u); [ | done].
    by destruct (hash_key u).
  - by destruct (truthy (PyDict d)).
Qed.

Lemma remove_duplicates_loop_candidates acc seen ps :
  Forall candidate ps →
  remove_duplicates_loop acc seen ps = Ok (acc ++ first_bearers seen ps).
Proof.
  intros Hps. revert acc seen.
  induction Hps as [ | p ps [k Hk] _ IH]; intros acc seen.
  - simpl. by rewrite app_nil_r.
  - rewrite remove_duplicates_loop_cons. simpl. rewrite Hk.
    unfold url_key in Hk.
    destruct (url_value p) as [u | ]; [ | done].
    destruct (hash_key u) as [k' | e]; [ | done].
    injection Hk as ->.
    destruct (decide (k ∈ seen)); [apply IH | ].
    by rewrite IH, <- app_assoc.
Qed.

Lemma remove_duplicates_loop_ok acc seen ps out :
  remove_duplicates_loop acc seen ps = Ok out →
  out = acc ++ first_bearers seen ps.
Proof.
  revert acc seen. induction ps as [ | p ps IH]; intros acc seen.
  - simpl. intros [= <-]. by rewrite app_nil_r.
  - rewrite remove_duplicates_loop_cons. simpl. unfold url_key.
    destruct (url_value p) as [u | ]; [ | apply IH].
    destruct (hash_key u) as [k | e]; [ | done].
    destruct (decide (k ∈ seen)); [apply IH | ].
    intros Hout. apply IH in Hout. by rewrite <- app_assoc in Hout.
Qed.

Lemma first_bearers_sublist seen ps : first_bearers seen ps `sublist_of` ps.
Proof.
  revert seen. induction ps as [ | p ps IH]; intros seen; simpl.
  - constructor.
  - destruct (url_key p) as [k | ]; [ | by constructor].
    destruct (decide (k ∈ seen)); by constructor.
Qed.

Lemma first_bearers_candidates seen ps :
  Forall candidate (first_bearers seen ps).
Proof.
  revert seen. induction ps as [ | p ps IH]; intros seen; simpl.
  - constructor.
  - destruct (url_key p) as [k | ] eqn:Hk; [ | apply IH].
    destruct (decide (k ∈ seen)); [apply IH | ].
    constructor; [ | apply IH]. unfold candidate. by rewrite Hk.
Qed.

(** For each URL value: the first entry of the input that bears it, unless
    the value was seen before. *)
Lemma first_bearers_filter seen ps k :
  filter (λ p, url_key p = Some k) (first_bearers seen ps) =
    if decide (k ∈ seen) then []
    else take 1 (filter (λ p, url_key p = Some k) ps).
Proof.
  revert seen. induction ps as [ | p ps IH]; intros seen; simpl.
  - by destruct (decide (k ∈ seen)).
  - destruct (url_key p) as [k' | ] eqn:Hk.
    + destruct (decide (k' ∈ seen)) as [Hin | Hnin].
      * rewrite IH. destruct (decide (k ∈ seen)) as [ | Hk']; [done | ].
        rewrite (filter_cons_False _ p); [done | ].
        rewrite Hk. intros [= ->]. done.
      * destruct (decide (k' = k)) as [-> | Hne].
        -- rewrite !filter_cons_True by done.
           rewrite IH. rewrite decide_True by set_solver.
           by rewrite decide_False by done.
        -- rewrite !filter_cons_False by (rewrite Hk; congruence).
           rewrite IH.
           destruct (decide (k ∈ seen)) as [Hs | Hs].
           ++ by rewrite decide_True by set_solver.
           ++ rewrite decide_False; [done | ].
              rewrite elem_of_union, elem_of_singleton. intros [-> | ?]; done.
    + rewrite (filter_cons_False _ p) by (rewrite Hk; congruence).
      apply IH.
Qed.

Lemma first_bearers_fresh seen ps k :
  Some k ∈ url_key <$> first_bearers seen ps → k ∉ seen.
Proof.
  revert seen. induction ps as [ | p ps IH]; intros seen; simpl.
  - by intros ?%elem_of_nil.
  - destruct (url_key p) as [k' | ] eqn:Hk; [ | apply IH].
    destruct (decide (k' ∈ seen)) as [Hin | Hnin]; [apply IH | ].
    rewrite fmap_cons, elem_of_cons, Hk.
    intros [[= ->] | Hin]; [done | ].
    apply IH in Hin. set_solver.
Qed.

Lemma first_bearers_NoDup seen ps :
  NoDup (url_key <$> first_bearers seen ps).
Proof.
  revert seen. induction ps as [ | p ps IH]; intros seen; simpl.
  - constructor.
  - destruct (url_key p) as [k | ] eqn:Hk; [ | apply IH].
    destruct (decide (k ∈ seen)) as [Hin | Hnin]; [apply IH | ].
    rewrite fmap_cons, Hk. constructor; [ | apply IH].
    intros Hdup. apply first_bearers_fresh in Hdup. set_solver.
Qed.

(** C4.  On every list of playlist candidates the de-duplication returns,
    and its result is a subsequence of the input in which, for each URL
    value, exactly the first candidate bearing it remains.  Of two
    candidates with the same URL, whatever their names, the first alone
    survives. *)
Theorem remove_duplicates_first_wins (ps : list pyval) :
  Forall candidate ps →
  ∃ out,
    _remove_duplicates ps = Ok out
    ∧ out `sublist_of` ps
    ∧ (∀ k, filter (λ p, url_key p = Some k) out =
            take 1 (filter (λ p, url_key p = Some k) ps))
    ∧ NoDup (url_key <$> out)
    ∧ (∀ a b, ps = [a; b] → url_key a = url_key b → out = [a]).
Proof.
  intros Hps. exists (first_bearers ∅ ps).
  split; [ | split; [ | split; [ | split]]].
  - unfold _remove_duplicates.
    by rewrite remove_duplicates_loop_candidates.
  - apply first_bearers_sublist.
  - intros k. rewrite first_bearers_filter.
    by rewrite decide_False by set_solver.
  - apply first_bearers_NoDup.
  - intros a b -> Hab.
    apply Forall_cons_1 in Hps as [[k Hk] _].
    simpl. rewrite <- Hab, Hk.
    rewrite decide_False by set_solver.
    by rewrite decide_True by set_solver.
Qed.

End DedupFacts.

Lemma remove_duplicates_first_wins_witness :
  Forall candidate duplicated_candidates
  ∧ ∃ out, SpotifyClient._remove_duplicates duplicated_candidates = Ok out
           ∧ out `sublist_of` duplicated_candidates.
Proof.
  assert (Forall candidate duplicated_candidates) as Hc.
  { repeat constructor; eexists; reflexivity. }
  split; [exact Hc | ].
  destruct (remove_duplicates_first_wins duplicated_candidates Hc)
    as (out & Hout & Hsub & _).
  exists out. split; [exact Hout | exact Hsub].
Defined.

Example remove_duplicates_sample :
  SpotifyClient._remove_duplicates duplicated_candidates =
    Ok [ sample_candidate "Morning" "https://open.spotify.com/playlist/a" 12;
         sample_candidate "Night" "https://open.spotify.com/playlist/b" 7 ].
Proof. vm_compute. reflexivity. Qed.

(** What the guard [if url and ...] does to entries that bear no URL: they
    are passed over, the first of them included. *)
Lemma remove_duplicates_skips_url_less acc seen p rest :
  url_value p = None →
  SpotifyClient.remove_duplicates_loop acc seen (p :: rest) =
    SpotifyClient.remove_duplicates_loop acc seen rest.
Proof.
  intros Hp. by rewrite remove_duplicates_loop_cons, Hp.
Qed.

(** On any list, whenever the de-duplication returns: a subsequence with,
    for each URL value, its first bearer. *)
Lemma remove_duplicates_any_list ps out :
  SpotifyClient._remove_duplicates ps = Ok out →
  out `sublist_of` ps
  ∧ Forall candidate out
  ∧ ∀ k, filter (λ p, url_key p = Some k) out =
         take 1 (filter (λ p, url_key p = Some k) ps).
Proof.
  intros Hout. apply remove_duplicates_loop_ok in Hout. simpl in Hout.
  subst out. split; [apply first_bearers_sublist | ].
  split; [apply first_bearers_candidates | ].
  intros k. rewrite first_bearers_filter.
  rewrite decide_False; [done | ]. apply not_elem_of_empty.
Qed.

Example remove_duplicates_empty_urls :
  SpotifyClient._remove_duplicates
    [sample_candidate "Morning" "" 12; sample_candidate "Evening" "" 40]
  = Ok [].
Proof. vm_compute. reflexivity. Qed.

(** ** The quality filter and the selection *)

Section SelectionFacts.

Import SpotifyClient.

Lemma quality_playlists_cons p rest :
  quality_playlists (p :: rest) =
    match track_count p with
    | Some _ =>
        match quality_playlists rest with
        | Ok quality => Ok (if has_quality p then p :: quality else quality)
        | Raise e => Raise e
        end
    | None =>
        Raise (match p with PyDict _ => TypeError | _ => AttributeError end)
    end.
Proof.
  simpl. unfold has_quality, track_count.
  destruct p as [ | | | | | d]; try done. simpl.
  destruct (default (PyInt 0) (d !! "tracks_count")); try done; simpl;
    by destruct (quality_playlists rest).
Qed.

(** The comprehension is the filter on the track count, and it evaluates
    exactly when every count is a number. *)
Lemma quality_playlists_ok ps quality :
  quality_playlists ps = Ok quality →
  quality = filter (λ p, has_quality p = true) ps
  ∧ Forall (λ p, is_Some (track_count p)) ps.
Proof.
  revert quality. induction ps as [ | p ps IH]; intros quality.
  - simpl. intros [= <-]. by split.
  - rewrite quality_playlists_cons.
    destruct (track_count p) as [n | ] eqn:Hn; [ | done].
    destruct (quality_playlists ps) as [q | e]; [ | done].
    destruct (IH q eq_refl) as [-> Hall].
    intros [= <-]. split; [ | constructor; [by rewrite Hn | done]].
    destruct (has_quality p) eqn:Hq.
    + by rewrite filter_cons_True.
    + rewrite filter_cons_False; [done | congruence].
Qed.

Lemma quality_playlists_total ps :
  Forall (λ p, is_Some (track_count p)) ps →
  quality_playlists ps = Ok (filter (λ p, has_quality p = true) ps).
Proof.
  induction 1 as [ | p ps [n Hn] _ IH].
  - done.
  - rewrite quality_playlists_cons, Hn, IH.
    destruct (has_quality p) eqn:Hq.
    + by rewrite filter_cons_True.
    + rewrite filter_cons_False; [done | congruence].
Qed.

Lemma random_choice_in {A} rnd (seq : list A) :
  seq ≠ [] → ∃ a, random_choice rnd seq = Ok a ∧ a ∈ seq.
Proof.
  intros Hne. destruct seq as [ | x seq]; [done | ].
  unfold random_choice.
  assert (rnd `mod` length (x :: seq) < length (x :: seq))%nat as Hlt
    by (apply Nat.mod_upper_bound; simpl; lia).
  destruct (lookup_lt_is_Some_2 _ _ Hlt) as [a Ha].
  rewrite Ha. exists a. split; [done | ].
  by eapply list_elem_of_lookup_2.
Qed.

Lemma random_choice_any {A} (seq : list A) a :
  a ∈ seq → ∃ rnd, random_choice rnd seq = Ok a.
Proof.
  intros Hin. apply list_elem_of_lookup_1 in Hin as [i Hi].
  pose proof (lookup_lt_Some _ _ _ Hi) as Hlt.
  exists i. destruct seq as [ | x seq]; [done | ].
  unfold random_choice. by rewrite Nat.mod_small, Hi.
Qed.

(** C5.  With a non-empty candidate list, whenever the filter evaluates and
    a choice is drawn, the list handed to the random choice is the
    candidates with a track count of at least 10 if there are any and the
    whole list otherwise; it is never empty, the recommendation is an
    element of it, and each element can be the one drawn.  The filter
    evaluates whenever every track count is a number.  For the counts
    5, 8 and 3 the choice is among all three. *)
Theorem selection_pool_fallback (playlists : list pyval) :
  playlists ≠ [] →
  (∀ pool, selection_pool playlists = Ok pool →
     let quality := filter (λ p, has_quality p = true) playlists in
     (quality ≠ [] → pool = quality)
     ∧ (quality = [] → pool = playlists)
     ∧ pool ≠ []
     ∧ (∀ rnd, ∃ p, recommend_from playlists rnd = Some p
                    ∧ random_choice rnd pool = Ok p ∧ p ∈ pool)
     ∧ (∀ p, p ∈ pool → ∃ rnd, recommend_from playlists rnd = Some p))
  ∧ (Forall (λ p, is_Some (track_count p)) playlists →
     ∃ pool, selection_pool playlists = Ok pool)
  ∧ selection_pool short_candidates = Ok short_candidates.
Proof.
  intros Hne. split; [ | split; [ | reflexivity]].
  - intros pool Hpool quality. unfold selection_pool in Hpool.
    destruct (quality_playlists playlists) as [q | e] eqn:Hq; [ | done].
    simpl in Hpool. injection Hpool as <-.
    destruct (quality_playlists_ok _ _ Hq) as [Hqf Hall].
    fold quality in Hqf. subst q.
    assert (Hp : (if is_nil quality then playlists else quality) ≠ [])
      by (by destruct quality).
    assert (Hdict : ∀ p, p ∈ (if is_nil quality then playlists else quality) →
              ∃ v, get p "name" (PyStr "Unknown") = Ok v).
    { intros p Hin.
      assert (p ∈ playlists) as Hin'.
      { destruct quality eqn:Hquality; [done | ].
        simpl in Hin. rewrite <- Hquality in Hin. unfold quality in Hin.
        by apply list_elem_of_filter in Hin as [_ ?]. }
      rewrite Forall_forall in Hall. destruct (Hall p Hin') as [n Hn].
      destruct p; try done. simpl. eauto. }
    split; [by destruct quality | ].
    split; [by intros -> | ].
    split; [done | ].
    split.
    + intros rnd.
      destruct (random_choice_in rnd _ Hp) as (p & Hc & Hin).
      exists p. split; [ | done].
      unfold recommend_from, selection_pool. rewrite Hq. simpl.
      rewrite Hc. simpl. by destruct (Hdict p Hin) as [v ->].
    + intros p Hin.
      destruct (random_choice_any _ p Hin) as [rnd Hc].
      exists rnd. unfold recommend_from, selection_pool. rewrite Hq. simpl.
      rewrite Hc. simpl. by destruct (Hdict p Hin) as [v ->].
  - intros Hall. unfold selection_pool.
    rewrite (quality_playlists_total _ Hall). simpl. eauto.
Qed.

End SelectionFacts.

Lemma selection_pool_fallback_witness :
  short_candidates ≠ []
  ∧ ∀ rnd, ∃ p, SpotifyClient.recommend_from short_candidates rnd = Some p
                ∧ p ∈ short_candidates.
Proof.
  assert (short_candidates ≠ []) as Hne by discriminate.
  split; [exact Hne | ].
  destruct (selection_pool_fallback short_candidates Hne)
    as (Hpool & _ & Hshort).
  destruct (Hpool short_candidates Hshort) as (_ & _ & _ & Hdraw & _).
  intros rnd. destruct (Hdraw rnd) as (p & Hp & _ & Hin).
  exists p. split; [exact Hp | exact Hin].
Defined.

(** ** The exhaustion fallback *)

Section FallbackFacts.

Import SpotifyClient.

Context {St : Type}.

Implicit Types (sp : option (@catalog St)) (s : St).

(** A first search that finds something is the only search. *)
Lemma no_fallback_when_found sp kws rnd s playlists s1 :
  truthy kws = true →
  search_mood_playlists sp kws 20 s = (playlists, s1) →
  playlists ≠ [] →
  get_mood_playlist_recommendation sp kws rnd s
    = (recommend_from playlists rnd, s1).
Proof.
  intros Hk Hs Hne. unfold get_mood_playlist_recommendation.
  rewrite Hk, Hs. simpl. by destruct playlists.
Qed.

(** Without keywords nothing is searched. *)
Lemma no_keywords_no_search sp kws rnd s :
  truthy kws = false →
  get_mood_playlist_recommendation sp kws rnd s = (None, s).
Proof.
  intros Hk. unfold get_mood_playlist_recommendation. by rewrite Hk.
Qed.

(** C6.  When the search over the mood's keywords yields no candidate, the
    recommendation is what one further search, over the generic keywords
    'music', 'playlist', 'songs' and from the catalog state the first one
    left, selects; when that search yields no candidate either, the result
    is [None].  The function has a result in every case. *)
Theorem exhaustion_fallback sp (kws : pyval) (rnd : nat) s s1 :
  truthy kws = true →
  search_mood_playlists sp kws 20 s = ([], s1) →
  get_mood_playlist_recommendation sp kws rnd s =
    (let retry := search_mood_playlists sp broader_keywords 10 s1 in
     (if is_nil retry.1 then None else recommend_from retry.1 rnd, retry.2))
  ∧ (∀ s2, search_mood_playlists sp broader_keywords 10 s1 = ([], s2) →
       get_mood_playlist_recommendation sp kws rnd s = (None, s2))
  ∧ broader_keywords = PyList [PyStr "music"; PyStr "playlist"; PyStr "songs"].
Proof.
  intros Hk Hs.
  assert (get_mood_playlist_recommendation sp kws rnd s =
            (let retry := search_mood_playlists sp broader_keywords 10 s1 in
             (if is_nil retry.1 then None else recommend_from retry.1 rnd,
              retry.2))) as Heq.
  { unfold get_mood_playlist_recommendation. rewrite Hk, Hs. simpl.
    by destruct (search_mood_playlists sp broader_keywords 10 s1)
      as [[ | p ps] s2]. }
  split; [exact Heq | ]. split; [ | done].
  intros s2 Hr. rewrite Heq, Hr. done.
Qed.

End FallbackFacts.

Lemma exhaustion_fallback_witness :
  truthy (PyList [PyStr "gloom"]) = true
  ∧ SpotifyClient.search_mood_playlists (Some silent_catalog)
      (PyList [PyStr "gloom"]) 20 []
    = ([], [SpotifyClient.quoted "gloom"])
  ∧ SpotifyClient.get_mood_playlist_recommendation (Some silent_catalog)
      (PyList [PyStr "gloom"]) 0 []
    = (None, [SpotifyClient.quoted "gloom"; SpotifyClient.quoted "music";
              SpotifyClient.quoted "playlist"; SpotifyClient.quoted "songs"]).
Proof.
  split; [reflexivity | ]. split; [reflexivity | ].
  apply (proj1 (proj2 (exhaustion_fallback (Some silent_catalog)
                         (PyList [PyStr "gloom"]) 0 []
                         [SpotifyClient.quoted "gloom"]
                         eq_refl eq_refl))).
  reflexivity.
Defined.

(** ** Opening the playlist *)

Section BrowserFacts.

Import SpotifyClient.

#[local] Arguments truthy : simpl never.
#[local] Arguments String.prefix : simpl never.

Lemma open_playlist_openable web v u :
  openable v u →
  open_playlist_in_browser web v = (is_ok (web u), [u]).
Proof.
  intros [-> Hp]. unfold open_playlist_in_browser.
  assert (truthy (PyStr u) = true) as ->.
  { destruct u; [done | reflexivity]. }
  simpl. rewrite Hp. simpl. by destruct (web u).
Qed.

Lemma open_playlist_not_openable web v :
  (∀ u, ¬ openable v u) →
  open_playlist_in_browser web v = (false, []).
Proof.
  intros Hn. unfold open_playlist_in_browser.
  destruct v as [ | | | u | | ]; simpl; rewrite ?orb_true_r; try done.
  rewrite orb_false_r. destruct (truthy (PyStr u)); simpl; [ | done].
  destruct (String.prefix url_prefix u) eqn:Hp; simpl; [ | done].
  by destruct (Hn u).
Qed.

(** C8, as the code has it.  A URL is handed to the browser only when the
    input is a string with the playlist URL prefix, and then it is that
    string; for every other input the result is [False] and nothing is
    opened; and the result is [True] exactly when a URL was handed over and
    the call to the browser returned, whatever it reported: the flag of
    [webbrowser.open] is not looked at.  So a successful open gives
    [True], and so does one that reports failure without raising. *)
Theorem open_playlist_guarded (web : browser) (v : pyval) :
  url_prefix = "https://open.spotify.com/"
  ∧ (∀ u, u ∈ (open_playlist_in_browser web v).2 → openable v u)
  ∧ (∀ u, openable v u → (open_playlist_in_browser web v).2 = [u])
  ∧ ((∀ u, ¬ openable v u) →
       open_playlist_in_browser web v = (false, []))
  ∧ ((open_playlist_in_browser web v).1 = true ↔
       ∃ u flag, openable v u ∧ web u = Ok flag)
  ∧ ((open_playlist_in_browser web v).1 = false ↔
       (∀ u, ¬ openable v u) ∨ ∃ u e, openable v u ∧ web u = Raise e)
  ∧ (open_succeeds web v → (open_playlist_in_browser web v).1 = true).
Proof.
  split; [done | ].
  assert ((∃ u, openable v u) ∨ (∀ u, ¬ openable v u)) as [[u Hu] | Hn].
  { destruct v as [ | | | u | | ];
      try (right; intros u [? _]; discriminate).
    destruct (String.prefix url_prefix u) eqn:Hp.
    - left. by exists u.
    - right. intros u' [[= <-] Hp']. congruence. }
  - rewrite (open_playlist_openable web v u Hu). simpl.
    assert (∀ u', openable v u' → u' = u) as Huniq.
    { intros u' [Hv' _]. destruct Hu as [Hv _]. congruence. }
    split_and!.
    + intros u' ->%list_elem_of_singleton. done.
    + intros u' Hu'. by rewrite (Huniq u' Hu').
    + intros Hn. by destruct (Hn u).
    + split.
      * intros Hok. exists u. destruct (web u) as [flag | e]; [ | done].
        by exists flag.
      * intros (u' & flag & Hu' & Hok).
        rewrite (Huniq u' Hu') in Hok. by rewrite Hok.
    + split.
      * intros Hok. right. exists u.
        destruct (web u) as [flag | e]; [done | ]. by exists e.
      * intros [Hn | (u' & e & Hu' & Hr)]; [by destruct (Hn u) | ].
        rewrite (Huniq u' Hu') in Hr. by rewrite Hr.
    + intros (u' & Hu' & Hok).
      rewrite (Huniq u' Hu') in Hok. by rewrite Hok.
  - rewrite (open_playlist_not_openable web v Hn). simpl.
    split_and!.
    + by intros u ?%elem_of_nil.
    + intros u Hu. by destruct (Hn u).
    + done.
    + split; [done | ]. intros (u & flag & Hu & _). by destruct (Hn u).
    + split; [by left | done].
    + intros (u & Hu & _). by destruct (Hn u).
Qed.

End BrowserFacts.

Lemma open_playlist_guarded_witness :
  openable (PyStr "https://open.spotify.com/playlist/1")
    "https://open.spotify.com/playlist/1"
  ∧ (SpotifyClient.open_playlist_in_browser willing_browser
       (PyStr "https://open.spotify.com/playlist/1")).2
    = ["https://open.spotify.com/playlist/1"].
Proof.
  assert (openable (PyStr "https://open.spotify.com/playlist/1")
            "https://open.spotify.com/playlist/1") as Ho.
  { split; reflexivity. }
  split; [exact Ho | ].
  exact (proj1 (proj2 (proj2 (open_playlist_guarded willing_browser
                                (PyStr "https://open.spotify.com/playlist/1"))))
           "https://open.spotify.com/playlist/1" Ho).
Defined.

(** C8 as worded fails when [webbrowser.open] returns [False], no browser
    having been launched: the open is attempted without success, and the
    result is [True]. *)
Lemma open_reported_failed_yet_true :
  idle_browser "https://open.spotify.com/playlist/1" = Ok false
  ∧ ¬ open_succeeds idle_browser (PyStr "https://open.spotify.com/playlist/1")
  ∧ SpotifyClient.open_playlist_in_browser idle_browser
      (PyStr "https://open.spotify.com/playlist/1")
    = (true, ["https://open.spotify.com/playlist/1"]).
Proof.
  split; [reflexivity | ]. split; [ | reflexivity].
  intros (u & _ & Hok). discriminate Hok.
Qed.

Example open_playlist_samples :
  SpotifyClient.open_playlist_in_browser willing_browser
    (PyStr "https://open.spotify.com/playlist/1")
  = (true, ["https://open.spotify.com/playlist/1"])
  ∧ SpotifyClient.open_playlist_in_browser broken_browser
      (PyStr "https://open.spotify.com/playlist/1")
    = (false, ["https://open.spotify.com/playlist/1"])
  ∧ SpotifyClient.open_playlist_in_browser willing_browser
      (PyStr "http://example.org/playlist/1") = (false, [])
  ∧ SpotifyClient.open_playlist_in_browser willing_browser (PyStr "")
    = (false, [])
  ∧ SpotifyClient.open_playlist_in_browser willing_browser PyNone
    = (false, []).
Proof. repeat split. Qed.

(** ** From the catalog's answers to the candidates *)

Section ProjectionFacts.

Import SpotifyClient.

#[local] Arguments truthy : simpl never.

Lemma playlist_info_url n u de t o i :
  url_value (playlist_info n u de t o i) = if truthy u then Some u else None.
Proof. reflexivity. Qed.

(** The projection copies the 'spotify' entry into 'url' and the total into
    'tracks_count'. *)
Lemma accepted_projection raw info :
  accepted raw →
  _extract_playlist_info raw = Some info →
  ∃ d eu u tracks total n de o i,
    raw = PyDict d
    ∧ d !! "external_urls" = Some (PyDict eu) ∧ eu !! "spotify" = Some u
    ∧ d !! "tracks" = Some (PyDict tracks) ∧ tracks !! "total" = Some total
    ∧ truthy u = true
    ∧ info = playlist_info n u de total o i.
Proof.
  intros (d & name & eu & url & tracks & total & owner & -> & Hn & Hnt
          & He & Hu & Hut & Ht & Htot & Hz & Ho & Hne).
  unfold _extract_playlist_info, extract_fields. simpl.
  rewrite Hn, He, Ht, Ho. simpl. rewrite Hu, Htot. simpl.
  intros Hinfo.
  repeat (match type of Hinfo with
          | context [mbind _ ?m] =>
              let x := fresh "x" in
              destruct m as [x | ?] eqn:?; simpl in Hinfo; [ | done]
          end).
  injection Hinfo as <-.
  exists d, eu, url, tracks, total. do 4 eexists.
  repeat (split; [done | ]). reflexivity.
Qed.

Lemma collect_items_origin all items p :
  p ∈ collect_items all items →
  p ∈ all
  ∨ ∃ raw, raw ∈ items ∧ accepted raw ∧ _extract_playlist_info raw = Some p.
Proof.
  revert all. induction items as [ | raw items IH]; intros all; simpl.
  - by left.
  - assert (∀ all', p ∈ collect_items all' items → all' = all →
              p ∈ all ∨ ∃ raw0, raw0 ∈ raw :: items ∧ accepted raw0
                                ∧ _extract_playlist_info raw0 = Some p)
      as Hskip.
    { intros all' Hin ->. destruct (IH _ Hin) as [? | (r & ? & ? & ?)];
        [by left | right]. exists r. by rewrite elem_of_cons; eauto. }
    destruct (_is_valid_playlist raw) as [[ | ] | e] eqn:Hv;
      [ | by eauto | by left].
    destruct (_extract_playlist_info raw) as [info | ] eqn:Hx; [ | by eauto].
    destruct (truthy info); [ | by eauto].
    destruct (get info "url" PyNone) as [u | e]; [ | by left].
    destruct (truthy u); [ | by eauto].
    intros Hin. destruct (IH _ Hin) as [Hall | (r & ? & ? & ?)].
    + apply elem_of_app in Hall as [? | ->%list_elem_of_singleton];
        [by left | right].
      exists raw. split; [by left | ]. split; [ | done].
      by apply valid_accepted.
    + right. exists r. by rewrite elem_of_cons; eauto.
Qed.

Context {St : Type}.

Implicit Types (search : @catalog St) (s : St).

Lemma search_keyword_origin search limit acc keyword :
  Forall (from_catalog search) acc.1 →
  Forall (from_catalog search) (search_keyword search limit acc keyword).1.
Proof.
  intros Hacc. destruct acc as [all s]. unfold search_keyword.
  destruct (negb (truthy keyword) || negb (is_str keyword)); [done | ].
  destruct keyword as [ | | | kw | | ]; try done.
  destruct (search (quoted kw) (Z.min limit 50) s) as [r s'] eqn:Hs.
  destruct r as [results | e]; [ | done].
  destruct (negb (truthy results) || negb (is_dict results)); [done | ].
  destruct results as [ | | | | | rd]; try done. simpl.
  destruct (rd !! "playlists") as [pdv | ] eqn:Hpd; simpl; [ | done].
  destruct pdv as [ | | | | | pd]; try done.
  destruct (pd !! "items") as [itv | ] eqn:Hit; simpl; [ | done].
  destruct itv as [ | | | | items | ]; try done. simpl.
  apply Forall_forall. intros p Hin.
  destruct (collect_items_origin _ _ _ Hin) as [Hall | (raw & Hr & Ha & Hx)].
  - simpl in Hacc. rewrite Forall_forall in Hacc. by apply Hacc.
  - exists (quoted kw), (Z.min limit 50), s, rd, pd, items, raw.
    by rewrite Hs.
Qed.

Lemma search_keywords_origin search limit keywords acc :
  Forall (from_catalog search) acc.1 →
  Forall (from_catalog search)
    (foldl (search_keyword search limit) acc keywords).1.
Proof.
  revert acc. induction keywords as [ | kw keywords IH]; intros acc Hacc.
  - done.
  - simpl. apply IH. by apply search_keyword_origin.
Qed.

(** Every record a search returns is the projection of an item the catalog
    returned and the validation accepted. *)
Lemma search_results_origin search kws limit s :
  Forall (from_catalog search)
    (search_mood_playlists (Some search) kws limit s).1.
Proof.
  unfold search_mood_playlists.
  destruct (negb (truthy kws) || negb (is_list kws)); [done | ].
  destruct kws as [ | | | | keywords | ]; try done.
  pose proof (search_keywords_origin search limit keywords ([], s)
                (Forall_nil_2 _)) as Hall.
  destruct (foldl (search_keyword search limit) ([], s) keywords)
    as [all s'].
  destruct (_remove_duplicates all) as [unique | e] eqn:Hu; [ | done].
  apply remove_duplicates_loop_ok in Hu. simpl in *. subst unique.
  rewrite Forall_forall in Hall. apply Forall_forall. intros p Hin.
  apply Hall. eapply elem_of_sublist; [exact Hin | ].
  apply first_bearers_sublist.
Qed.

(** With a catalog that keeps to strings, the URL of a projected record is
    a non-empty string. *)
Lemma from_catalog_string_url search p :
  string_urls search → from_catalog search p → url_nonempty_string p.
Proof.
  intros Hstr (q & limit & s & rd & pd & items & raw & Hs & Hpd & Hit & Hin
               & Hacc & Hx).
  destruct (accepted_projection raw p Hacc Hx)
    as (d & eu & u & tracks & total & n & de & o & i & -> & He & Hu & _ & _
        & Hut & ->).
  pose proof (Hstr q limit s rd pd items d eu u Hs Hpd Hit Hin He Hu) as Hu'.
  destruct u as [ | | | str | | ]; try done.
  eexists _, str. split; [reflexivity | ]. split; [reflexivity | ].
  intros ->. done.
Qed.

End ProjectionFacts.

(** ** What a search returns *)

Section SearchFacts.

Import SpotifyClient.

Context {St : Type}.

Implicit Types (sp : option (@catalog St)) (s : St).

Lemma candidate_url p :
  candidate p →
  ∃ d u, p = PyDict d ∧ d !! "url" = Some u ∧ truthy u = true
         ∧ (∀ str, u = PyStr str → str ≠ "").
Proof.
  intros [k Hk]. unfold url_key in Hk.
  destruct (url_value p) as [u | ] eqn:Hu; [ | done].
  apply url_value_spec in Hu as (d & -> & Hd & Ht).
  exists d, u. repeat split; try done.
  intros str -> ->. done.
Qed.

(** The result of a search is empty or what the de-duplication kept. *)
Lemma search_mood_playlists_kept sp kws limit s :
  (search_mood_playlists sp kws limit s).1 = []
  ∨ ∃ all, (search_mood_playlists sp kws limit s).1 = first_bearers ∅ all.
Proof.
  unfold search_mood_playlists.
  destruct sp as [search | ]; [ | by left].
  destruct (negb (truthy kws) || negb (is_list kws)); [by left | ].
  destruct kws as [ | | | | keywords | ]; try by left.
  destruct (foldl (search_keyword search limit) ([], s) keywords)
    as [all s'].
  destruct (_remove_duplicates all) as [unique | e] eqn:Hu; [ | by left].
  right. exists all. simpl.
  by apply remove_duplicates_loop_ok in Hu.
Qed.

(** C10, as the code has it.  Every record a search returns is a dictionary
    whose 'url' counts as true, hence is not the empty string, and the URL
    values of the records are pairwise distinct; without an authenticated
    client, and with keywords that are empty or not a list, the result is
    the empty list.  Each record is the projection of an item the
    catalog returned and the validation accepted, and the type of its URL
    is the catalog's, the code not looking at it: with a catalog that keeps
    to strings the URL is a non-empty string. *)
Theorem search_results_bear_urls sp (kws : pyval) (limit : Z) s :
  let out := (search_mood_playlists sp kws limit s).1 in
  Forall (λ p, ∃ d u, p = PyDict d ∧ d !! "url" = Some u ∧ truthy u = true
                      ∧ (∀ str, u = PyStr str → str ≠ "")) out
  ∧ Forall candidate out
  ∧ NoDup (url_key <$> out)
  ∧ (∀ search, sp = Some search →
       Forall (from_catalog search) out
       ∧ (string_urls search → Forall url_nonempty_string out))
  ∧ (sp = None → search_mood_playlists sp kws limit s = ([], s))
  ∧ (truthy kws = false ∨ is_list kws = false →
     search_mood_playlists sp kws limit s = ([], s)).
Proof.
  intros out.
  assert (Forall candidate out ∧ NoDup (url_key <$> out)) as [Hc Hn].
  { subst out.
    destruct (search_mood_playlists_kept sp kws limit s) as [-> | [all ->]].
    - split; constructor.
    - split; [apply first_bearers_candidates | apply first_bearers_NoDup]. }
  split; [ | split; [done | split; [done | split; [ | split]]]].
  - eapply Forall_impl; [exact Hc | ]. intros p. apply candidate_url.
  - intros search ->.
    pose proof (search_results_origin search kws limit s) as Horigin.
    split; [exact Horigin | ].
    intros Hstr. eapply Forall_impl; [exact Horigin | ].
    intros p. by apply from_catalog_string_url.
  - intros ->. done.
  - intros Hk. unfold search_mood_playlists.
    destruct sp as [search | ]; [ | done].
    destruct Hk as [-> | ->]; simpl; rewrite ?orb_true_r; done.
Qed.

End SearchFacts.

Lemma search_results_bear_urls_witness :
  (SpotifyClient.search_mood_playlists (Some fixed_catalog)
     (PyList [PyStr "rain"; PyStr "storm"]) 10 tt).1
  = [ SpotifyClient.playlist_info (PyStr "Rainy Day")
        (PyStr "https://open.spotify.com/playlist/1")
        (PyStr "No description available") (PyInt 25) (PyStr "ana")
        (PyStr "") ]
  ∧ NoDup (url_key <$>
             (SpotifyClient.search_mood_playlists (Some fixed_catalog)
                (PyList [PyStr "rain"; PyStr "storm"]) 10 tt).1).
Proof.
  split; [vm_compute; reflexivity | ].
  exact (proj1 (proj2 (proj2 (search_results_bear_urls (Some fixed_catalog)
                                (PyList [PyStr "rain"; PyStr "storm"]) 10
                                tt)))).
Defined.

(** C10 as worded fails when the catalog puts a number where the URL
    belongs: the record is returned, and its 'url' is not a string. *)
Lemma search_returns_numeric_url :
  (SpotifyClient.search_mood_playlists (Some numeric_url_catalog)
     (PyList [PyStr "odd"]) 10 tt).1
  = [ SpotifyClient.playlist_info (PyStr "Odd") (PyInt 7)
        (PyStr "No description available") (PyInt 12) (PyStr "ana")
        (PyStr "") ]
  ∧ ¬ Forall url_nonempty_string
        (SpotifyClient.search_mood_playlists (Some numeric_url_catalog)
           (PyList [PyStr "odd"]) 10 tt).1.
Proof.
  assert ((SpotifyClient.search_mood_playlists (Some numeric_url_catalog)
             (PyList [PyStr "odd"]) 10 tt).1
          = [ SpotifyClient.playlist_info (PyStr "Odd") (PyInt 7)
                (PyStr "No description available") (PyInt 12) (PyStr "ana")
                (PyStr "") ]) as Hout by (vm_compute; reflexivity).
  split; [exact Hout | ].
  rewrite Hout. intros Hall.
  apply Forall_cons_1 in Hall as [(d & str & Hd & Hu & _) _].
  unfold SpotifyClient.playlist_info in Hd. injection Hd as <-.
  vm_compute in Hu. discriminate.
Qed.

(* ===================================================================== *)
(** * Further properties of the detector *)
(* ===================================================================== *)

Section FeatureFacts.

Import MoodDetector.

Lemma count_in_faces_bounds c hits acc s e :
  count_in_faces c hits acc = Ok (s, e) →
  acc.1 <= s ∧ acc.2 <= e
  ∧ (smile_cascade c = false → s = acc.1)
  ∧ (eye_cascade c = false → e = acc.2).
Proof.
  revert acc. induction hits as [ | h hits IH]; intros [a b]; simpl.
  - intros [= <- <-]. split_and!; [lia | lia | done | done].
  - destruct (smile_cascade c) eqn:Hs; simpl;
      [destruct (smile_rects h) as [rs | x]; simpl; [ | done] | ];
      (destruct (eye_cascade c) eqn:He; simpl;
       [destruct (eye_rects h) as [re | x]; simpl; [ | done] | ]);
      intros Hc; apply IH in Hc as (H1 & H2 & Ha & Hb); simpl in *;
      split_and!; try lia; try done; intros _; auto.
Qed.

(** X1.  The counts the detector builds are never negative, a frame without
    a face has neither smile nor eye, and a classifier that was not loaded
    contributes nothing: no face classifier gives three zeros, no smile
    (eye) classifier gives no smile (eye). *)
Theorem features_invariant (c : cascades) (o : observation) :
  let f := detect_faces_and_features c o in
  0 <= faces f ∧ 0 <= smiles f ∧ 0 <= eyes f
  ∧ (faces f = 0 → smiles f = 0 ∧ eyes f = 0)
  ∧ (face_cascade c = false → f = no_features)
  ∧ (smile_cascade c = false → smiles f = 0)
  ∧ (eye_cascade c = false → eyes f = 0).
Proof.
  intros f.
  assert (0 <= faces f ∧ 0 <= smiles f ∧ 0 <= eyes f
          ∧ (face_cascade c = false → f = no_features)
          ∧ (smile_cascade c = false → smiles f = 0)
          ∧ (eye_cascade c = false → eyes f = 0)) as (? & ? & ? & ? & ? & ?).
  { subst f. unfold detect_faces_and_features.
    destruct (face_cascade c); simpl; [ | by repeat split].
    destruct (gray_ok o); simpl; [ | by repeat split].
    destruct (face_rects o) as [hits | x]; simpl; [ | by repeat split].
    destruct (count_in_faces c hits (0, 0)) as [[s e] | x] eqn:Hc; simpl;
      [ | by repeat split].
    apply count_in_faces_bounds in Hc as (? & ? & Hs & He). simpl in *.
    repeat split; try lia; try done; auto. }
  repeat split; try done.
  - by apply features_without_face.
  - by apply features_without_face.
Qed.

Lemma count_in_faces_sums c hits acc :
  Forall (λ h, is_ok (smile_rects h) = true ∧ is_ok (eye_rects h) = true)
    hits →
  count_in_faces c hits acc =
    Ok (acc.1 + (if smile_cascade c
                 then Z.of_nat (sum_list_with (λ h, rects_found (smile_rects h))
                                  hits)
                 else 0),
        acc.2 + (if eye_cascade c
                 then Z.of_nat (sum_list_with (λ h, rects_found (eye_rects h))
                                  hits)
                 else 0)).
Proof.
  intros Hall. revert acc.
  induction Hall as [ | h hits [Hs He] _ IH]; intros [a b]; simpl.
  - destruct (smile_cascade c), (eye_cascade c); do 2 f_equal; lia.
  - destruct (smile_rects h) as [rs | x]; [ | done].
    destruct (eye_rects h) as [re | x]; [ | done].
    destruct (smile_cascade c), (eye_cascade c); simpl;
      rewrite IH; simpl; do 2 f_equal; lia.
Qed.

Lemma count_in_faces_raises c hits acc :
  Exists (λ h, (smile_cascade c = true ∧ is_ok (smile_rects h) = false)
               ∨ (eye_cascade c = true ∧ is_ok (eye_rects h) = false))
    hits →
  ∃ x, count_in_faces c hits acc = Raise x.
Proof.
  intros Hex. revert acc.
  induction Hex as [h hits Hh | h hits _ IH]; intros [a b]; simpl.
  - destruct Hh as [[-> Hs] | [-> He]].
    + destruct (smile_rects h); [done | ]. simpl. eauto.
    + destruct (smile_cascade c); simpl.
      * destruct (smile_rects h); simpl; [ | eauto].
        destruct (eye_rects h); [done | ]. simpl. eauto.
      * destruct (eye_rects h); [done | ]. simpl. eauto.
  - destruct (smile_cascade c); simpl.
    + destruct (smile_rects h); simpl; [ | eauto].
      destruct (eye_cascade c); simpl; [ | apply IH].
      destruct (eye_rects h); simpl; [apply IH | eauto].
    + destruct (eye_cascade c); simpl; [ | apply IH].
      destruct (eye_rects h); simpl; [apply IH | eauto].
Qed.

(** X2.  With the three classifiers loaded and the frame converted, the
    counts are the number of face boxes and the sums, over the faces, of
    the smile and eye boxes found in each, provided every classifier call
    returns; a single call that raises, on any face, leaves all three
    counts at zero, the face count included. *)
Theorem features_all_or_nothing (c : cascades) (o : observation)
    (hits : list face_hit) :
  face_cascade c = true → smile_cascade c = true → eye_cascade c = true →
  gray_ok o = true → face_rects o = Ok hits →
  (Forall (λ h, is_ok (smile_rects h) = true ∧ is_ok (eye_rects h) = true)
     hits →
   detect_faces_and_features c o =
     {| faces := Z.of_nat (length hits);
        smiles := Z.of_nat (sum_list_with (λ h, rects_found (smile_rects h))
                              hits);
        eyes := Z.of_nat (sum_list_with (λ h, rects_found (eye_rects h))
                            hits) |})
  ∧ (Exists (λ h, is_ok (smile_rects h) = false
                  ∨ is_ok (eye_rects h) = false) hits →
     detect_faces_and_features c o = no_features).
Proof.
  intros Hf Hs He Hg Hr. unfold detect_faces_and_features.
  rewrite Hf, Hg, Hr. simpl. split.
  - intros Hall. rewrite (count_in_faces_sums c hits (0, 0) Hall).
    by rewrite Hs, He.
  - intros Hex.
    destruct (count_in_faces_raises c hits (0, 0)) as [x ->]; [ | done].
    eapply Exists_impl; [exact Hex | ]. simpl.
    intros h [? | ?]; [left | right]; done.
Qed.

End FeatureFacts.

Lemma features_all_or_nothing_witness :
  MoodDetector.detect_faces_and_features all_cascades failing_eye_frame
  = MoodDetector.no_features.
Proof.
  refine (proj2 (features_all_or_nothing all_cascades failing_eye_frame _
                   eq_refl eq_refl eq_refl eq_refl eq_refl) _).
  apply Exists_cons_hd. right. reflexivity.
Defined.

Section LabelFacts.

Import MoodDetector.

Lemma simple_emotion_logic_labels f e :
  simple_emotion_logic f = Some e → e ∈ ["happy"; "neutral"; "sad"].
Proof.
  unfold simple_emotion_logic. rewrite !elem_of_cons.
  repeat case_match; intros [= <-]; auto.
Qed.

Lemma emotions_have_keywords l :
  l ∈ emotions →
  ∃ kws, Config.MOOD_MAPPING !! l = Some kws ∧ length kws = 5%nat
         ∧ Main.get_mood_keywords l = Ok kws.
Proof.
  unfold emotions. rewrite !elem_of_cons, elem_of_nil.
  intros [-> | [-> | [-> | [-> | [-> | []]]]]];
    eexists; split_and!; reflexivity.
Qed.

Lemma rotation_index_kept st now :
  0 <= current_emotion_index st < 5 →
  0 <= current_emotion_index (demo_emotion_rotation st now).2 < 5.
Proof.
  intros Hi. unfold demo_emotion_rotation. simpl.
  destruct (elapsed_over now (last_emotion_time st)); simpl; [ | done].
  change (Z.of_nat (length emotions)) with 5.
  apply Z.mod_pos_bound. lia.
Qed.

Lemma detect_mood_always_label c o st now :
  0 <= current_emotion_index st < 5 →
  ∃ l, (detect_mood_from_frame c o st now).1 = Some l
       ∧ l ∈ emotions
       ∧ 0 <= current_emotion_index (detect_mood_from_frame c o st now).2 < 5
       ∧ (faces (detect_faces_and_features c o) > 0 →
          (detect_mood_from_frame c o st now).2 = st).
Proof.
  intros Hi.
  pose proof (features_faces_nonneg c o) as Hnn.
  destruct (decide (faces (detect_faces_and_features c o) = 0))
    as [H0 | Hpos].
  - rewrite (detect_without_face c o st now H0).
    pose proof (rotation_index_kept st now Hi) as Hkept.
    destruct (index_emotions _ Hkept) as (l & Hl & Hat).
    assert ((demo_emotion_rotation st now).1 = Ok l) as -> by exact Hl.
    exists l. split; [done | ]. split; [ | split; [exact Hkept | ]].
    + by eapply list_elem_of_lookup_2.
    + intros Hf. lia.
  - destruct (simple_emotion_logic (detect_faces_and_features c o))
      as [e | ] eqn:He.
    + pose proof (simple_emotion_logic_labels _ _ He) as Hin.
      assert (str_truthy e = true ∧ e ∈ emotions) as [Ht Hin'].
      { revert Hin. unfold emotions. rewrite !elem_of_cons, elem_of_nil.
        intros [-> | [-> | [-> | []]]]; split; try reflexivity; auto. }
      rewrite (detect_with_face c o st now e ltac:(lia) He Ht).
      exists e. split; [done | ]. split; [done | ].
      split; [exact Hi | done].
    + exfalso. revert He. unfold simple_emotion_logic.
      destruct (Z.eqb_spec (faces (detect_faces_and_features c o)) 0);
        [done | ].
      repeat case_match; done.
Qed.

(** X3.  With the rotation index inside the list, [detect_mood_from_frame]
    always returns a label, never [None] and never the empty string: one of
    'happy', 'sad', 'neutral', 'angry', 'surprise'.  The index stays inside
    the list, and a label read off the face leaves the rotation as it was.
    Each of these labels has its own five keywords in the mapping, so
    [get_mood_keywords] never falls back to the default for a detected
    mood. *)
Theorem detected_label_known (c : cascades) (o : observation)
    (st : rotation) (now : Q) :
  0 <= current_emotion_index st < 5 →
  ∃ l kws,
    (detect_mood_from_frame c o st now).1 = Some l
    ∧ l ∈ emotions ∧ l ≠ ""
    ∧ 0 <= current_emotion_index (detect_mood_from_frame c o st now).2 < 5
    ∧ (faces (detect_faces_and_features c o) > 0 →
       (detect_mood_from_frame c o st now).2 = st)
    ∧ Config.MOOD_MAPPING !! l = Some kws ∧ length kws = 5%nat
    ∧ Main.get_mood_keywords l = Ok kws.
Proof.
  intros Hi.
  destruct (detect_mood_always_label c o st now Hi)
    as (l & Hl & Hin & Hidx & Hst).
  destruct (emotions_have_keywords l Hin) as (kws & Hk & Hlen & Hget).
  exists l, kws.
  split; [exact Hl | ]. split; [exact Hin | ].
  split.
  { intros ->. revert Hin. unfold emotions.
    rewrite !elem_of_cons, elem_of_nil.
    intros [? | [? | [? | [? | [? | []]]]]]; discriminate. }
  split; [exact Hidx | ]. split; [exact Hst | ].
  split; [exact Hk | ]. split; [exact Hlen | exact Hget].
Qed.

End LabelFacts.

Lemma detected_label_known_witness :
  ∃ l kws,
    (MoodDetector.detect_mood_from_frame all_cascades failing_eye_frame
       (rotation_init 0) 30).1 = Some l
    ∧ Main.get_mood_keywords l = Ok kws.
Proof.
  destruct (detected_label_known all_cascades failing_eye_frame
              (rotation_init 0) 30 ltac:(simpl; lia))
    as (l & kws & Hl & _ & _ & _ & _ & _ & _ & Hk).
  exists l, kws. split; [exact Hl | exact Hk].
Defined.

Section RotationRunFacts.

Import MoodDetector.

Lemma elapsed_over_false now last :
  elapsed_over now last = false ↔ (float_sub now last <= 10)%Q.
Proof.
  unfold elapsed_over, emotion_duration. rewrite negb_false_iff.
  apply Qle_bool_iff.
Qed.

(** X4.  Whatever the clock reads, one call of the rotation moves the index
    by at most one place, keeps it inside the list, never moves the
    timestamp backwards, and changes the timestamp only together with the
    index: a long pause is answered by a single step. *)
Theorem rotation_single_step (st : rotation) (now : Q) :
  let st' := (demo_emotion_rotation st now).2 in
  (st' = st
   ∨ st' = {| current_emotion_index := (current_emotion_index st + 1) mod 5;
              last_emotion_time := now |})
  ∧ (0 <= current_emotion_index st < 5 →
     0 <= current_emotion_index st' < 5)
  ∧ (last_emotion_time st <= last_emotion_time st')%Q
  ∧ (last_emotion_time st' = last_emotion_time st ∨
     (10 < last_emotion_time st' - last_emotion_time st)%Q).
Proof.
  intros st'. subst st'.
  split; [ | split; [apply rotation_index_kept | ]].
  - unfold demo_emotion_rotation. simpl.
    destruct (elapsed_over now (last_emotion_time st)); [by right | by left].
  - unfold demo_emotion_rotation. simpl.
    destruct (elapsed_over now (last_emotion_time st)) eqn:He; simpl.
    + apply elapsed_over_exact in He. split; [lra | by right].
    + split; [lra | by left].
Qed.

(** X5.  A second call at the same clock reading changes nothing and
    returns what the first returned. *)
Theorem rotation_same_instant (st : rotation) (now : Q) :
  demo_emotion_rotation (demo_emotion_rotation st now).2 now
  = demo_emotion_rotation st now.
Proof.
  unfold demo_emotion_rotation at 2 3. simpl.
  destruct (elapsed_over now (last_emotion_time st)) eqn:He.
  - unfold demo_emotion_rotation. simpl.
    by rewrite elapsed_over_same.
  - unfold demo_emotion_rotation. by rewrite He.
Qed.

Lemma demo_rotation_run_cons st t rest :
  demo_rotation_run st (t :: rest) =
    ((demo_emotion_rotation st t).1
       :: (demo_rotation_run (demo_emotion_rotation st t).2 rest).1,
     (demo_rotation_run (demo_emotion_rotation st t).2 rest).2).
Proof.
  cbn [demo_rotation_run].
  destruct (demo_emotion_rotation st t) as [r st1]. cbn [fst snd].
  by destruct (demo_rotation_run st1 rest).
Qed.

Lemma demo_emotion_rotation_advance st t :
  (10 < float_sub t (last_emotion_time st))%Q →
  demo_emotion_rotation st t =
    (index emotions ((current_emotion_index st + 1) mod 5),
     {| current_emotion_index := (current_emotion_index st + 1) mod 5;
        last_emotion_time := t |}).
Proof.
  intros Ht. unfold demo_emotion_rotation.
  by rewrite (proj2 (elapsed_over_true t (last_emotion_time st)) Ht).
Qed.

(** Readings are spaced when each is more than [10 + 2 ^ -50] seconds
    after the one before. *)
Lemma spaced_exactly last times :
  spaced last times
  ↔ Forall2 (λ before t, (10 + (1 # 1125899906842624) < t - before)%Q)
      (take (length times) (last :: times)) times.
Proof.
  revert last. induction times as [ | t rest IH]; intros last.
  - simpl. split; [intros _; constructor | done].
  - cbn [spaced length take]. rewrite IH. unfold float_sub.
    rewrite round64_over_ten. split.
    + intros [Ht Hrest]. by constructor.
    + intros H. by inversion H.
Qed.

Lemma seq_shift_map (f : nat → res string) n :
  f <$> seq 2 n = (λ j, f (S j)) <$> seq 1 n.
Proof.
  rewrite <- (fmap_S_seq 1 n), <- list_fmap_compose. done.
Qed.

(** X6.  Calls more than ten seconds apart, the seconds being the
    difference of the clock readings as the interpreter computes it, step
    through the list in its order and around its end: the j-th call returns
    the label j places after the starting index, counted modulo five, so
    that five such calls bring the rotation back to the label it started
    from. *)
Theorem rotation_cycles (st : rotation) (times : list Q) :
  0 <= current_emotion_index st < 5 →
  spaced (last_emotion_time st) times →
  (demo_rotation_run st times).1
    = (λ j, index emotions
              ((current_emotion_index st + Z.of_nat j) mod 5))
      <$> seq 1 (length times)
  ∧ current_emotion_index (demo_rotation_run st times).2
    = (current_emotion_index st + Z.of_nat (length times)) mod 5
  ∧ last_emotion_time (demo_rotation_run st times).2
    = default (last_emotion_time st) (last times)
  ∧ (length times = 5%nat →
     current_emotion_index (demo_rotation_run st times).2
       = current_emotion_index st).
Proof.
  intros Hi Hsp.
  assert ((demo_rotation_run st times).1
            = (λ j, index emotions
                      ((current_emotion_index st + Z.of_nat j) mod 5))
              <$> seq 1 (length times)
          ∧ current_emotion_index (demo_rotation_run st times).2
            = (current_emotion_index st + Z.of_nat (length times)) mod 5
          ∧ last_emotion_time (demo_rotation_run st times).2
            = default (last_emotion_time st) (last times)) as (Ha & Hb & Hc).
  { revert st Hi Hsp. induction times as [ | t rest IH]; intros st Hi Hsp.
    - simpl. split_and!; [done | | done].
      rewrite Z.add_0_r, Z.mod_small; [done | lia].
    - destruct Hsp as [Ht Hrest].
      rewrite demo_rotation_run_cons, (demo_emotion_rotation_advance st t Ht).
      set (st1 := {| current_emotion_index :=
                       (current_emotion_index st + 1) mod 5;
                     last_emotion_time := t |}).
      assert (0 <= current_emotion_index st1 < 5) as Hi1
        by (apply Z.mod_pos_bound; lia).
      destruct (IH st1 Hi1 Hrest) as (Ha & Hb & Hc).
      cbn [fst snd length seq fmap list_fmap].
      split_and!.
      + f_equal.
        change (list_fmap nat (res string) ?f ?l) with (f <$> l).
        rewrite Ha, seq_shift_map. apply list_fmap_ext.
        intros _ j _. simpl. f_equal.
        rewrite Zplus_mod_idemp_l. f_equal. lia.
      + rewrite Hb. simpl current_emotion_index.
        rewrite Zplus_mod_idemp_l. f_equal. lia.
      + rewrite Hc. subst st1. simpl last_emotion_time.
        destruct rest as [ | t' rest]; [done | ].
        rewrite last_cons_cons.
        destruct (last (t' :: rest)) eqn:Hl; [done | by apply last_None in Hl]. }
  split_and!; [done | done | done | ].
  intros Hlen. rewrite Hb, Hlen.
  change (Z.of_nat 5) with 5.
  rewrite <- (Z.mul_1_l 5) at 1. rewrite Z.mod_add by lia.
  apply Z.mod_small. lia.
Qed.

End RotationRunFacts.

Lemma rotation_cycles_witness :
  (MoodDetector.demo_rotation_run (rotation_init 0) [11; 22; 33; 44; 55]%Q).1
  = [Ok "sad"; Ok "neutral"; Ok "angry"; Ok "surprise"; Ok "happy"]
  ∧ MoodDetector.current_emotion_index
      (MoodDetector.demo_rotation_run (rotation_init 0)
         [11; 22; 33; 44; 55]%Q).2 = 0.
Proof.
  assert (spaced 0 [11; 22; 33; 44; 55]%Q) as Hsp.
  { simpl. repeat split; by vm_compute. }
  destruct (rotation_cycles (rotation_init 0) [11; 22; 33; 44; 55]%Q
              ltac:(simpl; lia) Hsp) as (Ha & _ & _ & Hfive).
  split; [ | apply Hfive; reflexivity].
  rewrite Ha. reflexivity.
Defined.

Section CaptureFacts.

Import MoodDetector.

Lemma good_capture_dec cam :
  good_capture cam ∨ capture_and_detect_fails cam.
Proof.
  unfold good_capture, capture_and_detect_fails.
  destruct (cap_opened cam); [ | by right; left].
  destruct (cap_read cam) as [[[ | ] frame] | x].
  - left. eauto.
  - right. right. right. eauto.
  - right. right. left. eauto.
Qed.

Lemma capture_and_detect_good c k cam d now frame :
  cap_opened cam = true → cap_read cam = Ok (true, frame) →
  capture_and_detect c k cam d now =
    if k =? 0
    then ((None, None), {| frame_count := frame_count d + 1; rot := rot d |})
    else if (frame_count d + 1) mod k =? 0
         then (((detect_mood_from_frame c frame (rot d) now).1, Some frame),
               {| frame_count := frame_count d + 1;
                  rot := (detect_mood_from_frame c frame (rot d) now).2 |})
         else ((None, Some frame),
               {| frame_count := frame_count d + 1; rot := rot d |}).
Proof.
  intros Ho Hr. unfold capture_and_detect, py_mod. rewrite Ho, Hr. simpl.
  destruct (k =? 0); [done | ].
  destruct ((frame_count d + 1) mod k =? 0); simpl; [ | done].
  by destruct (detect_mood_from_frame c frame (rot d) now).
Qed.

(** X7.  [capture_and_detect] counts the frames the camera hands over and
    looks for a mood only on those whose number is a multiple of
    [frame_skip]: any other frame is returned without a mood and without
    touching the rotation.  A camera that is closed, a read that fails or
    raises leaves the detector as it was and returns no frame; with
    [frame_skip] zero the frame is counted and then lost to the division. *)
Theorem capture_samples_frames (c : cascades) (k : Z) (cam : capture)
    (d : detector) (now : Q) :
  let r := capture_and_detect c k cam d now in
  (good_capture cam → frame_count r.2 = frame_count d + 1)
  ∧ (capture_and_detect_fails cam → r = ((None, None), d))
  ∧ (r.1.1 ≠ None →
     good_capture cam ∧ k ≠ 0 ∧ (frame_count d + 1) mod k = 0)
  ∧ (good_capture cam → k ≠ 0 → (frame_count d + 1) mod k ≠ 0 →
     r.1.1 = None ∧ is_Some r.1.2 ∧ rot r.2 = rot d)
  ∧ (good_capture cam → k = 0 → r.1 = (None, None) ∧ rot r.2 = rot d).
Proof.
  intros r. subst r.
  destruct (good_capture_dec cam) as [Hg | Hb].
  - pose proof Hg as (Ho & frame & Hr).
    rewrite (capture_and_detect_good c k cam d now frame Ho Hr).
    assert (¬ capture_and_detect_fails cam) as Hnb.
    { intros [Hc | [[x Hx] | [f Hf]]]; congruence. }
    destruct (Z.eqb_spec k 0) as [-> | Hk].
    + split_and!; try done; simpl; eauto.
    + destruct (Z.eqb_spec ((frame_count d + 1) mod k) 0) as [Hm | Hm].
      * split_and!; try done; simpl; eauto.
      * split_and!; try done; simpl; eauto.
  - assert (capture_and_detect c k cam d now = ((None, None), d)) as ->.
    { unfold capture_and_detect.
      destruct Hb as [-> | [[x ->] | [f ->]]]; simpl; try done.
      - by destruct (cap_opened cam).
      - by destruct (cap_opened cam). }
    assert (¬ good_capture cam) as Hng.
    { intros (Ho & frame & Hr).
      destruct Hb as [Hc | [[x Hx] | [f Hf]]]; congruence. }
    split_and!; try done.
Qed.

Lemma div_step_multiple f k :
  0 < k → (f + 1) mod k = 0 → (f + 1) / k = f / k + 1.
Proof.
  intros Hk Hm.
  pose proof (Z.div_mod (f + 1) k ltac:(lia)) as H1.
  pose proof (Z.div_mod f k ltac:(lia)) as H2.
  pose proof (Z.mod_pos_bound f k Hk) as H3.
  nia.
Qed.

Lemma div_step_other f k :
  0 < k → (f + 1) mod k ≠ 0 → (f + 1) / k = f / k.
Proof.
  intros Hk Hm.
  pose proof (Z.div_mod (f + 1) k ltac:(lia)) as H1.
  pose proof (Z.div_mod f k ltac:(lia)) as H2.
  pose proof (Z.mod_pos_bound f k Hk) as H3.
  pose proof (Z.mod_pos_bound (f + 1) k Hk) as H4.
  nia.
Qed.

Lemma capture_run_cons c k cam t rest d :
  capture_run c k ((cam, t) :: rest) d =
    ((capture_and_detect c k cam d t).1
       :: (capture_run c k rest (capture_and_detect c k cam d t).2).1,
     (capture_run c k rest (capture_and_detect c k cam d t).2).2).
Proof.
  cbn [capture_run].
  destruct (capture_and_detect c k cam d t) as [r d']. cbn [fst snd].
  by destruct (capture_run c k rest d').
Qed.

(** X8.  While the camera hands over frames, and with the rotation index
    inside its list, a positive [frame_skip] makes exactly one frame in
    [frame_skip] an attempt: of the frames numbered [f + 1 .. f + n] those
    with a mood are the multiples of [frame_skip], and each of them does
    carry a mood.  Every call returns its frame, and the frame counter ends
    at [f + n]. *)
Theorem capture_run_rate (c : cascades) (k : Z) (calls : list (capture * Q))
    (d : detector) :
  0 < k →
  0 <= current_emotion_index (rot d) < 5 →
  Forall (λ ct, good_capture ct.1) calls →
  let out := capture_run c k calls d in
  frame_count out.2 = frame_count d + Z.of_nat (length calls)
  ∧ Z.of_nat (length (filter (λ r, is_Some r.1) out.1))
    = (frame_count d + Z.of_nat (length calls)) / k - frame_count d / k
  ∧ Forall (λ r, is_Some r.2) out.1
  ∧ 0 <= current_emotion_index (rot out.2) < 5.
Proof.
  intros Hk Hi Hall. revert d Hi.
  induction Hall as [ | [cam t] rest (Ho & frame & Hr) _ IH]; intros d Hi.
  - simpl. split_and!;
      [lia | rewrite Z.add_0_r; lia | constructor | apply Hi | apply Hi].
  - rewrite capture_run_cons.
    rewrite (capture_and_detect_good c k cam d t frame Ho Hr).
    destruct (Z.eqb_spec k 0) as [ | _]; [lia | ].
    destruct (Z.eqb_spec ((frame_count d + 1) mod k) 0) as [Hm | Hm].
    + destruct (detect_mood_always_label c frame (rot d) t Hi)
        as (l & Hl & _ & Hi' & _).
      set (d1 := {| frame_count := frame_count d + 1;
                    rot := (detect_mood_from_frame c frame (rot d) t).2 |}).
      destruct (IH d1 Hi') as (Hc & Hn & Hf & Hidx).
      cbn [fst snd length] in *. split_and!.
      * rewrite Hc. simpl frame_count. lia.
      * rewrite filter_cons_True by (rewrite Hl; eauto).
        cbn [length]. rewrite Nat2Z.inj_succ, Hn. simpl frame_count.
        rewrite (div_step_multiple (frame_count d) k Hk Hm).
        replace (frame_count d + Z.of_nat (S (length rest)))
          with (frame_count d + 1 + Z.of_nat (length rest)) by lia.
        lia.
      * constructor; [eauto | done].
      * apply Hidx.
      * apply Hidx.
    + set (d1 := {| frame_count := frame_count d + 1; rot := rot d |}).
      destruct (IH d1 Hi) as (Hc & Hn & Hf & Hidx).
      cbn [fst snd length] in *. split_and!.
      * rewrite Hc. simpl frame_count. lia.
      * rewrite filter_cons_False by (intros [? ?]; done).
        rewrite Hn. simpl frame_count.
        rewrite (div_step_other (frame_count d) k Hk Hm).
        replace (frame_count d + Z.of_nat (S (length rest)))
          with (frame_count d + 1 + Z.of_nat (length rest)) by lia.
        lia.
      * constructor; [eauto | done].
      * apply Hidx.
      * apply Hidx.
Qed.

End CaptureFacts.

(* ===================================================================== *)
(** * Further properties of the stability loop *)
(* ===================================================================== *)

Section LoopFacts.

Import Main.

Lemma labels_of_cons t ticks :
  labels_of (t :: ticks) =
    match label_of t with Some l => [l] | None => [] end ++ labels_of ticks.
Proof. unfold labels_of. simpl. by destruct (label_of t). Qed.

Lemma gate_tracks_step g seen t :
  gate_tracks g seen →
  gate_tracks (handle_mood g (detected_mood t))
    (seen ++ match label_of t with Some l => [l] | None => [] end).
Proof.
  intros Hg. unfold label_of, handle_mood.
  destruct (detected_mood t) as [m | ]; [ | by rewrite app_nil_r].
  destruct (str_truthy m) eqn:Hm; [ | by rewrite app_nil_r].
  apply str_truthy_true in Hm.
  destruct (decide (Some m = last_mood g)) as [Heq | Hne].
  - right. destruct Hg as [(_ & Hn & _) | (l & pre & Hl & Hlast & Hc & Hs)];
      [congruence | ].
    assert (l = m) as -> by congruence.
    exists m, pre. simpl. split_and!; [done | done | lia | ].
    rewrite Hs, <- app_assoc. f_equal.
    replace (Z.to_nat (mood_stability_count g + 1))
      with (S (Z.to_nat (mood_stability_count g))) by lia.
    by rewrite replicate_S_end.
  - right. exists m, seen. simpl. split_and!; done.
Qed.

Lemma handle_mood_count g d :
  mood_stability_count (handle_mood g d) = mood_stability_count g
  ∨ mood_stability_count (handle_mood g d) = mood_stability_count g + 1
  ∨ mood_stability_count (handle_mood g d) = 1.
Proof.
  unfold handle_mood. destruct d as [m | ]; [ | by left].
  destruct (str_truthy m); [ | by left].
  destruct (decide (Some m = last_mood g)); simpl; auto.
Qed.

(** The loop from a state that tracks the labels seen, when it ends with a
    confirmation. *)
Lemma cycle_loop_confirmed ticks g n0 seen m n :
  gate_tracks g seen →
  mood_stability_count g <= 3 →
  cycle_loop g n0 ticks = Confirmed m n →
  ∃ j l pre,
    n = (n0 + j)%nat ∧ (j ≤ length ticks)%nat
    ∧ m = Some l ∧ l ≠ ""
    ∧ seen ++ labels_of (take j ticks) = pre ++ [l; l; l]
    ∧ Forall (λ t, quit_pressed t = false) (take j ticks)
    ∧ (¬ mood_stability_count g < 3 → j = 0%nat)
    ∧ (mood_stability_count g < 3 →
       ∃ i t, j = S i ∧ ticks !! i = Some t ∧ label_of t = Some l).
Proof.
  revert g n0 seen. induction ticks as [ | t rest IH]; intros g n0 seen Hg H3.
  - simpl. unfold required_stability.
    destruct (Z.ltb_spec (mood_stability_count g) 3) as [Hlt | Hge];
      [done | ].
    intros [= <- <-].
    destruct Hg as [(Hc & _) | (l & pre & Hl & Hlast & Hc & Hs)]; [lia | ].
    exists 0%nat, l, pre. rewrite take_0.
    replace (mood_stability_count g) with 3 in Hs by lia.
    split_and!; try done; try lia; try (intros ?; lia).
    by rewrite app_nil_r.
  - simpl. unfold required_stability.
    destruct (Z.ltb_spec (mood_stability_count g) 3) as [Hlt | Hge].
    + destruct (quit_pressed t) eqn:Hq; [done | ].
      intros Hloop.
      pose proof (gate_tracks_step g seen t Hg) as Hg'.
      pose proof (handle_mood_count g (detected_mood t)) as Hcount.
      destruct (IH _ _ _ Hg' ltac:(lia) Hloop)
        as (j & l & pre & -> & Hj & -> & Hl & Hs & Hnq & Hzero & Hpos).
      exists (S j), l, pre.
      rewrite firstn_cons, labels_of_cons, app_assoc.
      split_and!; try done; try (simpl; lia).
      * by constructor.
      * intros _.
        destruct (decide (mood_stability_count
                            (handle_mood g (detected_mood t)) < 3))
          as [Hlow | Hhigh].
        -- destruct (Hpos Hlow) as (i & t' & -> & Hi & Hlab).
           exists (S i), t'. done.
        -- rewrite (Hzero Hhigh) in *.
           exists 0%nat, t. split_and!; try done.
           destruct (handle_mood_changed g (detected_mood t) ltac:(lia))
             as (Hlast & l' & Hd & Hl').
           rewrite cycle_loop_done in Hloop
             by (unfold required_stability; lia).
           injection Hloop as Hm _. rewrite Hlast, Hd in Hm.
           injection Hm as ->.
           unfold label_of. rewrite Hd.
           by rewrite (proj2 (str_truthy_true l) Hl).
    + intros [= <- <-].
      destruct Hg as [(Hc & _) | (l & pre & Hl & Hlast & Hc & Hs)]; [lia | ].
      exists 0%nat, l, pre. rewrite take_0.
      replace (mood_stability_count g) with 3 in Hs by lia.
      split_and!; try done; try lia; try (simpl; lia); try (intros ?; lia).
      by rewrite app_nil_r.
Qed.

Lemma labels_of_length ticks : (length (labels_of ticks) ≤ length ticks)%nat.
Proof.
  induction ticks as [ | t ticks IH]; [done | ].
  rewrite labels_of_cons. destruct (label_of t); simpl; lia.
Qed.

(** X9.  When the stability loop confirms a mood, the mood is a non-empty
    label, the attempt on which it ends carries that label, the last three
    labels seen up to there are all that label, at least three attempts
    were made, and no quit key was pressed on the way. *)
Theorem confirmation_needs_three (ticks : list tick) (m : option string)
    (n : nat) :
  detect_mood_single_cycle ticks = Confirmed m n →
  ∃ l pre t,
    m = Some l ∧ l ≠ ""
    ∧ (3 ≤ n ≤ length ticks)%nat
    ∧ labels_of (take n ticks) = pre ++ [l; l; l]
    ∧ ticks !! (n - 1)%nat = Some t ∧ label_of t = Some l
    ∧ Forall (λ t, quit_pressed t = false) (take n ticks).
Proof.
  intros Hloop. unfold detect_mood_single_cycle in Hloop.
  assert (gate_tracks gate_init []) as Hg by (left; done).
  destruct (cycle_loop_confirmed ticks gate_init 0 [] m n Hg
              ltac:(simpl; lia) Hloop)
    as (j & l & pre & -> & Hj & -> & Hl & Hs & Hnq & _ & Hpos).
  destruct (Hpos ltac:(simpl; lia)) as (i & t & -> & Hi & Hlab).
  rewrite app_nil_l in Hs. rewrite Nat.add_0_l.
  exists l, pre, t.
  assert (3 ≤ S i)%nat as H3.
  { pose proof (labels_of_length (take (S i) ticks)) as Hlen.
    rewrite Hs, length_app, length_take in Hlen.
    cbn [length] in Hlen. lia. }
  replace (S i - 1)%nat with i by lia.
  split; [done | ]. split; [done | ]. split; [lia | ].
  split; [exact Hs | ]. split; [exact Hi | ]. split; [exact Hlab | exact Hnq].
Qed.

(** The loop can be run in two parts. *)
Lemma cycle_loop_resume pre rest g0 n0 g :
  cycle_loop g0 n0 pre = Running g →
  mood_stability_count g < 3
  ∧ cycle_loop g0 n0 (pre ++ rest) = cycle_loop g (n0 + length pre) rest.
Proof.
  revert g0 n0. induction pre as [ | t pre IH]; intros g0 n0; simpl.
  - unfold required_stability.
    destruct (Z.ltb_spec (mood_stability_count g0) 3) as [Hlt | Hge];
      [ | done].
    intros [= <-]. split; [done | ]. by rewrite Nat.add_0_r.
  - unfold required_stability.
    destruct (Z.ltb_spec (mood_stability_count g0) 3) as [Hlt | Hge];
      [ | done].
    destruct (quit_pressed t); [done | ].
    intros Hrun. destruct (IH _ _ Hrun) as [Hc ->].
    split; [done | ]. f_equal. lia.
Qed.

(** X10.  The quit key ends the loop on the attempt on which it is pressed,
    with no mood, whatever that attempt carries: also a label that would
    have been the third in a row. *)
Theorem quit_cancels (pre post : list tick) (t : tick) (g : gate) :
  detect_mood_single_cycle pre = Running g →
  quit_pressed t = true →
  detect_mood_single_cycle (pre ++ t :: post) = Cancelled (S (length pre)).
Proof.
  intros Hrun Hq. unfold detect_mood_single_cycle in *.
  destruct (cycle_loop_resume pre (t :: post) gate_init 0 g Hrun)
    as [Hc ->].
  simpl. unfold required_stability.
  destruct (Z.ltb_spec (mood_stability_count g) 3) as [_ | Hge]; [ | lia].
  by rewrite Hq.
Qed.

End LoopFacts.

Lemma confirmation_needs_three_witness :
  ∃ l pre t,
    Some "sad" = Some l ∧ l ≠ ""
    ∧ (3 ≤ 5 ≤ 5)%nat
    ∧ labels_of
        (take 5 (Main.attempts_of
                   [Some "happy"; Some "happy"; Some "sad"; Some "sad";
                    Some "sad"])) = pre ++ [l; l; l]
    ∧ Main.attempts_of
        [Some "happy"; Some "happy"; Some "sad"; Some "sad"; Some "sad"]
      !! (5 - 1)%nat = Some t
    ∧ label_of t = Some l
    ∧ Forall (λ t, Main.quit_pressed t = false)
        (take 5 (Main.attempts_of
                   [Some "happy"; Some "happy"; Some "sad"; Some "sad";
                    Some "sad"])).
Proof.
  exact (confirmation_needs_three
           (Main.attempts_of
              [Some "happy"; Some "happy"; Some "sad"; Some "sad";
               Some "sad"]) (Some "sad") 5 eq_refl).
Defined.

Lemma quit_cancels_witness :
  Main.detect_mood_single_cycle happy_then_quit = Main.Cancelled 3.
Proof.
  exact (quit_cancels (take 2 happy_then_quit) []
           {| Main.detected_mood := Some "happy"; Main.key := 113 |}
           {| Main.last_mood := Some "happy";
              Main.mood_stability_count := 2 |}
           eq_refl eq_refl).
Defined.

(* ===================================================================== *)
(** * Further properties of the catalog client *)
(* ===================================================================== *)

Section DedupMore.

Import SpotifyClient.

Lemma remove_duplicates_loop_raises acc seen ps :
  Exists (λ p, is_Some (url_value p) ∧ ¬ candidate p) ps →
  ∃ e, remove_duplicates_loop acc seen ps = Raise e.
Proof.
  intros Hex. revert acc seen.
  induction Hex as [p ps [[u Hu] Hn] | p ps _ IH]; intros acc seen;
    rewrite remove_duplicates_loop_cons.
  - rewrite Hu. unfold candidate, url_key in Hn. rewrite Hu in Hn.
    destruct (hash_key u) as [k | e]; [ | eauto].
    exfalso. apply Hn. eauto.
  - destruct (url_value p) as [u | ]; [ | apply IH].
    destruct (hash_key u) as [k | e]; [ | eauto].
    destruct (decide (k ∈ seen)); apply IH.
Qed.

Lemma remove_duplicates_loop_returns acc seen ps :
  Forall (λ p, url_value p = None ∨ candidate p) ps →
  remove_duplicates_loop acc seen ps = Ok (acc ++ first_bearers seen ps).
Proof.
  intros Hall. revert acc seen.
  induction Hall as [ | p ps Hp _ IH]; intros acc seen.
  - simpl. by rewrite app_nil_r.
  - rewrite remove_duplicates_loop_cons. simpl. unfold candidate in Hp.
    unfold url_key in *.
    destruct (url_value p) as [u | ]; [ | apply IH].
    destruct Hp as [? | [k Hk]]; [done | ].
    destruct (hash_key u) as [k' | e]; [ | done].
    destruct (decide (k' ∈ seen)); [apply IH | ].
    by rewrite IH, <- app_assoc.
Qed.

(** X11.  [_remove_duplicates] returns exactly when every entry whose URL
    counts as true has a hashable URL; an entry with a list or a dictionary
    for URL makes it raise, wherever it stands in the list and whatever the
    other entries are.  Entries that are not dictionaries or have no URL
    never make it raise. *)
Theorem remove_duplicates_raises_iff (ps : list pyval) :
  (is_ok (_remove_duplicates ps) = true
   ↔ Forall (λ p, url_value p = None ∨ candidate p) ps)
  ∧ (is_ok (_remove_duplicates ps) = false
     ↔ Exists (λ p, is_Some (url_value p) ∧ ¬ candidate p) ps).
Proof.
  assert (Forall (λ p, url_value p = None ∨ candidate p) ps
          ∨ Exists (λ p, is_Some (url_value p) ∧ ¬ candidate p) ps)
    as Hcases.
  { induction ps as [ | p ps [IH | IH]].
    - left. constructor.
    - destruct (url_value p) as [u | ] eqn:Hu.
      + destruct (decide (is_Some (url_key p))) as [Hc | Hc].
        * left. constructor; [by right | done].
        * right. apply Exists_cons_hd. rewrite Hu. split; [eauto | done].
      + left. constructor; [by left | done].
    - right. by apply Exists_cons_tl. }
  assert (Forall (λ p, url_value p = None ∨ candidate p) ps →
          Exists (λ p, is_Some (url_value p) ∧ ¬ candidate p) ps → False)
    as Hexcl.
  { rewrite Forall_forall, Exists_exists.
    intros Hall (p & Hin & [u Hu] & Hn).
    destruct (Hall p Hin) as [? | ?]; [congruence | done]. }
  unfold _remove_duplicates.
  destruct Hcases as [Hall | Hex].
  - rewrite (remove_duplicates_loop_returns [] ∅ ps Hall). simpl.
    split; split; try done. intros Hex. by destruct (Hexcl Hall Hex).
  - destruct (remove_duplicates_loop_raises [] ∅ ps Hex) as [e ->]. simpl.
    split; split; try done. intros Hall. by destruct (Hexcl Hall Hex).
Qed.

Lemma first_bearers_distinct seen ps :
  Forall candidate ps →
  NoDup (url_key <$> ps) →
  (∀ k, Some k ∈ url_key <$> ps → k ∉ seen) →
  first_bearers seen ps = ps.
Proof.
  intros Hall. revert seen.
  induction Hall as [ | p ps [k Hk] _ IH]; intros seen Hnd Hfresh; [done | ].
  simpl. rewrite Hk. rewrite fmap_cons, Hk in Hnd, Hfresh.
  apply NoDup_cons in Hnd as [Hnin Hnd].
  rewrite decide_False
    by (apply Hfresh; rewrite elem_of_cons; by left).
  f_equal. apply IH; [done | ].
  intros k' Hin. rewrite elem_of_union, elem_of_singleton.
  intros [-> | Hs]; [done | ].
  revert Hs. apply Hfresh. rewrite elem_of_cons. by right.
Qed.

(** X12.  The lists [_remove_duplicates] returns unchanged are exactly the
    lists of candidates with pairwise distinct URLs; so a second pass over
    a result changes nothing, and a result is never longer than the
    input. *)
Theorem remove_duplicates_fixpoints (ps : list pyval) :
  (_remove_duplicates ps = Ok ps
   ↔ Forall candidate ps ∧ NoDup (url_key <$> ps))
  ∧ (∀ out, _remove_duplicates ps = Ok out →
       _remove_duplicates out = Ok out ∧ (length out ≤ length ps)%nat).
Proof.
  assert (∀ l, Forall candidate l → NoDup (url_key <$> l) →
               _remove_duplicates l = Ok l) as Hfix.
  { intros l Hc Hnd. unfold _remove_duplicates.
    rewrite remove_duplicates_loop_candidates by done. simpl.
    rewrite first_bearers_distinct; [done | done | done | ].
    intros k _. apply not_elem_of_empty. }
  split.
  - split.
    + intros Hps. apply remove_duplicates_loop_ok in Hps. simpl in Hps.
      split.
      * rewrite Hps. apply first_bearers_candidates.
      * rewrite Hps. apply first_bearers_NoDup.
    + intros [Hc Hnd]. by apply Hfix.
  - intros out Hout. apply remove_duplicates_loop_ok in Hout.
    simpl in Hout. subst out. split.
    + apply Hfix; [apply first_bearers_candidates | apply first_bearers_NoDup].
    + apply sublist_length, first_bearers_sublist.
Qed.

End DedupMore.

Lemma remove_duplicates_fixpoints_witness :
  SpotifyClient._remove_duplicates (drop 1 duplicated_candidates)
  = Ok (drop 1 duplicated_candidates).
Proof.
  apply (proj1 (remove_duplicates_fixpoints (drop 1 duplicated_candidates))).
  split.
  - repeat constructor; eexists; reflexivity.
  - vm_compute. repeat constructor; rewrite ?elem_of_cons, ?elem_of_nil;
      intros H; repeat destruct H as [H | H]; try discriminate H; exact H.
Defined.

Section ExtractionFacts.

Import SpotifyClient.

#[local] Arguments truthy : simpl never.
#[local] Arguments shorten : simpl never.

Lemma shorten_describable v :
  truthy v = true → (is_ok (shorten v) = true ↔ describable v = true).
Proof.
  intros Hv. unfold shorten, describable.
  destruct v as [ | b | n | s | l | d]; simpl; try done.
  - by destruct (_ >? 200).
  - destruct (Z.gtb_spec (Z.of_nat (length l)) 200) as [Hgt | Hle]; simpl.
    + split; [done | ]. intros Hl%Nat.leb_le. lia.
    + split; [ | done]. intros _. apply Nat.leb_le. lia.
  - destruct (Z.gtb_spec (Z.of_nat (size d)) 200) as [Hgt | Hle]; simpl.
    + split; [done | ]. intros Hl%Nat.leb_le. lia.
    + split; [ | done]. intros _. apply Nat.leb_le. lia.
Qed.

Lemma description_of_truthy d : truthy (description_of d) = true.
Proof.
  unfold description_of, py_or.
  by destruct (truthy (default PyNone (d !! "description"))) eqn:Ht.
Qed.

(** On an accepted result every step of the projection but the shortening
    of the description returns. *)
Lemma extract_fields_accepted d name eu url tracks total owner :
  d !! "name" = Some name →
  d !! "external_urls" = Some (PyDict eu) → eu !! "spotify" = Some url →
  d !! "tracks" = Some (PyDict tracks) → tracks !! "total" = Some total →
  d !! "owner" = Some (PyDict owner) →
  ∃ o i,
    extract_fields (PyDict d) =
      (short ← shorten (description_of d);
       Ok (playlist_info name url short total o i)).
Proof.
  intros Hn He Hu Ht Htot Ho. unfold extract_fields. simpl.
  rewrite Hn, He, Ht, Ho. simpl. rewrite Hu, Htot. simpl.
  fold (description_of d).
  destruct (truthy (default PyNone (owner !! "display_name"))); simpl.
  - destruct (default (PyList []) (d !! "images")) as [ | | | | [ | f l] | ];
      simpl; try (by eexists _, _).
    destruct f; simpl; by eexists _, _.
  - destruct (default (PyList []) (d !! "images")) as [ | | | | [ | f l] | ];
      simpl; try (by eexists _, _).
    destruct f; simpl; by eexists _, _.
Qed.

(** X13.  On a result the validation accepts, the projection fails only on
    the description: it returns a record exactly when the description is
    missing, counts as false, is a string, or is a list or dictionary of at
    most 200 entries; a number for description loses the playlist.  The
    record carries the name, the 'spotify' URL and the total of the result
    as they came: the stock values 'Unknown Playlist', '' and 0 are never
    used after validation. *)
Theorem projection_after_validation (d : gmap string pyval) :
  accepted (PyDict d) →
  (is_Some (_extract_playlist_info (PyDict d))
   ↔ describable (description_of d) = true)
  ∧ (∀ info, _extract_playlist_info (PyDict d) = Some info →
       ∃ name eu url tracks total short o i,
         d !! "name" = Some name
         ∧ d !! "external_urls" = Some (PyDict eu)
         ∧ eu !! "spotify" = Some url
         ∧ d !! "tracks" = Some (PyDict tracks)
         ∧ tracks !! "total" = Some total
         ∧ shorten (description_of d) = Ok short
         ∧ info = playlist_info name url short total o i
         ∧ url_value info = Some url).
Proof.
  intros (d' & name & eu & url & tracks & total & owner & [= <-] & Hn & Hnt
          & He & Hu & Hut & Ht & Htot & Hz & Ho & Hne).
  destruct (extract_fields_accepted d name eu url tracks total owner
              Hn He Hu Ht Htot Ho) as (o & i & Hx).
  unfold _extract_playlist_info. rewrite Hx.
  pose proof (shorten_describable (description_of d)
                (description_of_truthy d)) as Hd.
  destruct (shorten (description_of d)) as [short | e] eqn:Hs; simpl in *.
  - split.
    + split; [intros _; by apply Hd | eauto].
    + intros info [= <-].
      exists name, eu, url, tracks, total, short, o, i.
      split_and!; try done.
      by rewrite playlist_info_url, Hut.
  - split.
    + split; [by intros [? ?] | ].
      intros Hdesc. apply Hd in Hdesc. done.
    + done.
Qed.

End ExtractionFacts.

Lemma projection_after_validation_witness :
  accepted numbered_description
  ∧ SpotifyClient._extract_playlist_info numbered_description = None.
Proof.
  assert (accepted numbered_description) as Ha.
  { apply valid_accepted. reflexivity. }
  split; [exact Ha | ].
  destruct (SpotifyClient._extract_playlist_info numbered_description)
    as [info | ] eqn:Hx; [ | reflexivity].
  exfalso.
  assert (describable
            (description_of
               (<["name" := PyStr "Rainy Day"]>
               (<["description" := PyInt 7]>
               (<["external_urls" :=
                    PyDict (<["spotify" :=
                      PyStr "https://open.spotify.com/playlist/1"]> ∅)]>
               (<["tracks" := PyDict (<["total" := PyInt 25]> ∅)]>
               (<["owner" := PyDict (<["id" := PyStr "ana"]> ∅)]> ∅))))))
          = true) as Hd.
  { apply (proj1 (proj1 (projection_after_validation _ Ha))).
    unfold numbered_description in Hx. rewrite Hx. eauto. }
  discriminate Hd.
Defined.

Section DescriptionFacts.

Import SpotifyClient.



Lemma str_take_all n (s : string) :
  (str_len s ≤ n)%nat → str_take n s = s.
Proof.
  revert n. induction s as [ | c s IH]; intros n; simpl; [done | ].
  destruct (is_continuation c).
  - intros Hn. by rewrite IH.
  - destruct n as [ | n]; [lia | ]. intros Hn. rewrite IH; [done | lia].
Qed.




(** A description of 67 characters of three bytes each is kept; one of 201
    such characters is cut to 200 of them and the dots. *)
Example description_counts_code_points :
  String.length (notes 67) = 201%nat
  ∧ shorten (PyStr (notes 67)) = Ok (PyStr (notes 67))
  ∧ shorten (PyStr (notes 201)) = Ok (PyStr (notes 200 +:+ "..."))
  ∧ str_len (notes 200 +:+ "...") = 203%nat.
Proof.
  split_and!; by vm_compute.
Qed.

End DescriptionFacts.

Section RequestFacts.

Import SpotifyClient.

Lemma search_keyword_skipped {S} (search : @catalog S) limit acc keyword :
  usable_keywords [keyword] = [] →
  search_keyword search limit acc keyword = acc.
Proof.
  destruct acc as [all s]. unfold usable_keywords, search_keyword. simpl.
  destruct keyword as [ | | | kw | | ]; simpl; rewrite ?orb_true_r; try done.
  unfold str_truthy. by destruct (negb (String.eqb kw "")).
Qed.

Context {St : Type}.

Implicit Types (search : @catalog St) (s : St) (log : list (string * Z)).

Lemma search_keyword_usable search limit all s kw :
  str_truthy kw = true →
  ∃ all',
    search_keyword search limit (all, s) (PyStr kw)
      = (all', (search (quoted kw) (Z.min limit 50) s).2)
    ∧ search_keyword (logged search) limit (all, (s, [])) (PyStr kw)
      = (all', ((search (quoted kw) (Z.min limit 50) s).2,
                [(quoted kw, Z.min limit 50)]))
    ∧ all `prefix_of` all'.
Proof.
  intros Hkw. unfold search_keyword, logged.
  assert (truthy (PyStr kw) = true) as -> by exact Hkw. simpl.
  destruct (search (quoted kw) (Z.min limit 50) s) as [r s'] eqn:Hs.
  simpl.
  assert (∀ items, all `prefix_of` collect_items all items) as Hpre.
  { intros items. revert all. clear.
    induction items as [ | p items IH]; intros all; simpl; [done | ].
    repeat case_match; try done; try apply IH.
    etrans; [ | apply IH]. by apply prefix_app_r. }
  destruct r as [results | e]; [ | by eexists].
  destruct (negb (truthy results) || negb (is_dict results)); [by eexists | ].
  destruct (get results "playlists" (PyDict ∅)) as [pdv | e];
    [ | by eexists].
  destruct pdv as [ | | | | | pd]; try by eexists.
  destruct (default (PyList []) (pd !! "items")) as [ | | | | items | ];
    by eexists.
Qed.

Lemma logged_state_log search limit all s log keyword :
  search_keyword (logged search) limit (all, (s, log)) keyword =
    let r := search_keyword (logged search) limit (all, (s, [])) keyword in
    (r.1, (r.2.1, log ++ r.2.2)).
Proof.
  unfold search_keyword.
  destruct (negb (truthy keyword) || negb (is_str keyword));
    [by rewrite app_nil_r | ].
  destruct keyword as [ | | | kw | | ]; try by rewrite app_nil_r.
  unfold logged. simpl.
  destruct (search (quoted kw) (Z.min limit 50) s) as [r s'].
  simpl. repeat case_match; done.
Qed.

Lemma search_keywords_logged search limit keywords all s log :
  ∃ all',
    foldl (search_keyword search limit) (all, s) keywords
      = (all', (foldl (search_keyword search limit) (all, s) keywords).2)
    ∧ foldl (search_keyword (logged search) limit) (all, (s, log)) keywords
      = (all', ((foldl (search_keyword search limit) (all, s) keywords).2,
                log ++ ((λ kw, (quoted kw, Z.min limit 50))
                          <$> usable_keywords keywords)))
    ∧ all `prefix_of` all'.
Proof.
  revert all s log. induction keywords as [ | k keywords IH];
    intros all s log.
  - simpl. exists all. by rewrite app_nil_r.
  - cbn [foldl].
    destruct (usable_keywords [k]) as [ | kw l] eqn:Hk.
    + rewrite (search_keyword_skipped search) by done.
      rewrite (search_keyword_skipped (logged search)) by done.
      assert (usable_keywords (k :: keywords) = usable_keywords keywords)
        as ->.
      { unfold usable_keywords in *. simpl in *. by case_match. }
      apply IH.
    + assert (k = PyStr kw ∧ str_truthy kw = true ∧ l = []) as (-> & Hkw & ->).
      { unfold usable_keywords in Hk. simpl in Hk.
        destruct k; try done. destruct (str_truthy s0) eqn:?; [ | done].
        by injection Hk as -> <-. }
      assert (usable_keywords (PyStr kw :: keywords)
              = kw :: usable_keywords keywords) as ->.
      { unfold usable_keywords. simpl. by rewrite Hkw. }
      destruct (search_keyword_usable search limit all s kw Hkw)
        as (all1 & H1 & H2 & Hp1).
      rewrite logged_state_log, H1, H2. simpl.
      destruct (IH all1 (search (quoted kw) (Z.min limit 50) s).2
                  (log ++ [(quoted kw, Z.min limit 50)]))
        as (all' & H3 & H4 & Hp2).
      exists all'. rewrite <- app_assoc in H4. split_and!; try done.
      by etrans.
Qed.

Lemma search_logged search (keywords : list pyval) (limit : Z) s log :
  search_mood_playlists (Some (logged search)) (PyList keywords) limit (s, log)
  = ((search_mood_playlists (Some search) (PyList keywords) limit s).1,
     ((search_mood_playlists (Some search) (PyList keywords) limit s).2,
      log ++ ((λ kw, (quoted kw, Z.min limit 50))
                <$> usable_keywords keywords))).
Proof.
  unfold search_mood_playlists.
  destruct keywords as [ | k keywords]; [simpl; by rewrite app_nil_r | ].
  assert (negb (truthy (PyList (k :: keywords)))
          || negb (is_list (PyList (k :: keywords))) = false) as -> by done.
  destruct (search_keywords_logged search limit (k :: keywords) [] s log)
    as (all' & H1 & H2 & _).
  rewrite H2, H1.
  by destruct (_remove_duplicates all').
Qed.

Lemma usable_keywords_cons (k : pyval) (keywords : list pyval) :
  usable_keywords (k :: keywords)
  = match k with
    | PyStr kw => if str_truthy kw then kw :: usable_keywords keywords
                  else usable_keywords keywords
    | _ => usable_keywords keywords
    end.
Proof.
  destruct k as [ | b | n | kw | l | d]; try done.
  unfold usable_keywords. cbn [omap list_omap].
  by destruct (str_truthy kw).
Qed.

Lemma usable_keywords_length (keywords : list pyval) :
  (length (usable_keywords keywords) ≤ length keywords)%nat.
Proof.
  induction keywords as [ | k keywords IH]; [done | ].
  rewrite usable_keywords_cons.
  destruct k as [ | b | n | kw | l | d]; simpl; try lia.
  destruct (str_truthy kw); simpl; lia.
Qed.

(** X15.  A search makes one request per keyword that is a non-empty
    string, in the order of the keywords, with the keyword between double
    quotes as query and the limit cut down to 50; empty keywords and
    keywords that are not strings cost no request.  Recording the requests
    changes neither the result nor the catalog. *)
Theorem search_requests search (keywords : list pyval) (limit : Z) s log :
  let requests :=
    (λ kw, (quoted kw, Z.min limit 50)) <$> usable_keywords keywords in
  search_mood_playlists (Some (logged search)) (PyList keywords) limit (s, log)
  = ((search_mood_playlists (Some search) (PyList keywords) limit s).1,
     ((search_mood_playlists (Some search) (PyList keywords) limit s).2,
      log ++ requests))
  ∧ (length requests ≤ length keywords)%nat
  ∧ Forall (λ r, r.2 <= 50) requests
  ∧ (Forall (λ k, ∃ kw, k = PyStr kw ∧ kw ≠ "") keywords →
     length requests = length keywords).
Proof.
  intros requests. subst requests.
  split; [apply search_logged | ].
  rewrite length_fmap. split; [ | split].
  - apply usable_keywords_length.
  - apply Forall_fmap, Forall_forall. intros kw _. simpl. lia.
  - intros Hall.
    induction Hall as [ | k keywords (kw & -> & Hkw) _ IH]; [done | ].
    rewrite usable_keywords_cons, (proj2 (str_truthy_true kw) Hkw).
    simpl. by rewrite IH.
Qed.

(** X16.  Searching with more keywords never displaces what the first
    keywords found: the result over [kws1 ++ kws2] begins with the result
    over [kws1], unless a URL that cannot be hashed turns up, in which case
    the whole result is empty. *)
Theorem search_results_grow search (kws1 kws2 : list pyval) (limit : Z) s :
  kws1 ≠ [] →
  (search_mood_playlists (Some search) (PyList (kws1 ++ kws2)) limit s).1 = []
  ∨ (search_mood_playlists (Some search) (PyList kws1) limit s).1
      `prefix_of`
    (search_mood_playlists (Some search) (PyList (kws1 ++ kws2)) limit s).1.
Proof.
  intros Hne. unfold search_mood_playlists.
  assert (∀ l, l ≠ [] →
            negb (truthy (PyList l)) || negb (is_list (PyList l)) = false)
    as Hguard by (by intros [ | ? ?]).
  rewrite !Hguard by (by destruct kws1). rewrite foldl_app.
  destruct (search_keywords_logged search limit kws1 [] s [])
    as (all1 & H1 & _ & _).
  rewrite H1.
  destruct (search_keywords_logged search limit kws2 all1
              (foldl (search_keyword search limit) ([], s) kws1).2 [])
    as (all2 & H2 & _ & [extra ->]).
  rewrite H2.
  destruct (_remove_duplicates (all1 ++ extra)) as [u12 | e] eqn:H12;
    [ | by left].
  right. simpl.
  apply remove_duplicates_loop_ok in H12. simpl in H12. subst u12.
  destruct (_remove_duplicates all1) as [u1 | e] eqn:H1';
    [ | apply prefix_nil].
  apply remove_duplicates_loop_ok in H1'. simpl in H1'. subst u1.
  clear. generalize (∅ : gset pykey).
  induction all1 as [ | p all1 IH]; intros seen; simpl; [apply prefix_nil | ].
  destruct (url_key p) as [k | ]; [ | apply IH].
  destruct (decide (k ∈ seen)); [apply IH | ].
  apply prefix_cons, IH.
Qed.

End RequestFacts.

Lemma search_requests_witness :
  (SpotifyClient.search_mood_playlists (Some (logged fixed_catalog))
     (PyList [PyStr "rain"; PyStr ""; PyInt 3; PyStr "storm"]) 80 (tt, [])).2.2
  = [(SpotifyClient.quoted "rain", 50); (SpotifyClient.quoted "storm", 50)].
Proof.
  rewrite (proj1 (search_requests fixed_catalog
                    [PyStr "rain"; PyStr ""; PyInt 3; PyStr "storm"] 80 tt
                    [])).
  reflexivity.
Defined.

Lemma search_results_grow_witness :
  (SpotifyClient.search_mood_playlists (Some fixed_catalog)
     (PyList ([PyStr "rain"] ++ [PyStr "storm"])) 10 tt).1 = []
  ∨ (SpotifyClient.search_mood_playlists (Some fixed_catalog)
       (PyList [PyStr "rain"]) 10 tt).1
      `prefix_of`
    (SpotifyClient.search_mood_playlists (Some fixed_catalog)
       (PyList ([PyStr "rain"] ++ [PyStr "storm"])) 10 tt).1.
Proof.
  apply (search_results_grow fixed_catalog [PyStr "rain"] [PyStr "storm"] 10
           tt).
  discriminate.
Defined.

Section RecommendationFacts.

Import SpotifyClient.

Lemma random_choice_elem {A} rnd (seq : list A) a :
  random_choice rnd seq = Ok a → a ∈ seq.
Proof.
  unfold random_choice. destruct seq as [ | x seq]; [done | ].
  destruct ((x :: seq) !! (rnd `mod` length (x :: seq))%nat) eqn:Hl; [ | done].
  intros [= <-]. by eapply list_elem_of_lookup_2.
Qed.

Lemma recommend_from_pool ps rnd p :
  recommend_from ps rnd = Some p →
  quality_playlists ps = Ok (filter (λ q, has_quality q = true) ps)
  ∧ p ∈ (if is_nil (filter (λ q, has_quality q = true) ps)
         then ps else filter (λ q, has_quality q = true) ps).
Proof.
  unfold recommend_from, selection_pool.
  destruct (quality_playlists ps) as [quality | e] eqn:Hq; [ | done].
  destruct (quality_playlists_ok _ _ Hq) as [-> _]. simpl.
  destruct (random_choice rnd _) as [r | e] eqn:Hr; [ | done]. simpl.
  destruct (get r "name" (PyStr "Unknown")); [ | done]. simpl.
  intros [= <-]. split; [done | ]. by eapply random_choice_elem.
Qed.

(** X17.  The recommendation is one of the candidates, and it has at least
    ten tracks whenever one of the candidates has: a shorter playlist is
    recommended only when all are short. *)
Theorem recommendation_prefers_long (ps : list pyval) (rnd : nat)
    (p : pyval) :
  recommend_from ps rnd = Some p →
  p ∈ ps
  ∧ ((∃ q, q ∈ ps ∧ has_quality q = true) → has_quality p = true)
  ∧ (has_quality p = false → Forall (λ q, has_quality q = false) ps).
Proof.
  intros Hp. destruct (recommend_from_pool ps rnd p Hp) as [_ Hin].
  assert (p ∈ ps ∧ ((∃ q, q ∈ ps ∧ has_quality q = true) →
                     has_quality p = true)) as [Hps Hlong].
  { destruct (filter (λ q, has_quality q = true) ps) as [ | x quality]
      eqn:Hf; simpl in Hin.
    - split; [done | ]. intros (q & Hq & Hlong).
      assert (q ∈ filter (λ q, has_quality q = true) ps) as Hq'
        by (by apply list_elem_of_filter).
      rewrite Hf in Hq'. by apply elem_of_nil in Hq'.
    - rewrite <- Hf in Hin. apply list_elem_of_filter in Hin as [? ?].
      done. }
  split; [done | ]. split; [done | ].
  intros Hshort. apply Forall_forall. intros q Hq.
  destruct (has_quality q) eqn:Hlq; [ | done].
  rewrite Hlong in Hshort; [done | eauto].
Qed.

(** X18.  From a list of candidates a recommendation is missing in exactly
    two cases: the list is empty, or the track count of one of the
    candidates is not a number, which the comparison with 10 cannot
    take. *)
Theorem recommendation_missing_iff (ps : list pyval) (rnd : nat) :
  recommend_from ps rnd = None
  ↔ ps = [] ∨ Exists (λ q, track_count q = None) ps.
Proof.
  split.
  - intros Hnone.
    destruct ps as [ | x ps]; [by left | right].
    destruct (decide (Forall (λ q, is_Some (track_count q)) (x :: ps)))
      as [Hcounted | Hnot].
    2: { apply not_Forall_Exists in Hnot; [ | intros q; apply _].
         eapply Exists_impl; [exact Hnot | ]. simpl. intros q Hq.
         destruct (track_count q); [ | done]. destruct Hq. eauto. }
    exfalso. revert Hnone. unfold recommend_from, selection_pool.
    rewrite (quality_playlists_total _ Hcounted). simpl.
    set (pool := if is_nil _ then _ else _).
    assert (pool ≠ []) as Hpool.
    { subst pool. by destruct (filter _ (x :: ps)). }
    destruct (random_choice_in rnd pool Hpool) as (r & -> & Hin). simpl.
    assert (r ∈ x :: ps) as Hr.
    { subst pool. destruct (filter _ (x :: ps)) eqn:Hf; [done | ].
      simpl in Hin. rewrite <- Hf in Hin.
      by apply list_elem_of_filter in Hin as [_ ?]. }
    rewrite Forall_forall in Hcounted. destruct (Hcounted r Hr) as [n Hn].
    destruct r; try done.
  - intros [-> | Hex]; [done | ].
    unfold recommend_from, selection_pool.
    destruct (quality_playlists ps) as [quality | e] eqn:Hq; [ | done].
    destruct (quality_playlists_ok _ _ Hq) as [_ Hall].
    exfalso. rewrite Forall_forall in Hall. rewrite Exists_exists in Hex.
    destruct Hex as (q & Hin & Hnone). destruct (Hall q Hin) as [n Hn].
    congruence.
Qed.

Context {St : Type}.

Implicit Types (sp : option (@catalog St)) (s : St).

Lemma search_results_candidates sp kws limit s :
  Forall candidate (search_mood_playlists sp kws limit s).1.
Proof.
  destruct (search_mood_playlists_kept sp kws limit s) as [-> | [all ->]];
    [constructor | apply first_bearers_candidates].
Qed.

Lemma recommendation_found sp kws rnd s p s' :
  get_mood_playlist_recommendation sp kws rnd s = (Some p, s') →
  ∃ keywords limit s0,
    p ∈ (search_mood_playlists sp keywords limit s0).1
    ∧ ((keywords = kws ∧ limit = 20 ∧ s0 = s)
       ∨ (keywords = broader_keywords ∧ limit = 10
          ∧ search_mood_playlists sp kws 20 s = ([], s0))).
Proof.
  unfold get_mood_playlist_recommendation.
  destruct (negb (truthy kws)); [done | ].
  destruct (search_mood_playlists sp kws 20 s) as [[ | x ps] s1] eqn:H1; simpl.
  - destruct (search_mood_playlists sp broader_keywords 10 s1)
      as [[ | x ps] s2] eqn:H2; simpl; [done | ].
    intros [= Hp <-].
    apply recommend_from_pool in Hp as [_ Hin].
    exists broader_keywords, 10, s1. rewrite H2. simpl. split; [ | by right].
    destruct (filter _ (x :: ps)) eqn:Hf; [done | ].
    simpl in Hin. rewrite <- Hf in Hin.
    by apply list_elem_of_filter in Hin as [_ ?].
  - intros [= Hp <-].
    apply recommend_from_pool in Hp as [_ Hin].
    exists kws, 20, s. rewrite H1. simpl. split; [ | by left].
    destruct (filter _ (x :: ps)) eqn:Hf; [done | ].
    simpl in Hin. rewrite <- Hf in Hin.
    by apply list_elem_of_filter in Hin as [_ ?].
Qed.

(** X19.  Whatever [get_mood_playlist_recommendation] returns was found by
    its first search or, that one being empty, by the search over the
    generic keywords.  It bears a URL that counts as true and is the
    projection of an item the catalog returned and the validation accepted.
    Without an authenticated client there is no recommendation and the
    catalog is not asked. *)
Theorem recommendation_was_found sp (kws : pyval) (rnd : nat) s :
  (∀ p s', get_mood_playlist_recommendation sp kws rnd s = (Some p, s') →
     (p ∈ (search_mood_playlists sp kws 20 s).1
      ∨ ((search_mood_playlists sp kws 20 s).1 = []
         ∧ p ∈ (search_mood_playlists sp broader_keywords 10
                  (search_mood_playlists sp kws 20 s).2).1))
     ∧ candidate p
     ∧ ∃ search, sp = Some search ∧ from_catalog search p)
  ∧ (sp = None → get_mood_playlist_recommendation sp kws rnd s = (None, s)).
Proof.
  split.
  - intros p s' Hp.
    destruct (recommendation_found sp kws rnd s p s' Hp)
      as (keywords & limit & s0 & Hin & Hcase).
    split; [ | split].
    + destruct Hcase as [(-> & -> & ->) | (-> & -> & Hs)]; [by left | right].
      rewrite Hs. simpl. done.
    + pose proof (search_results_candidates sp keywords limit s0) as Hc.
      rewrite Forall_forall in Hc. by apply Hc.
    + destruct sp as [search | ]; [ | by apply elem_of_nil in Hin].
      exists search. split; [done | ].
      pose proof (search_results_origin search keywords limit s0) as Ho.
      rewrite Forall_forall in Ho. by apply Ho.
  - intros ->. unfold get_mood_playlist_recommendation.
    by destruct (negb (truthy kws)).
Qed.

End RecommendationFacts.

Lemma recommendation_prefers_long_witness :
  ∃ p, SpotifyClient.recommend_from duplicated_candidates 5 = Some p
       ∧ has_quality p = true.
Proof.
  destruct (SpotifyClient.recommend_from duplicated_candidates 5)
    as [p | ] eqn:Hp; [ | discriminate Hp].
  exists p. split; [reflexivity | ].
  apply (proj1 (proj2 (recommendation_prefers_long duplicated_candidates 5 p
                         Hp))).
  eexists. split; [apply list_elem_of_here | reflexivity].
Defined.

(* ===================================================================== *)
(** * Further properties of the start-up and of the recommender *)
(* ===================================================================== *)

#[local] Set Warnings "-clear-no-such-hyp".

Section StartupFacts.

Import SpotifyClient MoodPlaylistRecommender.

(** X20.  [initialize] touches the camera and the catalog client in that
    order and stops at the first failure.  With a placeholder for the
    client id or secret nothing is touched; the camera is opened in every
    other case, so an empty credential is found only after the camera has
    been opened; the client is built only with the camera open and three
    non-empty credentials.  The result is [True] exactly when the client
    was built, and then it is the new client; otherwise the old one
    stays. *)
Theorem startup_order {C} (cr : credentials) (camera : res bool)
    (build : res C) (sp : option C) :
  let '(ok, sp', steps) := initialize cr camera build sp in
  steps `prefix_of` [OpenCamera; BuildClient]
  ∧ (OpenCamera ∈ steps ↔ placeholder_credentials cr = false)
  ∧ (BuildClient ∈ steps ↔
       placeholder_credentials cr = false ∧ camera = Ok true
       ∧ all_credentials cr = true)
  ∧ (ok = true ↔ BuildClient ∈ steps ∧ ∃ client, build = Ok client)
  ∧ (ok = true → ∃ client, build = Ok client ∧ sp' = Some client)
  ∧ (ok = false → sp' = sp).
Proof.
  unfold initialize, authenticate, MoodDetector.initialize_camera.
  destruct (placeholder_credentials cr) eqn:Hp;
    [ | destruct camera as [[ | ] | e]; simpl;
        [destruct (all_credentials cr) eqn:Ha; simpl;
           [destruct build as [client | e]; simpl | ] | | ] ];
    (split; [first [apply prefix_nil | by exists [BuildClient]
                    | by exists [] | by apply prefix_cons, prefix_nil] | ]);
    rewrite ?elem_of_cons, ?elem_of_nil; naive_solver.
Qed.

End StartupFacts.

Section FeaturedFacts.

Import SpotifyClient.

#[local] Arguments truthy : simpl never.

Lemma valid_dict_returns (d : gmap string pyval) :
  is_ok (_is_valid_playlist (PyDict d)) = true.
Proof.
  unfold _is_valid_playlist.
  destruct (truthy (PyDict d)); simpl; [ | done].
  destruct (truthy (default PyNone (d !! "name"))); simpl; [ | done].
  destruct (truthy (default PyNone (d !! "external_urls"))); simpl;
    [ | done].
  destruct (truthy (default PyNone (d !! "tracks"))); simpl; [ | done].
  destruct (truthy (default PyNone (d !! "owner"))); simpl; [ | done].
  destruct (default (PyDict ∅) (d !! "tracks")) as [ | | | | | t]; simpl;
    try done.
  destruct (eq_zero (default (PyInt 0) (t !! "total"))); simpl; [done | ].
  destruct (default (PyDict ∅) (d !! "external_urls")) as [ | | | | | eu];
    simpl; try done.
  destruct (truthy (default PyNone (eu !! "spotify"))); simpl; [ | done].
  by destruct (default (PyDict ∅) (d !! "owner")).
Qed.

Lemma is_valid_playlist_raises p :
  is_ok (_is_valid_playlist p) = false ↔ malformed p.
Proof.
  unfold malformed.
  destruct p as [ | b | n | s | l | d];
    try (unfold _is_valid_playlist; simpl; destruct (truthy _); simpl;
         split; try done; try (by intros [? ?]); fail).
  - vm_compute. split; [done | by intros [? ?]].
  - rewrite valid_dict_returns. simpl. split; [done | by intros [? ?]].
Qed.

Lemma collect_featured_returns acc items :
  Forall (λ p, ¬ malformed p) items →
  collect_featured acc items = Ok (acc ++ omap featured_record items).
Proof.
  intros Hall. revert acc.
  induction Hall as [ | p items Hp _ IH]; intros acc; simpl.
  - by rewrite app_nil_r.
  - unfold featured_record at 1.
    destruct (_is_valid_playlist p) as [[ | ] | e] eqn:Hv; simpl.
    + destruct (_extract_playlist_info p) as [info | ] eqn:Hx; [ | apply IH].
      assert (truthy info = true) as ->.
      { unfold _extract_playlist_info in Hx.
        destruct (extract_fields p) as [i | ] eqn:Hf; [ | done].
        injection Hx as ->. revert Hf. unfold extract_fields.
        intros Hf.
        repeat (match type of Hf with
                | context [mbind _ ?m] =>
                    destruct m; simpl in Hf; [ | done]
                end).
        injection Hf as <-. reflexivity. }
      by rewrite IH, <- app_assoc.
    + apply IH.
    + exfalso. apply Hp. apply is_valid_playlist_raises. by rewrite Hv.
Qed.

Lemma collect_featured_raises acc items :
  Exists malformed items → ∃ e, collect_featured acc items = Raise e.
Proof.
  intros Hex. revert acc.
  induction Hex as [p items Hp | p items _ IH]; intros acc; simpl.
  - apply is_valid_playlist_raises in Hp.
    destruct (_is_valid_playlist p); [done | ]. simpl. eauto.
  - destruct (_is_valid_playlist p) as [[ | ] | e]; simpl; [ | apply IH | eauto].
    destruct (_extract_playlist_info p) as [info | ]; [ | apply IH].
    destruct (truthy info); apply IH.
Qed.

Context {St : Type}.

(** X21.  [get_featured_playlists] returns the projections of the accepted
    items of the answer in their order, duplicates included, when no item
    is malformed; one item that counts as true and is not a dictionary
    empties the whole result, the accepted items before it included.
    Without a client the result is empty and the catalog is not asked. *)
Theorem featured_playlists_all_or_nothing (featured : @featured_catalog St)
    (limit : Z) (s s' : St) (rd pd : gmap string pyval)
    (items : list pyval) :
  featured limit s = (Ok (PyDict rd), s') →
  rd !! "playlists" = Some (PyDict pd) →
  pd !! "items" = Some (PyList items) →
  (Forall (λ p, ¬ malformed p) items →
   get_featured_playlists (Some featured) limit s
     = (omap featured_record items, s'))
  ∧ (Exists malformed items →
     get_featured_playlists (Some featured) limit s = ([], s'))
  ∧ get_featured_playlists None limit s = ([], s).
Proof.
  intros Hf Hrd Hpd. unfold get_featured_playlists. rewrite Hf.
  rewrite (truthy_dict_lookup rd _ _ Hrd). simpl. rewrite Hrd. simpl.
  rewrite Hpd. simpl. split_and!; [ | | done].
  - intros Hall. by rewrite (collect_featured_returns [] items Hall).
  - intros Hex. by destruct (collect_featured_raises [] items Hex) as [e ->].
Qed.

End FeaturedFacts.

Lemma featured_playlists_all_or_nothing_witness :
  SpotifyClient.get_featured_playlists (Some featured_with_stray) 20 tt
  = ([], tt).
Proof.
  refine (proj1 (proj2 (featured_playlists_all_or_nothing featured_with_stray 20 tt tt
                          _ _ [owned_playlist; PyStr "stray"]
                          eq_refl eq_refl eq_refl)) _).
  apply Exists_cons_tl, Exists_cons_hd. split; reflexivity.
Defined.

Section RecommendPlaylistFacts.

Import SpotifyClient MoodPlaylistRecommender.

Context {St : Type}.

Implicit Types (sp : option (@catalog St)) (s : St).

#[local] Arguments getitem : simpl never.
#[local] Arguments slice_to : simpl never.

Lemma recommendation_origin sp kws rnd s p s' :
  get_mood_playlist_recommendation sp kws rnd s = (Some p, s') →
  ∃ search, sp = Some search ∧ from_catalog search p.
Proof.
  intros Hp.
  destruct (recommendation_found sp kws rnd s p s' Hp)
    as (keywords & limit & s0 & Hin & _).
  destruct sp as [search | ]; [ | by apply elem_of_nil in Hin].
  exists search. split; [done | ].
  pose proof (search_results_origin search keywords limit s0) as Ho.
  rewrite Forall_forall in Ho. by apply Ho.
Qed.

Lemma unauthenticated_recommendation (kws : pyval) rnd s :
  get_mood_playlist_recommendation (St := St) None kws rnd s = (None, s).
Proof.
  unfold get_mood_playlist_recommendation. by destruct (negb (truthy kws)).
Qed.

Lemma open_playlist_opened web v u :
  u ∈ (open_playlist_in_browser web v).2 → openable v u.
Proof.
  unfold open_playlist_in_browser, openable.
  destruct (negb (truthy v) || negb (is_str v));
    [by intros ?%elem_of_nil | ].
  destruct v as [ | | | str | | ]; try by intros ?%elem_of_nil.
  destruct (String.prefix url_prefix str) eqn:Hp; simpl;
    [ | by intros ?%elem_of_nil].
  destruct (web str); simpl; by intros ->%list_elem_of_singleton.
Qed.

Lemma open_playlist_at_most_one web v :
  (length (open_playlist_in_browser web v).2 ≤ 1)%nat.
Proof.
  unfold open_playlist_in_browser. repeat case_match; simpl; lia.
Qed.

(** X22.  [recommend_playlist] hands the browser at most one URL, and only
    a string that starts with 'https://open.spotify.com/' and is the URL of
    a record projected from an item the catalog returned and the validation
    accepted.  Nothing is opened without an authenticated client, without a
    recommendation, or when printing the recommendation raises, which only
    a description that cannot be sliced brings about.  The result is
    [False] exactly when there is no recommendation; result and catalog
    state do not depend on the browser, so the result is [True] also when
    the URL is refused or the browser fails. *)
Theorem browser_sees_catalog_urls sp (web : browser) (mood : string)
    (keywords : list string) (rnd : nat) s :
  Main.get_mood_keywords mood = Ok keywords →
  let found :=
    get_mood_playlist_recommendation sp (PyList (PyStr <$> keywords)) rnd s in
  let '(r, opened, s') := recommend_playlist sp web mood rnd s in
  s' = found.2
  ∧ (found.1 = None ↔ r = Ok false)
  ∧ (∀ u, u ∈ opened →
       String.prefix url_prefix u = true
       ∧ ∃ search p, sp = Some search ∧ found.1 = Some p
                     ∧ from_catalog search p
                     ∧ url_value p = Some (PyStr u))
  ∧ (length opened ≤ 1)%nat
  ∧ (sp = None → r = Ok false ∧ opened = [] ∧ s' = s)
  ∧ (r ≠ Ok true → opened = [])
  ∧ (∀ e, r = Raise e →
     ∃ p description,
       found.1 = Some p
       ∧ getitem p "description" = Ok description
       ∧ is_ok (slice_to description 100) = false)
  ∧ (∀ web', (recommend_playlist sp web' mood rnd s).1.1 = r
             ∧ (recommend_playlist sp web' mood rnd s).2 = s').
Proof.
  intros Hk found. subst found. unfold recommend_playlist. rewrite Hk.
  set (kws := PyList _).
  destruct (get_mood_playlist_recommendation sp kws rnd s)
    as [[p | ] s'] eqn:Hrec.
  2: { split_and!; try done; try (simpl; lia);
         try (by intros u ?%elem_of_nil).
       intros ->. split; [done | ]. split; [done | ].
       rewrite unauthenticated_recommendation in Hrec. congruence. }
  destruct (recommendation_origin sp kws rnd s p s' Hrec)
    as (search & -> & Hfrom).
  pose proof Hfrom as (q & limit & s0 & rd & pd & items & raw & _ & _ & _ & _
                       & Hacc & Hx).
  destruct (accepted_projection raw p Hacc Hx)
    as (d & eu & u & tracks & total & n & de & o & i & -> & _ & _ & _ & _
        & Hut & ->).
  assert (truthy (playlist_info n u de total o i) = true) as -> by done.
  assert (getitem (playlist_info n u de total o i) "name" = Ok n) as ->
    by done.
  assert (getitem (playlist_info n u de total o i) "owner" = Ok o) as ->
    by done.
  assert (getitem (playlist_info n u de total o i) "tracks_count" = Ok total)
    as -> by done.
  assert (getitem (playlist_info n u de total o i) "description" = Ok de)
    as Hde by done.
  assert (getitem (playlist_info n u de total o i) "url" = Ok u) as Hurl
    by done.
  rewrite Hde. simpl.
  destruct (slice_to de 100) as [sl | e] eqn:Hsl; simpl.
  - rewrite Hurl. split_and!; try done.
    + intros u' Hin. apply open_playlist_opened in Hin as [-> Hpre].
      split; [done | ].
      exists search, (playlist_info n (PyStr u') de total o i).
      split_and!; try done.
      by rewrite playlist_info_url, Hut.
    + apply open_playlist_at_most_one.
  - split_and!; try done; try lia.
    + by intros u' ?%elem_of_nil.
    + intros e' _. exists (playlist_info n u de total o i), de.
      by rewrite Hsl.
Qed.

End RecommendPlaylistFacts.

Lemma browser_sees_catalog_urls_witness :
  Main.get_mood_keywords "sad"
  = Ok ["sad"; "melancholy"; "blues"; "emotional"; "heartbreak"]
  ∧ ∀ u,
      u ∈ (MoodPlaylistRecommender.recommend_playlist (Some fixed_catalog)
             broken_browser "sad" 0 tt).1.2 →
      String.prefix SpotifyClient.url_prefix u = true.
Proof.
  split; [reflexivity | ].
  pose proof (browser_sees_catalog_urls (Some fixed_catalog) broken_browser
                "sad" ["sad"; "melancholy"; "blues"; "emotional"; "heartbreak"]
                0 tt eq_refl) as H.
  destruct (MoodPlaylistRecommender.recommend_playlist (Some fixed_catalog)
              broken_browser "sad" 0 tt) as [[r opened] s'].
  destruct H as (_ & _ & H & _).
  intros u Hu. exact (proj1 (H u Hu)).
Defined.

Example recommend_playlist_sample :
  MoodPlaylistRecommender.recommend_playlist (Some fixed_catalog)
    broken_browser "sad" 0 tt
  = (Ok true, ["https://open.spotify.com/playlist/1"], tt).
Proof. vm_compute. reflexivity. Qed.

Lemma capture_run_rate_witness :
  Z.of_nat
    (length (filter (λ r, is_Some r.1)
               (MoodDetector.capture_run all_cascades 2 four_captures
                  fresh_detector).1)) = 2.
Proof.
  assert (Forall (λ ct, good_capture ct.1) four_captures) as Hgood.
  { repeat constructor; eexists; reflexivity. }
  rewrite (proj1 (proj2 (capture_run_rate all_cascades 2 four_captures
                           fresh_detector ltac:(lia) ltac:(simpl; lia)
                           Hgood))).
  reflexivity.
Defined.
